(** * Charly VM runtime core: value encoding, heap cells and collector

    A shallow embedding of the NaN-boxed value representation
    ([value.h]), of the numeric and string helpers built on it, of the
    class prototype lookup, of the host-function call shim and of the
    mark-and-sweep collector ([gc.cpp]), together with the properties the
    runtime specification states about them.

    Conventions.
    - A [VALUE] is a 64-bit word, kept as a [Z] in [0, 2^64).
    - A C++ [double] is kept as its IEEE-754 binary64 bit pattern, so
      [BITCAST_DOUBLE] is the identity on the word.
    - A signed 64-bit integer is a [Z]; conversions between the signed and
      unsigned views are written out ([u64], [s64]).
    - A pointer is the address it holds; [0] is [nullptr].  Dereferencing
      an address that holds no cell has no defined result and is [None]. *)

From Stdlib Require Import ZArith Bool List Lia.
From stdpp Require Import base option list gmap.

Local Open Scope Z_scope.

(** ** Machine integers *)

Definition two64 : Z := 2 ^ 64.

(** Conversion to [uint64_t]. *)
Definition u64 (x : Z) : Z := x mod two64.

(** Conversion of a 64-bit word to [int64_t] (two's complement). *)
Definition s64 (x : Z) : Z :=
  let r := x mod two64 in if r <? 2 ^ 63 then r else r - two64.

Definition is_u64 (x : Z) : Prop := 0 <= x < two64.

(** ** Value encoding (value.h) *)

Definition VALUE := Z.

Definition kMaskSignBit       : Z := 0x8000000000000000.
Definition kMaskExponentBits  : Z := 0x7ff0000000000000.
Definition kMaskQuietBit      : Z := 0x0008000000000000.
Definition kMaskTypeBits      : Z := 0x0007000000000000.
Definition kMaskSignature     : Z := 0xffff000000000000.
Definition kMaskPayloadBits   : Z := 0x0000ffffffffffff.

Definition kITypeNaN          : Z := 0x0000000000000000.
Definition kITypeFalse        : Z := 0x0001000000000000.
Definition kITypeTrue         : Z := 0x0002000000000000.
Definition kITypeNull         : Z := 0x0003000000000000.
Definition kITypeInteger      : Z := 0x0004000000000000.
Definition kITypeSymbol       : Z := 0x0005000000000000.
Definition kITypePString      : Z := 0x0006000000000000.
Definition kITypeIString      : Z := 0x0007000000000000.

Definition kBitsNaN           : Z := Z.lor kMaskExponentBits kMaskQuietBit.
Definition kNaN               : Z := kBitsNaN.
Definition kFalse             : Z := Z.lor kBitsNaN kITypeFalse.
Definition kTrue              : Z := Z.lor kBitsNaN kITypeTrue.
Definition kNull              : Z := Z.lor kBitsNaN kITypeNull.

Definition kSignaturePointer  : Z := Z.lor kMaskSignBit kBitsNaN.
Definition kSignatureInteger  : Z := Z.lor kBitsNaN kITypeInteger.
Definition kSignatureSymbol   : Z := Z.lor kBitsNaN kITypeSymbol.
Definition kSignaturePString  : Z := Z.lor kBitsNaN kITypePString.
Definition kSignatureIString  : Z := Z.lor kBitsNaN kITypeIString.

Definition kMaskPointer       : Z := 0x0000ffffffffffff.
Definition kMaskInteger       : Z := 0x0000ffffffffffff.
Definition kMaskIntegerSign   : Z := 0x0000800000000000.
Definition kMaskSymbol        : Z := 0x0000ffffffffffff.
Definition kMaskPString       : Z := 0x0000ffffffffffff.
Definition kMaskIString       : Z := 0x000000ffffffffff.
Definition kMaskIStringLength : Z := 0x0000ff0000000000.

Definition kMaxInt            : Z := Z.shiftl 1 47 - 1.
Definition kMaxUInt           : Z := Z.shiftl 1 48 - 1.
Definition kMinInt            : Z := - Z.shiftl 1 47.
Definition kMaxPointer        : Z := 0x0000FFFFFFFFFFFF.
Definition kSignBlock         : Z := 0xFFFF000000000000.

Definition kMaxIStringLength  : Z := 5.
Definition kMaxPStringLength  : Z := 6.

(** Type casting: the address held by a pointer value. *)
Definition charly_as_pointer (value : VALUE) : Z := Z.land value kMaskPointer.

(** Type checking functions that only look at the word. *)
Definition charly_is_false (value : VALUE) : bool := value =? kFalse.
Definition charly_is_true (value : VALUE) : bool := value =? kTrue.
Definition charly_is_boolean (value : VALUE) : bool :=
  charly_is_false value || charly_is_true value.
Definition charly_is_null (value : VALUE) : bool := value =? kNull.
Definition charly_is_nan (value : VALUE) : bool := value =? kNaN.
Definition charly_is_float (value : VALUE) : bool :=
  charly_is_nan value
  || negb (Z.land (u64 (Z.lnot value)) kMaskExponentBits =? 0).
Definition charly_is_int (value : VALUE) : bool :=
  Z.land value kMaskSignature =? kSignatureInteger.
Definition charly_is_number (value : VALUE) : bool :=
  charly_is_int value || charly_is_float value.
Definition charly_is_symbol (value : VALUE) : bool :=
  Z.land value kMaskSignature =? kSignatureSymbol.
Definition charly_is_pstring (value : VALUE) : bool :=
  Z.land value kMaskSignature =? kSignaturePString.
Definition charly_is_istring (value : VALUE) : bool :=
  Z.land value kMaskSignature =? kSignatureIString.
Definition charly_is_immediate_string (value : VALUE) : bool :=
  charly_is_istring value || charly_is_pstring value.
Definition charly_is_ptr (value : VALUE) : bool :=
  Z.land value kMaskSignature =? kSignaturePointer.
Definition charly_is_on_heap (value : VALUE) : bool := charly_is_ptr value.

(** [charly_int_to_int64]: the 48-bit payload, sign-extended from bit 47. *)
Definition charly_int_to_int64 (value : VALUE) : Z :=
  s64 (Z.lor (Z.land value kMaskInteger)
             (if negb (Z.land value kMaskIntegerSign =? 0) then kSignBlock else 0)).

(** [charly_create_integer]: no overflow check, the argument is cut to 48
    bits.  The argument is an [int64_t]; the mask is unsigned, so the
    conjunction is taken on the unsigned view. *)
Definition charly_create_integer (value : Z) : VALUE :=
  Z.lor kSignatureInteger (Z.land (u64 value) kMaskInteger).

(** [charly_create_double]: the argument is the bit pattern of the double. *)
Definition charly_create_double (value : Z) : VALUE :=
  let bits := value in
  if Z.land bits kMaskExponentBits =? kMaskExponentBits then kBitsNaN
  else value.

(** [charly_double_to_double] is [BITCAST_DOUBLE]: the same 64 bits. *)
Definition charly_double_to_double (value : VALUE) : Z := value.

(** [charly_create_pointer]. *)
Definition charly_create_pointer (ptr : Z) : VALUE :=
  if ptr =? 0 then kNull
  else if ptr >? kMaxPointer then kSignaturePointer
  else Z.lor kSignaturePointer (Z.land kMaskPointer ptr).

(** ** IEEE-754 binary64 on bit patterns

    What the hardware and [<cmath>] do with a double, written on its bit
    pattern: classification, comparison, the value of a finite double as
    an integer mantissa and a binary exponent, and the conversion from
    [int64_t] (round to nearest, ties to even). *)

Definition fp_mantissa (d : Z) : Z := Z.land d 0x000fffffffffffff.
Definition fp_exponent (d : Z) : Z := Z.land (Z.shiftr d 52) 0x7ff.
Definition fp_negative (d : Z) : bool := Z.testbit d 63.

Definition fp_is_finite (d : Z) : bool := negb (fp_exponent d =? 0x7ff).
Definition fp_is_inf (d : Z) : bool := (fp_exponent d =? 0x7ff) && (fp_mantissa d =? 0).
Definition fp_is_nan (d : Z) : bool := (fp_exponent d =? 0x7ff) && negb (fp_mantissa d =? 0).
Definition fp_is_zero (d : Z) : bool := (fp_exponent d =? 0) && (fp_mantissa d =? 0).

(** [a == b] on doubles. *)
Definition fp_eq (a b : Z) : bool :=
  if fp_is_nan a || fp_is_nan b then false
  else if fp_is_zero a && fp_is_zero b then true
  else a =? b.

Definition fp_pos_inf : Z := 0x7ff0000000000000.
Definition fp_neg_inf : Z := 0xfff0000000000000.
Definition fp_pos_zero : Z := 0.
Definition fp_neg_zero : Z := 0x8000000000000000.

(** The signature of a word: its upper 16 bits. *)
Definition signature (v : Z) : Z := (v / 2 ^ 48) mod 2 ^ 16.

(** ** Heap cells (value.h)

    Every heap structure starts with a [Basic] header.  The header's type
    tag selects the member of the [MemoryCell] union that is live, so the
    tag is kept as the constructor of [CellData]; the two flag bits and
    the mark bit are kept in [Basic]. *)

Definition kTypeDead       : Z := 0.
Definition kTypeClass      : Z := 1.
Definition kTypeObject     : Z := 2.
Definition kTypeArray      : Z := 3.
Definition kTypeString     : Z := 4.
Definition kTypeFunction   : Z := 5.
Definition kTypeCFunction  : Z := 6.
Definition kTypeGenerator  : Z := 7.
Definition kTypeFrame      : Z := 8.
Definition kTypeCatchTable : Z := 9.
Definition kTypeCPointer   : Z := 10.
Definition kTypeNumber     : Z := 11.
Definition kTypeBoolean    : Z := 12.
Definition kTypeNull       : Z := 13.
Definition kTypeSymbol     : Z := 14.
Definition kTypeUnknown    : Z := 15.

Record Basic := mkBasic { f1 : bool; f2 : bool; mark : bool }.

(** The header after [calloc] or [memset 0]. *)
Definition zero_basic : Basic := mkBasic false false false.

Record Object := mkObject {
  obj_klass : VALUE;
  obj_container : gmap Z VALUE }.

Record Array := mkArray { arr_data : list VALUE }.

Definition kShortStringMaxSize : Z := 118.

(** [lbuf_data] is the separately allocated buffer [lbuf.data] points to. *)
Record String := mkString {
  lbuf_length : Z;
  lbuf_data : list Z;
  sbuf_length : Z;
  sbuf_data : list Z }.

Definition kSmallFrameLocalCount : Z := 5.

(** [lenv] is the vector the pointer refers to, [None] for [nullptr]. *)
Record Frame := mkFrame {
  fr_parent : Z;
  fr_parent_environment_frame : Z;
  fr_last_active_catchtable : Z;
  fr_caller_value : VALUE;
  fr_stacksize_at_entry : Z;
  fr_lenv : option (list VALUE);
  fr_senv_data : list VALUE;
  fr_senv_lvarcount : Z;
  fr_self : VALUE;
  fr_origin_address : Z;
  fr_return_address : Z }.

Record CatchTable := mkCatchTable {
  ct_address : Z;
  ct_stacksize : Z;
  ct_frame : Z;
  ct_parent : Z }.

Record CPointer := mkCPointer { cp_data : Z; cp_destructor : Z }.

Record Function := mkFunction {
  fn_name : VALUE;
  fn_argc : Z;
  fn_minimum_argc : Z;
  fn_lvarcount : Z;
  fn_context : Z;
  fn_body_address : Z;
  fn_bound_self_set : bool;
  fn_bound_self : VALUE;
  fn_host_class : VALUE;
  fn_container : gmap Z VALUE }.

Definition kThreadMain   : Z := 1.
Definition kThreadWorker : Z := 2.
Definition kThreadBoth   : Z := 3.

Record CFunction := mkCFunction {
  cf_name : VALUE;
  cf_pointer : Z;
  cf_argc : Z;
  cf_container : gmap Z VALUE;
  cf_thread_policy : Z;
  cf_push_return_value : bool;
  cf_halt_after_return : bool }.

Record Generator := mkGenerator {
  gen_name : VALUE;
  gen_context_frame : Z;
  gen_boot_function : Z;
  gen_context_catchtable : Z;
  gen_context_stack : list VALUE;
  gen_resume_address : Z;
  gen_owns_catchtable : bool;
  gen_running : bool;
  gen_bound_self_set : bool;
  gen_bound_self : VALUE;
  gen_container : gmap Z VALUE }.

Record Class := mkClass {
  cls_name : VALUE;
  cls_constructor : VALUE;
  cls_member_properties : list VALUE;
  cls_prototype : VALUE;
  cls_parent_class : VALUE;
  cls_container : gmap Z VALUE }.

(** The union [MemoryCell]; [DFree] is the freelist member [free.next]. *)
Inductive CellData :=
| DFree (next : Z)
| DClass (k : Class)
| DObject (o : Object)
| DArray (a : Array)
| DString (s : String)
| DFunction (f : Function)
| DCFunction (c : CFunction)
| DGenerator (g : Generator)
| DFrame (f : Frame)
| DCatchTable (t : CatchTable)
| DCPointer (p : CPointer).

Record MemoryCell := mkCell { basic : Basic; data : CellData }.

(** [basic.type]. *)
Definition cell_type (c : MemoryCell) : Z :=
  match data c with
  | DFree _ => kTypeDead
  | DClass _ => kTypeClass
  | DObject _ => kTypeObject
  | DArray _ => kTypeArray
  | DString _ => kTypeString
  | DFunction _ => kTypeFunction
  | DCFunction _ => kTypeCFunction
  | DGenerator _ => kTypeGenerator
  | DFrame _ => kTypeFrame
  | DCatchTable _ => kTypeCatchTable
  | DCPointer _ => kTypeCPointer
  end.

(** The cells of the machine, by address. *)
Abbreviation Memory := (gmap Z MemoryCell).

Definition charly_as_basic (m : Memory) (value : VALUE) : option MemoryCell :=
  m !! charly_as_pointer value.

Definition charly_is_heap_type (m : Memory) (value : VALUE) (type : Z) : option bool :=
  if charly_is_on_heap value then
    c ← charly_as_basic m value; Some (cell_type c =? type)
  else Some false.

Definition charly_is_dead (m : Memory) (value : VALUE) : option bool :=
  charly_is_heap_type m value kTypeDead.
Definition charly_is_class (m : Memory) (value : VALUE) : option bool :=
  charly_is_heap_type m value kTypeClass.
Definition charly_is_object (m : Memory) (value : VALUE) : option bool :=
  charly_is_heap_type m value kTypeObject.
Definition charly_is_array (m : Memory) (value : VALUE) : option bool :=
  charly_is_heap_type m value kTypeArray.
Definition charly_is_hstring (m : Memory) (value : VALUE) : option bool :=
  charly_is_heap_type m value kTypeString.
Definition charly_is_function (m : Memory) (value : VALUE) : option bool :=
  charly_is_heap_type m value kTypeFunction.
Definition charly_is_generator (m : Memory) (value : VALUE) : option bool :=
  charly_is_heap_type m value kTypeGenerator.

(** Typed views of the cell a pointer value refers to. *)
Definition class_at (m : Memory) (addr : Z) : option Class :=
  c ← m !! addr; match data c with DClass k => Some k | _ => None end.
Definition object_at (m : Memory) (addr : Z) : option Object :=
  c ← m !! addr; match data c with DObject o => Some o | _ => None end.
Definition string_at (m : Memory) (addr : Z) : option (Basic * String) :=
  c ← m !! addr; match data c with DString s => Some (basic c, s) | _ => None end.

Definition charly_as_class (m : Memory) (value : VALUE) : option Class :=
  class_at m (charly_as_pointer value).
Definition charly_as_object (m : Memory) (value : VALUE) : option Object :=
  object_at m (charly_as_pointer value).

(** [Generator::finished] is the header flag [f1]. *)
Definition finished (c : MemoryCell) : bool := f1 (basic c).

(** ** Truthiness *)

Definition charly_truthyness (m : Memory) (value : VALUE) : option bool :=
  if value =? kNaN then Some false
  else if value =? kNull then Some false
  else if value =? kFalse then Some false
  else if charly_is_int value then Some (negb (charly_int_to_int64 value =? 0))
  else if charly_is_float value then
    Some (negb (fp_eq (charly_double_to_double value) fp_pos_zero))
  else
    g ← charly_is_generator m value;
    if (g : bool) then c ← charly_as_basic m value; Some (negb (finished c))
    else Some true.

(** The values the specification lists as falsy. *)
Definition is_finished_generator (m : Memory) (v : VALUE) : Prop :=
  charly_is_ptr v = true /\
  exists c, m !! charly_as_pointer v = Some c /\
            cell_type c = kTypeGenerator /\ finished c = true.

Definition falsy (m : Memory) (v : VALUE) : Prop :=
  v = kFalse \/ v = kNull \/ v = charly_create_integer 0 \/
  v = fp_pos_zero \/ v = fp_neg_zero \/ v = kNaN \/
  is_finished_generator m v.

(** ** Numbers

    The value of a finite double is [m * 2^e] for the signed mantissa [m]
    and exponent [e] below. *)

Definition fp_decode (d : Z) : Z * Z :=
  let m := if fp_exponent d =? 0 then fp_mantissa d else fp_mantissa d + 2 ^ 52 in
  let e := if fp_exponent d =? 0 then -1074 else fp_exponent d - 1075 in
  (if fp_negative d then - m else m, e).

(** [modf(d, &intpart) == 0.0] for a finite [d]: the fraction is zero. *)
Definition fp_is_integral (d : Z) : bool :=
  let '(m, e) := fp_decode d in
  if 0 <=? e then true else m mod 2 ^ (- e) =? 0.

(** [(int64_t)d] for a finite [d]: truncation toward zero. *)
Definition fp_trunc (d : Z) : Z :=
  let '(m, e) := fp_decode d in
  if 0 <=? e then m * 2 ^ e else Z.quot m (2 ^ (- e)).

(** [(double)x] for an [int64_t]: exact up to 53 bits, otherwise rounded
    to nearest with ties to even. *)
Definition int64_to_double (x : Z) : Z :=
  if x =? 0 then 0
  else
    let s := if x <? 0 then 2 ^ 63 else 0 in
    let a := Z.abs x in
    let e := Z.log2 a in
    if e <=? 52 then s + (e + 1023) * 2 ^ 52 + (a * 2 ^ (52 - e) - 2 ^ 52)
    else
      let sh := e - 52 in
      let q := a / 2 ^ sh in
      let r := a mod 2 ^ sh in
      let half := 2 ^ (sh - 1) in
      let q' := if (half <? r) || ((r =? half) && Z.odd q) then q + 1 else q in
      s + (e + 1023) * 2 ^ 52 + (q' - 2 ^ 52).

Definition charly_int_to_double (value : VALUE) : Z :=
  int64_to_double (charly_int_to_int64 value).

Definition charly_number_to_double (value : VALUE) : Z :=
  if charly_is_float value then charly_double_to_double value
  else charly_int_to_double value.

(** [charly_create_number(int64_t)]. *)
Definition charly_create_number_int64 (value : Z) : VALUE :=
  if (kMaxInt <=? value) || (value <=? kMinInt)
  then charly_create_double (int64_to_double value)
  else charly_create_integer value.

(** [charly_create_number(double)]. *)
Definition charly_create_number_double (value : Z) : VALUE :=
  if fp_is_finite value
     && fp_is_integral value
     && (fp_trunc value <=? kMaxInt) && (kMinInt <=? fp_trunc value)
  then charly_create_integer (fp_trunc value)
  else charly_create_double value.

(** [a % b] on [int64_t]: no result for a zero divisor (and for the one
    quotient that overflows); otherwise the remainder of the division
    that truncates toward zero. *)
Definition int64_rem (a b : Z) : option Z :=
  if b =? 0 then None
  else if (a =? - 2 ^ 63) && (b =? -1) then None
  else Some (Z.rem a b).

Section Arithmetic.

(** Parameters: the double operations of C++ and of [<cmath>] ([+], [-],
    [*], [std::fmod]), on bit patterns. *)
Context (fp_add fp_sub fp_mul fp_fmod : Z -> Z -> Z).

Definition charly_add_number (left right : VALUE) : VALUE :=
  if charly_is_int left && charly_is_int right then
    charly_create_number_int64
      (s64 (charly_int_to_int64 left + charly_int_to_int64 right))
  else
    charly_create_number_double
      (fp_add (charly_number_to_double left) (charly_number_to_double right)).

Definition charly_sub_number (left right : VALUE) : VALUE :=
  if charly_is_int left && charly_is_int right then
    charly_create_number_int64
      (s64 (charly_int_to_int64 left - charly_int_to_int64 right))
  else
    charly_create_number_double
      (fp_sub (charly_number_to_double left) (charly_number_to_double right)).

Definition charly_mul_number (left right : VALUE) : VALUE :=
  if charly_is_int left && charly_is_int right then
    charly_create_number_int64
      (s64 (charly_int_to_int64 left * charly_int_to_int64 right))
  else
    charly_create_number_double
      (fp_mul (charly_number_to_double left) (charly_number_to_double right)).

(** The result is [None] if the integer remainder is taken with a zero
    divisor. *)
Definition charly_mod_number (left right : VALUE) : option VALUE :=
  if charly_is_int left && charly_is_int right then
    if charly_int_to_int64 right =? 0 then Some kNaN
    else
      r ← int64_rem (charly_int_to_int64 left) (charly_int_to_int64 right);
      Some (charly_create_number_int64 r)
  else
    Some (charly_create_number_double
            (fp_fmod (charly_number_to_double left) (charly_number_to_double right))).

End Arithmetic.

(** ** Immediate strings

    A [VALUE] in memory is eight bytes; [IS_BIG_ENDIAN()] (from
    [defines.h], not part of the sources at hand) is the parameter
    [big_endian]. *)

Definition is_byte (b : Z) : Prop := 0 <= b < 256.

(** The eight bytes of a word, lowest address first. *)
Definition le_bytes (v : Z) : list Z :=
  map (fun i => (v / 2 ^ (8 * Z.of_nat i)) mod 256) (seq 0 8).

Fixpoint le_word (l : list Z) : Z :=
  match l with
  | [] => 0
  | b :: l' => b + 256 * le_word l'
  end.

Definition word_bytes (big_endian : bool) (v : Z) : list Z :=
  if big_endian then rev (le_bytes v) else le_bytes v.

Definition bytes_word (big_endian : bool) (buf : list Z) : Z :=
  le_word (if big_endian then rev buf else buf).

(** [buf[i] = ptr[j]]; reading past the end of [ptr] has no result. *)
Definition copy_byte (ptr : list Z) (buf : list Z) (ij : nat * nat) : option (list Z) :=
  b ← ptr !! ij.2; Some (<[ij.1 := b]> buf).

Fixpoint copy_bytes (ptr : list Z) (buf : list Z) (ijs : list (nat * nat)) : option (list Z) :=
  match ijs with
  | [] => Some buf
  | ij :: ijs' => buf' ← copy_byte ptr buf ij; copy_bytes ptr buf' ijs'
  end.

(** [charly_create_istring(const char* ptr, uint8_t length)]. *)
Definition charly_create_istring (big_endian : bool) (ptr : list Z) (length : Z)
  : option VALUE :=
  if length =? 6 then
    let buf := word_bytes big_endian kSignaturePString in
    buf' ← copy_bytes ptr buf
      (if big_endian
       then [(2, 0); (3, 1); (4, 2); (5, 3); (6, 4); (7, 5)]
       else [(0, 0); (1, 1); (2, 2); (3, 3); (4, 4); (5, 5)])%nat;
    Some (bytes_word big_endian buf')
  else if length <=? 5 then
    let buf := word_bytes big_endian kSignatureIString in
    buf' ← copy_bytes ptr buf
      (map (fun k => if big_endian then (k + 3, k) else (k, k))%nat
           (List.filter (fun k => Z.of_nat k + 1 <=? length) (seq 0 5)));
    Some (bytes_word big_endian (<[(if big_endian then 2 else 5)%nat := length]> buf'))
  else Some kNull.

(** [String::data] and [String::length]. *)
Definition string_data (s : Basic * String) : list Z :=
  if f1 s.1 then sbuf_data s.2 else lbuf_data s.2.
Definition string_length (s : Basic * String) : Z :=
  if f1 s.1 then sbuf_length s.2 else lbuf_length s.2.

(** [charly_string_data]: the bytes readable from the returned pointer
    (to the end of the word for an immediate string); the inner [None]
    is [nullptr]. *)
Definition charly_string_data (big_endian : bool) (m : Memory) (value : VALUE)
  : option (option (list Z)) :=
  h ← charly_is_hstring m value;
  if (h : bool) then
    s ← string_at m (charly_as_pointer value); Some (Some (string_data s))
  else if negb big_endian then Some (Some (word_bytes big_endian value))
  else if charly_is_pstring value then Some (Some (drop 2 (word_bytes big_endian value)))
  else if charly_is_istring value then Some (Some (drop 3 (word_bytes big_endian value)))
  else Some None.

(** [charly_string_length]. *)
Definition charly_string_length (big_endian : bool) (m : Memory) (value : VALUE)
  : option Z :=
  if charly_is_pstring value then Some 6
  else if charly_is_istring value then
    word_bytes big_endian value !! (if big_endian then 2 else 5)%nat
  else
    h ← charly_is_hstring m value;
    if (h : bool) then
      s ← string_at m (charly_as_pointer value); Some (string_length s)
    else Some 0xFFFFFFFF.

(** ** Prototype lookup *)

(** [charly_find_prototype_value].  The recursion follows [parent_class];
    [fuel] bounds its depth.  The outer [None] stands for running out of
    fuel or reading a cell that is not there; the inner option is the
    [std::optional] the function returns. *)
Fixpoint charly_find_prototype_value (fuel : nat) (m : Memory) (klass : Z)
    (symbol : VALUE) : option (option VALUE) :=
  match fuel with
  | O => None
  | S fuel' =>
    k ← class_at m klass;
    isobj ← charly_is_object m (cls_prototype k);
    if (isobj : bool) then
      prototype ← charly_as_object m (cls_prototype k);
      match obj_container prototype !! symbol with
      | Some v => Some (Some v)
      | None =>
        iscls ← charly_is_class m (cls_parent_class k);
        if (iscls : bool) then
          presult ← charly_find_prototype_value fuel' m
                      (charly_as_pointer (cls_parent_class k)) symbol;
          match presult with
          | Some v => Some (Some v)
          | None => Some None
          end
        else Some None
      end
    else Some None
  end.

(** [charly_find_super_method]. *)
Definition charly_find_super_method (fuel : nat) (m : Memory) (base : Z)
    (symbol : VALUE) : option VALUE :=
  b ← class_at m base;
  iscls ← charly_is_class m (cls_parent_class b);
  if negb iscls then Some kNull
  else
    r ← charly_find_prototype_value fuel m
          (charly_as_pointer (cls_parent_class b)) symbol;
    Some (default kNull r).

(** The chain of classes the lookup walks from [klass]: each class has an
    object as prototype, the listed container is that object's, and the
    chain ends at the class whose [parent_class] is not a class. *)
Inductive class_chain (m : Memory) : Z -> list (gmap Z VALUE) -> Prop :=
| chain_last klass k proto :
    class_at m klass = Some k ->
    charly_is_object m (cls_prototype k) = Some true ->
    charly_as_object m (cls_prototype k) = Some proto ->
    charly_is_class m (cls_parent_class k) = Some false ->
    class_chain m klass [obj_container proto]
| chain_parent klass k proto rest :
    class_at m klass = Some k ->
    charly_is_object m (cls_prototype k) = Some true ->
    charly_as_object m (cls_prototype k) = Some proto ->
    charly_is_class m (cls_parent_class k) = Some true ->
    class_chain m (charly_as_pointer (cls_parent_class k)) rest ->
    class_chain m klass (obj_container proto :: rest).

(** The first container of a chain that holds the symbol decides. *)
Fixpoint first_match (symbol : VALUE) (chain : list (gmap Z VALUE)) : option VALUE :=
  match chain with
  | [] => None
  | c :: chain' =>
    match c !! symbol with
    | Some v => Some v
    | None => first_match symbol chain'
    end
  end.

(** ** Calling host functions *)

(** What [charly_call_cfunction] does: it returns a value itself, or it
    returns what the native function at [pointer] returns for [args]. *)
Inductive CallResult :=
| Returned (v : VALUE)
| NativeCall (pointer : Z) (args : list VALUE).

(** [ARG_n]: [argv[0], ..., argv[n-1]]. *)
Definition ARG (n : nat) (argv : list VALUE) : option (list VALUE) :=
  mapM (fun i => argv !! i) (seq 0 n).

(** The [switch] has one case for each of 0, ..., 20; case [n] casts the
    pointer to a function of [n] values and passes [ARG_n]. *)
Definition charly_call_cfunction (cfunc : CFunction) (argc : Z) (argv : list VALUE)
  : option CallResult :=
  if argc <? cf_argc cfunc then Some (Returned kNull)
  else if (0 <=? cf_argc cfunc) && (cf_argc cfunc <=? 20) then
    args ← ARG (Z.to_nat (cf_argc cfunc)) argv;
    Some (NativeCall (cf_pointer cfunc) args)
  else Some (Returned kNull).

(** ** The virtual machine state the collector reads (vm.h) *)

Record VMTask := mkVMTask {
  task_is_thread : bool;
  task_uid : Z;
  task_thread_id : Z;
  task_thread_argument : VALUE;
  task_callback_func : VALUE;
  task_callback_arguments : VALUE * VALUE * VALUE * VALUE }.

Record VMThread := mkVMThread {
  thread_uid : Z;
  thread_stack : list VALUE;
  thread_frame : Z;
  thread_catchstack : Z;
  thread_resume_address : Z }.

Record WorkerThread := mkWorkerThread {
  worker_cfunc : Z;
  worker_arguments : list VALUE;
  worker_callback : Z;
  worker_error_value : VALUE }.

(** The maps of timers, tickers, paused threads and worker threads are
    kept as the lists of their entries in iteration order. *)
Record VM := mkVM {
  running : bool;
  frames : Z;
  catchstack : Z;
  uncaught_exception_handler : VALUE;
  internal_error_class : VALUE;
  globals : VALUE;
  primitive_array : VALUE;
  primitive_boolean : VALUE;
  primitive_class : VALUE;
  primitive_function : VALUE;
  primitive_generator : VALUE;
  primitive_null : VALUE;
  primitive_number : VALUE;
  primitive_object : VALUE;
  primitive_string : VALUE;
  primitive_value : VALUE;
  stack : list VALUE;
  pop_queue : list VALUE;
  task_queue : list VMTask;
  timers : list VMTask;
  tickers : list VMTask;
  paused_threads : list VMThread;
  worker_threads : list WorkerThread }.

(** ** Collector (gc.cpp) *)

(** Modelled from the spec: [GarbageCollectorConfig] is declared in
    [gc.h], which is not among the sources; these are the fields
    [gc.cpp] reads, the arena capacity, the growth factor and the
    free-cell threshold of the allocator contract, as unsigned integers. *)
Record GarbageCollectorConfig := mkConfig {
  heap_cell_count : Z;
  heap_growth_factor : Z;
  min_free_cells : Z;
  trace : bool }.

(** [heaps] holds the base address of every arena; [temporaries] is the
    set of pinned values. *)
Record GarbageCollector := mkGC {
  config : GarbageCollectorConfig;
  heaps : list Z;
  free_cell : Z;
  remaining_free_cells : Z;
  temporaries : list VALUE }.

(** What the collector does to the world outside the cells: the
    containers and buffers its destructors release, the host destructors
    it calls and what it writes to the error stream. *)
Inductive Effect :=
| DeleteContainer (container : gmap Z VALUE)
| DeleteVector (vector : list VALUE)
| FreeBuffer (buffer : list Z)
| CallDestructor (destructor data : Z)
| ErrStream (message : list Z).

(** The machine: the cells, the collector, the interpreter state it
    belongs to and the effects so far. *)
Record Machine := mkMachine {
  memory : Memory;
  gc : GarbageCollector;
  vm : VM;
  effects : list Effect }.

Definition set_memory (m : Memory) (w : Machine) : Machine :=
  mkMachine m (gc w) (vm w) (effects w).
Definition set_gc (g : GarbageCollector) (w : Machine) : Machine :=
  mkMachine (memory w) g (vm w) (effects w).
Definition add_effects (e : list Effect) (w : Machine) : Machine :=
  mkMachine (memory w) (gc w) (vm w) (effects w ++ e).

Definition set_mark (b : bool) (c : MemoryCell) : MemoryCell :=
  mkCell (mkBasic (f1 (basic c)) (f2 (basic c)) b) (data c).

Definition container_values (container : gmap Z VALUE) : list VALUE :=
  (map_to_list container).*2.

(** [Frame::lvarcount] and [Frame::read_local] over all live locals. *)
Definition frame_locals (b : Basic) (f : Frame) : list VALUE :=
  if f1 b then take (Z.to_nat (fr_senv_lvarcount f)) (fr_senv_data f)
  else default [] (fr_lenv f).

(** The values [GarbageCollector_mark] passes to its recursive calls for
    a cell, in the order of the calls. *)
Definition mark_children (c : MemoryCell) : list VALUE :=
  match data c with
  | DObject obj => obj_klass obj :: container_values (obj_container obj)
  | DArray arr => arr_data arr
  | DFunction func =>
      [charly_create_pointer (fn_context func); fn_host_class func]
      ++ (if fn_bound_self_set func then [fn_bound_self func] else [])
      ++ container_values (fn_container func)
  | DCFunction cfunc => container_values (cf_container cfunc)
  | DGenerator gen =>
      (if negb (finished c) then
         [charly_create_pointer (gen_context_frame gen);
          charly_create_pointer (gen_boot_function gen);
          charly_create_pointer (gen_context_catchtable gen)]
         ++ (if gen_bound_self_set gen then [gen_bound_self gen] else [])
         ++ gen_context_stack gen
       else [])
      ++ container_values (gen_container gen)
  | DClass klass =>
      [cls_constructor klass; cls_prototype klass; cls_parent_class klass]
      ++ container_values (cls_container klass)
  | DFrame frame =>
      [charly_create_pointer (fr_parent frame);
       charly_create_pointer (fr_parent_environment_frame frame);
       charly_create_pointer (fr_last_active_catchtable frame);
       fr_caller_value frame; fr_self frame]
      ++ frame_locals (basic c) frame
  | DCatchTable table =>
      [charly_create_pointer (ct_frame table);
       charly_create_pointer (ct_parent table)]
  | DFree _ | DString _ | DCPointer _ => []
  end.

(** [GarbageCollector::mark] (the header field has the name [mark]).
    Each recursive call is made for a cell whose mark bit has just been
    set, so [fuel] bounds the recursion by the number of cells still
    unmarked. *)
Fixpoint GarbageCollector_mark (fuel : nat) (m : Memory) (value : VALUE) : option Memory :=
  if negb (charly_is_ptr value) then Some m
  else if charly_as_pointer value =? 0 then Some m
  else
    c ← charly_as_basic m value;
    if mark (basic c) then Some m
    else
      match fuel with
      | O => None
      | S fuel' =>
        foldl (fun acc child => m' ← acc; GarbageCollector_mark fuel' m' child)
              (Some (<[charly_as_pointer value := set_mark true c]> m))
              (mark_children c)
      end.

Definition mark_all (m : Memory) (values : list VALUE) : option Memory :=
  foldl (fun acc value => m' ← acc; GarbageCollector_mark (size m) m' value)
        (Some m) values.

Definition callback_roots (task : VMTask) : list VALUE :=
  let '(a0, a1, a2, a3) := task_callback_arguments task in
  [task_callback_func task; a0; a1; a2; a3].

Definition task_roots (task : VMTask) : list VALUE :=
  if task_is_thread task then [task_thread_argument task]
  else callback_roots task.

Definition thread_roots (thread : VMThread) : list VALUE :=
  thread_stack thread
  ++ [charly_create_pointer (thread_frame thread);
      charly_create_pointer (thread_catchstack thread)].

Definition worker_roots (worker : WorkerThread) : list VALUE :=
  (if worker_cfunc worker =? 0 then []
   else [charly_create_pointer (worker_cfunc worker)])
  ++ (if worker_callback worker =? 0 then []
      else [charly_create_pointer (worker_callback worker)])
  ++ [worker_error_value worker]
  ++ worker_arguments worker.

(** The values [collect] marks for a running machine, in order. *)
Definition vm_roots (v : VM) : list VALUE :=
  [charly_create_pointer (frames v); charly_create_pointer (catchstack v);
   uncaught_exception_handler v; internal_error_class v; globals v;
   primitive_array v; primitive_boolean v; primitive_class v;
   primitive_function v; primitive_generator v; primitive_null v;
   primitive_number v; primitive_object v; primitive_string v;
   primitive_value v]
  ++ stack v
  ++ pop_queue v
  ++ concat (map task_roots (task_queue v))
  ++ concat (map callback_roots (timers v))
  ++ concat (map callback_roots (tickers v))
  ++ concat (map thread_roots (paused_threads v))
  ++ concat (map worker_roots (worker_threads v)).

(** The root set of a collection. *)
Definition collect_roots (w : Machine) : list VALUE :=
  (if running (vm w) then vm_roots (vm w) else [])
  ++ temporaries (gc w).

(** The [while] loop over [pop_queue] leaves it empty. *)
Definition drain_pop_queue (v : VM) : VM :=
  mkVM (running v) (frames v) (catchstack v) (uncaught_exception_handler v)
       (internal_error_class v) (globals v) (primitive_array v)
       (primitive_boolean v) (primitive_class v) (primitive_function v)
       (primitive_generator v) (primitive_null v) (primitive_number v)
       (primitive_object v) (primitive_string v) (primitive_value v)
       (stack v) [] (task_queue v) (timers v) (tickers v)
       (paused_threads v) (worker_threads v).

(** The [clean] method the [switch] of [deallocate] calls for a cell. *)
Definition clean (c : MemoryCell) : list Effect :=
  match data c with
  | DObject obj => [DeleteContainer (obj_container obj)]
  | DArray arr => [DeleteVector (arr_data arr)]
  | DString str => if f1 (basic c) then [] else [FreeBuffer (lbuf_data str)]
  | DFunction func => [DeleteContainer (fn_container func)]
  | DCFunction cfunc => [DeleteContainer (cf_container cfunc)]
  | DGenerator gen =>
      [DeleteContainer (gen_container gen); DeleteVector (gen_context_stack gen)]
  | DClass klass =>
      [DeleteVector (cls_member_properties klass);
       DeleteContainer (cls_container klass)]
  | DCPointer ptr =>
      if cp_destructor ptr =? 0 then []
      else [CallDestructor (cp_destructor ptr) (cp_data ptr)]
  | DFrame frame =>
      if f1 (basic c) then []
      else match fr_lenv frame with
           | Some lenv => [DeleteVector lenv]
           | None => []
           end
  | DFree _ | DCatchTable _ => []
  end.

Section Collector.

(** Parameters: [sizeof(MemoryCell)], the distance between two cells of
    an arena ([MemoryCell] is declared in [gc.h]), and the base address
    [calloc] returns for a new arena, given the arenas there are. *)
Context (sizeof_MemoryCell : Z) (calloc : list Z -> Z).

(** The cells [heap + i] of one arena, for [i] below [heap_cell_count]. *)
Definition heap_cells (count : Z) (heap : Z) : list Z :=
  map (fun i => heap + Z.of_nat i * sizeof_MemoryCell) (seq 0 (Z.to_nat count)).

(** All cells in the order the sweep visits them. *)
Definition cell_addresses (g : GarbageCollector) : list Z :=
  concat (map (heap_cells (heap_cell_count (config g))) (heaps g)).

(** [GarbageCollector::deallocate]. *)
Definition deallocate (w : Machine) (cell : Z) : option Machine :=
  c ← charly_as_basic (memory w) (charly_create_pointer cell);
  let g := gc w in
  Some (mkMachine
          (<[cell := mkCell zero_basic (DFree (free_cell g))]> (memory w))
          (mkGC (config g) (heaps g) cell
                (u64 (remaining_free_cells g + 1)) (temporaries g))
          (vm w)
          (effects w ++ clean c)).

(** One iteration of the sweep loop; the number is [freed_cells_count]. *)
Definition sweep_cell (acc : option (Machine * Z)) (cell : Z) : option (Machine * Z) :=
  '(w, freed_cells_count) ← acc;
  let value := charly_create_pointer cell in
  c ← charly_as_basic (memory w) value;
  if mark (basic c) then
    Some (set_memory (<[charly_as_pointer value := set_mark false c]> (memory w)) w,
          freed_cells_count)
  else
    dead ← charly_is_dead (memory w) value;
    if negb dead then
      w' ← deallocate w cell; Some (w', freed_cells_count + 1)
    else Some (w, freed_cells_count).

(** [GarbageCollector::collect]; the number returned is the
    [freed_cells_count] of the sweep. *)
Definition collect (w : Machine) : option (Machine * Z) :=
  m ← mark_all (memory w) (collect_roots w);
  let v := if running (vm w) then drain_pop_queue (vm w) else vm w in
  foldl sweep_cell (Some (mkMachine m (gc w) v (effects w), 0))
        (cell_addresses (gc w)).

(** [GarbageCollector::add_heap]: the new arena is zeroed, so each of its
    cells is a dead cell; the loop links them in front of the freelist.
    The result of [calloc] is not checked: when it is null, the first
    pass of the loop writes [heap[0].free.next] through the null arena,
    which has no result.  An arena without cells is never written to. *)
Definition add_heap (w : Machine) : option Machine :=
  let g := gc w in
  let heap := calloc (heaps g) in
  if (heap =? 0) && (0 <? heap_cell_count (config g)) then None
  else
    let linked :=
      foldl (fun '(m, last_cell) cell =>
               (<[cell := mkCell zero_basic (DFree last_cell)]> m, cell))
            (memory w, free_cell g)
            (heap_cells (heap_cell_count (config g)) heap) in
    Some (mkMachine linked.1
                    (mkGC (config g) (heaps g ++ [heap]) linked.2
                          (u64 (remaining_free_cells g + heap_cell_count (config g)))
                          (temporaries g))
                    (vm w) (effects w)).

(** The loop [while (heaps_to_add--) this->add_heap()]. *)
Fixpoint add_heaps (heaps_to_add : nat) (w : Machine) : option Machine :=
  match heaps_to_add with
  | O => Some w
  | S heaps_to_add' => w' ← add_heap w; add_heaps heaps_to_add' w'
  end.

(** [GarbageCollector::grow_heap]. *)
Definition grow_heap (w : Machine) : option Machine :=
  let heap_count := Z.of_nat (length (heaps (gc w))) in
  let heaps_to_add :=
    u64 ((heap_count * heap_growth_factor (config (gc w)) + 1) - heap_count) in
  add_heaps (Z.to_nat heaps_to_add) w.

(** The line written to the error stream: Failed to expand heap, the next
    allocation will cause a segfault. *)
Definition failed_to_expand : list Z :=
  [70; 97; 105; 108; 101; 100; 32; 116; 111; 32; 101; 120; 112; 97; 110;
   100; 32; 104; 101; 97; 112; 44; 32; 116; 104; 101; 32; 110; 101; 120;
   116; 32; 97; 108; 108; 111; 99; 97; 116; 105; 111; 110; 32; 119; 105;
   108; 108; 32; 99; 97; 117; 115; 101; 32; 97; 32; 115; 101; 103; 102; 97;
   117; 108; 116; 46; 10].

(** [this->free_cell = next]. *)
Definition set_free_cell (next : Z) (w : Machine) : Machine :=
  let g := gc w in
  set_gc (mkGC (config g) (heaps g) next (remaining_free_cells g) (temporaries g)) w.

(** [this->remaining_free_cells--]. *)
Definition count_allocation (w : Machine) : Machine :=
  let g := gc w in
  set_gc (mkGC (config g) (heaps g) (free_cell g)
               (u64 (remaining_free_cells g - 1)) (temporaries g)) w.

(** The branch of [allocate] taken when the freelist has run empty or the
    counter is at the threshold. *)
Definition collect_and_grow (w : Machine) : option Machine :=
  '(w', _) ← collect w;
  if free_cell (gc w') =? 0 then
    w'' ← grow_heap w';
    if free_cell (gc w'') =? 0
    then Some (add_effects [ErrStream failed_to_expand] w'')
    else Some w''
  else Some w'.

(** [GarbageCollector::allocate].  Reading [free_cell->free.next] through
    a null [free_cell] has no result. *)
Definition allocate (w : Machine) : option (Z * Machine) :=
  let cell := free_cell (gc w) in
  if cell =? 0 then None
  else
    c ← memory w !! cell;
    next ← match data c with DFree next => Some next | _ => None end;
    let w1 := set_free_cell next w in
    w2 ← (if (next =? 0)
             || (remaining_free_cells (gc w1) <=? min_free_cells (config (gc w1)))
          then collect_and_grow w1
          else Some w1);
    Some (cell, count_allocation w2).

End Collector.

(** ** Reachability and the shape of the heap *)

(** [value] is a pointer to the cell at [a]; [mark] ignores anything else. *)
Definition points_to (value : VALUE) (a : Z) : Prop :=
  charly_is_ptr value = true /\ charly_as_pointer value = a /\ a <> 0.

(** The cells [mark] can come to from a list of root values. *)
Inductive reachable (m : Memory) (roots : list VALUE) : Z -> Prop :=
| reach_root value a :
    value ∈ roots -> points_to value a -> reachable m roots a
| reach_child a c value b :
    reachable m roots a -> m !! a = Some c ->
    value ∈ mark_children c -> points_to value b ->
    reachable m roots b.

Definition marked (m : Memory) (a : Z) : Prop :=
  exists c, m !! a = Some c /\ mark (basic c) = true.

Definition unmarked_count (m : Memory) : nat :=
  size (filter (fun kc : Z * MemoryCell => mark (basic kc.2) = false) m).

(** A pointer value refers to a cell that is there. *)
Definition ptr_ok (m : Memory) (value : VALUE) : Prop :=
  forall a, points_to value a -> is_Some (m !! a).

(** Every pointer stored in a cell refers to a cell. *)
Definition closed (m : Memory) : Prop :=
  forall a c value, m !! a = Some c -> value ∈ mark_children c -> ptr_ok m value.

(** [m'] is [m] with the mark bit set on some more cells. *)
Definition marks_extend (m m' : Memory) : Prop :=
  forall a,
    match m !! a with
    | Some c => m' !! a = Some c \/ m' !! a = Some (set_mark true c)
    | None => m' !! a = None
    end.

(** Every cell the cell at [a] points to is marked. *)
Definition children_marked (m : Memory) (a : Z) : Prop :=
  forall c child b,
    m !! a = Some c -> child ∈ mark_children c -> points_to child b -> marked m b.

(** The freelist from [p]: the dead cells linked through [free.next]. *)
Inductive freelist (m : Memory) : Z -> list Z -> Prop :=
| freelist_end : freelist m 0 []
| freelist_cell p c next rest :
    p <> 0 -> m !! p = Some c -> data c = DFree next ->
    freelist m next rest -> freelist m p (p :: rest).

(** What marking the values [values] in [m] has to give: more marks only,
    every cell the values point to marked, and every newly marked cell
    reachable from them with all the cells it points to marked as well. *)
Definition mark_post (m : Memory) (values : list VALUE) (m' : Memory) : Prop :=
  marks_extend m m' /\
  (forall value a, value ∈ values -> points_to value a -> marked m' a) /\
  (forall a, marked m' a -> ~ marked m a ->
             reachable m values a /\ children_marked m' a).

(** ** What a collection has to establish *)

(** The collector's counters after [deallocate] of [cell]. *)
Definition gc_after_free (g : GarbageCollector) (cell : Z) : GarbageCollector :=
  mkGC (config g) (heaps g) cell (u64 (remaining_free_cells g + 1)) (temporaries g).

(** The sweep frees a cell that is neither marked nor dead. *)
Definition to_free (m : Memory) (a : Z) : bool :=
  match m !! a with
  | Some c => negb (mark (basic c)) && negb (cell_type c =? kTypeDead)
  | None => false
  end.

Definition freed_cells (m : Memory) (cells : list Z) : list Z :=
  List.filter (to_free m) cells.

Definition clean_at (m : Memory) (a : Z) : list Effect :=
  from_option clean [] (m !! a).

(** A heap the collector can work on: the arenas do not overlap, the
    memory holds exactly their cells, at addresses a pointer value can
    carry, no mark bit is left set, and every pointer in a cell or in
    the root set refers to a cell. *)
Record heap_ok (sizeof_MemoryCell : Z) (w : Machine) : Prop := mkHeapOk {
  ok_nodup : NoDup (cell_addresses sizeof_MemoryCell (gc w));
  ok_cells : forall a,
    a ∈ cell_addresses sizeof_MemoryCell (gc w) <-> is_Some (memory w !! a);
  ok_range : forall a,
    a ∈ cell_addresses sizeof_MemoryCell (gc w) -> 0 < a <= kMaxPointer;
  ok_unmarked : forall a c, memory w !! a = Some c -> mark (basic c) = false;
  ok_closed : closed (memory w);
  ok_roots : Forall (ptr_ok (memory w)) (collect_roots w) }.


(** What the sweep leaves in place of the cell [c]. *)
Definition swept (c c' : MemoryCell) : Prop :=
  if mark (basic c) then c' = set_mark false c
  else if cell_type c =? kTypeDead then c' = c
  else exists next, c' = mkCell zero_basic (DFree next).

(** ** Small machines for the examples *)

Definition example_sizeof : Z := 128.

(** Arenas of the examples are handed out 4096 bytes apart. *)
Definition example_calloc (heaps : list Z) : Z :=
  4096 * (Z.of_nat (length heaps) + 1).

(** An interpreter that holds nothing but [queue] in its pop queue. *)
Definition example_vm (queue : list VALUE) : VM :=
  mkVM true 0 0 kNull kNull kNull kNull kNull kNull kNull kNull kNull kNull
       kNull kNull kNull [] queue [] [] [] [] [].

Definition example_string : MemoryCell :=
  mkCell (mkBasic true false false)
         (DString (mkString 0 [] 2 [104; 105])).

Definition dead_cell (next : Z) : MemoryCell := mkCell zero_basic (DFree next).

(** One arena of two cells: a string at 4096 and a dead cell at 4224,
    which is the whole freelist.  The string is referred to from the pop
    queue and from nowhere else. *)
Definition queue_machine : Machine :=
  mkMachine (<[4096 := example_string]> (<[4224 := dead_cell 0]> ∅))
            (mkGC (mkConfig 2 2 0 false) [4096] 4224 1 [])
            (example_vm [charly_create_pointer 4096])
            [].

(** The same heap with the string pinned as a temporary instead. *)
Definition pinned_machine : Machine :=
  mkMachine (<[4096 := example_string]> (<[4224 := dead_cell 0]> ∅))
            (mkGC (mkConfig 2 2 0 false) [4096] 4224 1 [charly_create_pointer 4096])
            (example_vm [])
            [].

(** One arena of one cell, which is free, and a growth factor under
    which [grow_heap] adds no arena to a heap of one arena. *)
Definition last_cell_machine : Machine :=
  mkMachine (<[4096 := dead_cell 0]> ∅)
            (mkGC (mkConfig 1 0 0 false) [4096] 4096 1 [])
            (example_vm [])
            [].

(** The doubles 7.0, 2.0 and 1.0, and an [fmod] for the examples that is
    known at 7.0 and 2.0 only, where it is 1.0. *)
Definition fp_seven : Z := 0x401C000000000000.
Definition fp_two : Z := 0x4000000000000000.
Definition fp_one : Z := 0x3FF0000000000000.

Definition example_fmod (x y : Z) : Z :=
  if (x =? fp_seven) && (y =? fp_two) then fp_one else kNaN.

(** A finished generator at address 4096. *)
Definition finished_generator_memory : Memory :=
  <[4096 := mkCell (mkBasic true true false)
                   (DGenerator (mkGenerator kNull 0 0 0 [] 0 false false false kNull ∅))]> ∅.

(** A class at 4096 whose prototype object at 4224 holds symbol 1, with a
    parent class at 4352 whose prototype object at 4480 holds symbols 1
    and 2. *)
Definition class_memory : Memory :=
  <[4096 := mkCell zero_basic
              (DClass (mkClass kNull kNull [] (charly_create_pointer 4224)
                               (charly_create_pointer 4352) ∅))]>
  (<[4224 := mkCell zero_basic
               (DObject (mkObject kNull (<[1 := charly_create_integer 10]> ∅)))]>
  (<[4352 := mkCell zero_basic
               (DClass (mkClass kNull kNull [] (charly_create_pointer 4480) kNull ∅))]>
  (<[4480 := mkCell zero_basic
               (DObject (mkObject kNull (<[1 := charly_create_integer 20]>
                                         (<[2 := charly_create_integer 30]> ∅))))]>
   ∅))).

(** The same two classes, but the class at 4096 has no prototype object. *)
Definition class_memory_no_prototype : Memory :=
  <[4096 := mkCell zero_basic
              (DClass (mkClass kNull kNull [] kNull (charly_create_pointer 4352) ∅))]>
  class_memory.

Definition example_cfunction : CFunction :=
  mkCFunction kNull 4198400 2 ∅ kThreadMain true false.

(** ** More of value.h: types, conversions and operators *)

(** Conversions of a 64-bit integer to the narrower integer types. *)
Definition u32 (x : Z) : Z := x mod 2 ^ 32.
Definition s32 (x : Z) : Z :=
  let r := x mod 2 ^ 32 in if r <? 2 ^ 31 then r else r - 2 ^ 32.
Definition s8 (x : Z) : Z :=
  let r := x mod 2 ^ 8 in if r <? 2 ^ 7 then r else r - 2 ^ 8.

Definition charly_is_cfunction (m : Memory) (value : VALUE) : option bool :=
  charly_is_heap_type m value kTypeCFunction.

(** [a || b || c]: the heap is only looked at for a value that is not an
    immediate string. *)
Definition charly_is_string (m : Memory) (value : VALUE) : option bool :=
  if charly_is_istring value || charly_is_pstring value then Some true
  else charly_is_hstring m value.

(** [charly_get_type]. *)
Definition charly_get_type (m : Memory) (value : VALUE) : option Z :=
  if charly_is_on_heap value then c ← charly_as_basic m value; Some (cell_type c)
  else if charly_is_float value then Some kTypeNumber
  else if charly_is_int value then Some kTypeNumber
  else if charly_is_null value then Some kTypeNull
  else if charly_is_pstring value || charly_is_istring value then Some kTypeString
  else if charly_is_boolean value then Some kTypeBoolean
  else if charly_is_symbol value then Some kTypeSymbol
  else Some kTypeUnknown.

Definition charly_int_to_int32 (value : VALUE) : Z := s32 (charly_int_to_int64 value).
Definition charly_int_to_int8 (value : VALUE) : Z := s8 (charly_int_to_int64 value).

(** [-d], [a < b] and [a <= b] on doubles.  The order of two doubles that
    are not NaN is the order of their sign-and-magnitude words. *)
Definition fp_neg (d : Z) : Z := Z.lxor d kMaskSignBit.

Definition fp_key (d : Z) : Z :=
  if fp_negative d then - (d - 2 ^ 63) else d.

Definition fp_lt (a b : Z) : bool :=
  if fp_is_nan a || fp_is_nan b then false else fp_key a <? fp_key b.

Definition fp_le (a b : Z) : bool :=
  if fp_is_nan a || fp_is_nan b then false else fp_key a <=? fp_key b.

(** [(T)d] for a double [d] and a signed integer type [T] of [bits] bits:
    truncation toward zero, without a result when the truncated value
    does not fit (and for a NaN or an infinity). *)
Definition fp_to_int (bits : Z) (d : Z) : option Z :=
  if fp_is_finite d
     && (- 2 ^ (bits - 1) <=? fp_trunc d) && (fp_trunc d <? 2 ^ (bits - 1))
  then Some (fp_trunc d) else None.

(** [charly_create_number(uint64_t)]; the conversion of a non-negative
    integer to double is the one of [int64_to_double]. *)
Definition charly_create_number_uint64 (value : Z) : VALUE :=
  if kMaxUInt <=? value then charly_create_double (int64_to_double value)
  else charly_create_integer value.

(** [charly_create_number(int32_t)]. *)
Definition charly_create_number_int32 (value : Z) : VALUE :=
  charly_create_integer value.

Section Conversions.

(** Parameters: the macros [FP_STRIP_NAN] and [FP_STRIP_INF] of
    [defines.h], on bit patterns. *)
Context (FP_STRIP_NAN FP_STRIP_INF : Z -> Z).

Definition charly_double_to_safe_double (value : VALUE) : Z :=
  FP_STRIP_INF (FP_STRIP_NAN value).

Definition charly_double_to_int64 (value : VALUE) : option Z :=
  fp_to_int 64 (charly_double_to_safe_double value).

Definition charly_double_to_int32 (value : VALUE) : option Z :=
  fp_to_int 32 (charly_double_to_safe_double value).

Definition charly_number_to_int64 (value : VALUE) : option Z :=
  if charly_is_float value then charly_double_to_int64 value
  else Some (charly_int_to_int64 value).

Definition charly_number_to_int32 (value : VALUE) : option Z :=
  if charly_is_float value then charly_double_to_int32 value
  else Some (charly_int_to_int32 value).

(** Bitwise operators. *)
Definition charly_and_number (left right : VALUE) : option VALUE :=
  num ← charly_number_to_int32 left;
  amount ← charly_number_to_int32 right;
  Some (charly_create_number_int32 (Z.land num amount)).

Definition charly_or_number (left right : VALUE) : option VALUE :=
  num ← charly_number_to_int32 left;
  amount ← charly_number_to_int32 right;
  Some (charly_create_number_int32 (Z.lor num amount)).

Definition charly_xor_number (left right : VALUE) : option VALUE :=
  num ← charly_number_to_int32 left;
  amount ← charly_number_to_int32 right;
  Some (charly_create_number_int32 (Z.lxor num amount)).

Definition charly_ubnot_number (value : VALUE) : option VALUE :=
  if charly_is_int value
  then Some (charly_create_number_int32 (Z.lnot (charly_int_to_int32 value)))
  else d ← charly_double_to_int32 value; Some (charly_create_integer (Z.lnot d)).

(** The number primitives [to_float], [to_int] and [is_float]
    (namespace [PrimitiveNumber]).  Parameter: the macro
    [CHECK(number, value)] of [internals.h]; it either lets the body run
    ([None]) or returns a result of its own. *)
Context (CHECK_number : VALUE -> option VALUE).

Definition PrimitiveNumber_to_float (value : VALUE) : option VALUE :=
  match CHECK_number value with
  | Some result => Some result
  | None => Some (charly_create_double (charly_number_to_double value))
  end.

Definition PrimitiveNumber_to_int (value : VALUE) : option VALUE :=
  match CHECK_number value with
  | Some result => Some result
  | None => i ← charly_number_to_int64 value; Some (charly_create_integer i)
  end.

Definition PrimitiveNumber_is_float (value : VALUE) : option VALUE :=
  match CHECK_number value with
  | Some result => Some result
  | None => Some (if charly_is_float value then kTrue else kFalse)
  end.

End Conversions.

Section Operators.

(** Parameters: [/] and [std::pow] on doubles and the macro
    [FP_ARE_EQUAL] of [defines.h], on bit patterns. *)
Context (fp_div fp_pow : Z -> Z -> Z) (FP_ARE_EQUAL : Z -> Z -> bool).

Definition charly_div_number (left right : VALUE) : VALUE :=
  charly_create_number_double
    (fp_div (charly_number_to_double left) (charly_number_to_double right)).

(** [std::pow] of two integers converts both to double. *)
Definition charly_pow_number (left right : VALUE) : VALUE :=
  if charly_is_int left && charly_is_int right then
    charly_create_number_double
      (fp_pow (int64_to_double (charly_int_to_int64 left))
              (int64_to_double (charly_int_to_int64 right)))
  else
    charly_create_number_double
      (fp_pow (charly_number_to_double left) (charly_number_to_double right)).

Definition charly_lt_number (left right : VALUE) : VALUE :=
  if charly_is_int left && charly_is_int right then
    if charly_int_to_int64 left <? charly_int_to_int64 right then kTrue else kFalse
  else
    if fp_lt (charly_number_to_double left) (charly_number_to_double right)
    then kTrue else kFalse.

Definition charly_gt_number (left right : VALUE) : VALUE :=
  if charly_is_int left && charly_is_int right then
    if charly_int_to_int64 left >? charly_int_to_int64 right then kTrue else kFalse
  else
    if fp_lt (charly_number_to_double right) (charly_number_to_double left)
    then kTrue else kFalse.

Definition charly_le_number (left right : VALUE) : VALUE :=
  if charly_is_int left && charly_is_int right then
    if charly_int_to_int64 left <=? charly_int_to_int64 right then kTrue else kFalse
  else
    if fp_le (charly_number_to_double left) (charly_number_to_double right)
    then kTrue else kFalse.

Definition charly_ge_number (left right : VALUE) : VALUE :=
  if charly_is_int left && charly_is_int right then
    if charly_int_to_int64 left >=? charly_int_to_int64 right then kTrue else kFalse
  else
    if fp_le (charly_number_to_double right) (charly_number_to_double left)
    then kTrue else kFalse.

Definition charly_eq_number (left right : VALUE) : VALUE :=
  if charly_is_int left && charly_is_int right then
    if charly_int_to_int64 left =? charly_int_to_int64 right then kTrue else kFalse
  else
    if FP_ARE_EQUAL (charly_number_to_double left) (charly_number_to_double right)
    then kTrue else kFalse.

Definition charly_neq_number (left right : VALUE) : VALUE :=
  if charly_is_int left && charly_is_int right then
    if negb (charly_int_to_int64 left =? charly_int_to_int64 right) then kTrue else kFalse
  else
    if FP_ARE_EQUAL (charly_number_to_double left) (charly_number_to_double right)
    then kFalse else kTrue.

End Operators.

(** Unary operators. *)
Definition charly_uadd_number (value : VALUE) : VALUE := value.

Definition charly_usub_number (value : VALUE) : VALUE :=
  if charly_is_int value
  then charly_create_number_int64 (s64 (- charly_int_to_int64 value))
  else charly_create_double (fp_neg (charly_double_to_double value)).

Definition charly_unot_number (value : VALUE) : VALUE :=
  if charly_is_int value
  then (if charly_int_to_int8 value =? 0 then kTrue else kFalse)
  else (if fp_eq (charly_double_to_double value) fp_pos_zero then kTrue else kFalse).

(** A result that is the integer-tagged value of [x]. *)
Definition returns_int (result : option VALUE) (x : Z) : Prop :=
  exists v, result = Some v /\ charly_is_int v = true /\ charly_int_to_int64 v = x.

(** What a 64-bit integer becomes when it is cut to the 48-bit payload
    and read back. *)
Definition wrap48 (x : Z) : Z := (x + 2 ^ 47) mod 2 ^ 48 - 2 ^ 47.

(** ** More of value.h: operations on immediate strings *)

(** Where the pointer returned by [charly_string_data] points to: into
    the buffer of a heap string, [offset] bytes into the value itself,
    or nowhere. *)
Inductive StringData :=
| InString (s : Basic * String)
| InValue (offset : nat)
| NullData.

(** [charly_string_data], as the pointer it returns. *)
Definition charly_string_data_ptr (big_endian : bool) (m : Memory) (value : VALUE)
  : option StringData :=
  h ← charly_is_hstring m value;
  if (h : bool) then
    s ← string_at m (charly_as_pointer value); Some (InString s)
  else if negb big_endian then Some (InValue 0)
  else if charly_is_pstring value then Some (InValue 2)
  else if charly_is_istring value then Some (InValue 3)
  else Some NullData.

(** [charly_istring_length_field]: the index of the length byte. *)
Definition charly_istring_length_field (big_endian : bool) : nat :=
  if big_endian then 2%nat else 5%nat.

(** [std::memcpy(buf + offset, src, n)] for a buffer [buf]: the first [n]
    bytes of [src] replace the [n] bytes from [offset]; there is no
    result when [src] is shorter than [n] or the bytes do not lie inside
    the buffer. *)
Definition memcpy (buf : list Z) (offset : nat) (src : list Z) (n : nat)
  : option (list Z) :=
  if (n <=? length src)%nat && (offset + n <=? length buf)%nat
  then Some (take offset buf ++ take n src ++ drop (offset + n) buf)
  else None.

(** The source of a [memcpy]: the bytes [charly_string_data] points to;
    there is no result for a null pointer. *)
Definition string_source (big_endian : bool) (m : Memory) (value : VALUE)
  : option (list Z) :=
  data ← charly_string_data big_endian m value; data.

(** [charly_string_concat_into_packed]. *)
Definition charly_string_concat_into_packed (big_endian : bool) (m : Memory)
    (left right : VALUE) : option VALUE :=
  let result := kSignaturePString in
  p ← charly_string_data_ptr big_endian m result;
  match p with
  | InValue buf =>
    left_length ← charly_string_length big_endian m left;
    ldata ← string_source big_endian m left;
    b1 ← memcpy (word_bytes big_endian result) buf ldata (Z.to_nat left_length);
    rdata ← string_source big_endian m right;
    b2 ← memcpy b1 (buf + Z.to_nat left_length) rdata
                (Z.to_nat (u32 (6 - left_length)));
    Some (bytes_word big_endian b2)
  | _ => None
  end.

(** [charly_string_concat_into_immediate]; the length byte takes the sum
    of the lengths cut to eight bits. *)
Definition charly_string_concat_into_immediate (big_endian : bool) (m : Memory)
    (left right : VALUE) : option VALUE :=
  let result := kSignatureIString in
  p ← charly_string_data_ptr big_endian m result;
  match p with
  | InValue buf =>
    left_length ← charly_string_length big_endian m left;
    right_length ← charly_string_length big_endian m right;
    ldata ← string_source big_endian m left;
    b1 ← memcpy (word_bytes big_endian result) buf ldata (Z.to_nat left_length);
    rdata ← string_source big_endian m right;
    b2 ← memcpy b1 (buf + Z.to_nat left_length) rdata (Z.to_nat right_length);
    Some (bytes_word big_endian
            (<[charly_istring_length_field big_endian
               := u32 (left_length + right_length) mod 256]> b2))
  | _ => None
  end.

(** The loop [while (amount--)] of the two multiplications: [amount]
    copies of the string, one behind the other; the number is [offset]. *)
Fixpoint string_mul_loop (amount : nat) (b : list Z) (buf : nat)
    (str_data : list Z) (str_length : Z) (offset : Z) : option (list Z * Z) :=
  match amount with
  | O => Some (b, offset)
  | S amount' =>
    b' ← memcpy b (buf + Z.to_nat offset) str_data (Z.to_nat str_length);
    string_mul_loop amount' b' buf str_data str_length (u32 (offset + str_length))
  end.

(** [charly_string_mul_into_packed].  A negative [amount] never reaches
    zero by counting down, so the loop has no result for it. *)
Definition charly_string_mul_into_packed (big_endian : bool) (m : Memory)
    (left : VALUE) (amount : Z) : option VALUE :=
  let result := kSignaturePString in
  p ← charly_string_data_ptr big_endian m result;
  match p with
  | InValue buf =>
    str_data ← string_source big_endian m left;
    str_length ← charly_string_length big_endian m left;
    if amount <? 0 then None
    else
      '(b, _) ← string_mul_loop (Z.to_nat amount) (word_bytes big_endian result)
                                buf str_data str_length 0;
      Some (bytes_word big_endian b)
  | _ => None
  end.

(** [charly_string_mul_into_immediate]. *)
Definition charly_string_mul_into_immediate (big_endian : bool) (m : Memory)
    (left : VALUE) (amount : Z) : option VALUE :=
  let result := kSignatureIString in
  p ← charly_string_data_ptr big_endian m result;
  match p with
  | InValue buf =>
    str_data ← string_source big_endian m left;
    str_length ← charly_string_length big_endian m left;
    if amount <? 0 then None
    else
      '(b, offset) ← string_mul_loop (Z.to_nat amount) (word_bytes big_endian result)
                                     buf str_data str_length 0;
      Some (bytes_word big_endian
              (<[charly_istring_length_field big_endian := offset mod 256]> b))
  | _ => None
  end.

(** The text not a string. *)
Definition not_a_string : list Z :=
  [110; 111; 116; 32; 97; 32; 115; 116; 114; 105; 110; 103].

(** [charly_string_std]: [std::string(data, length)] reads [length] bytes
    from [data]; there is no result when fewer are there to read. *)
Definition charly_string_std (big_endian : bool) (m : Memory) (value : VALUE)
  : option (list Z) :=
  data ← charly_string_data big_endian m value;
  length ← charly_string_length big_endian m value;
  match data with
  | None => Some not_a_string
  | Some bytes =>
    if (Z.to_nat length <=? List.length bytes)%nat
    then Some (take (Z.to_nat length) bytes)
    else None
  end.

(** [charly_create_empty_string]. *)
Definition charly_create_empty_string : VALUE := kSignatureIString.

(** Two immediate strings for the examples: ab and c, on a little-endian
    machine. *)
Definition example_istring_ab : VALUE :=
  default kNull (charly_create_istring false [97; 98] 2).
Definition example_istring_c : VALUE :=
  default kNull (charly_create_istring false [99] 1).

(** ** Symbols (namespace [CRC32] of value.h) *)

(** The template [f<c, k>]: [k] steps of the reflected CRC-32 shift. *)
Fixpoint crc_f (k : nat) (c : Z) : Z :=
  match k with
  | O => c
  | S k' =>
    crc_f k' (Z.lxor (if negb (Z.land c 1 =? 0) then 0xedb88320 else 0) (Z.shiftr c 1))
  end.

(** [crc_table]: the macros [CRCA] to [CRCI] list [f<x>::value] for
    [x = 0, ..., 255] in this order. *)
Definition crc_table : list Z := map (fun x => crc_f 8 (Z.of_nat x)) (seq 0 256).

(** [crc_table[index]]: an index outside the 256 entries has no entry. *)
Definition crc_table_entry (index : Z) : option Z :=
  if (0 <=? index) && (index <? 256) then crc_table !! Z.to_nat index else None.

(** [crc32_to_symbol]. *)
Definition crc32_to_symbol (value : Z) : VALUE :=
  Z.lor kSignatureSymbol (Z.land value kMaskSymbol).

(** The names of the types, as [charly_create_symbol] spells them:
    <dead>, <class>, <object>, <array>, <string>, <function>,
    <cfunction>, <generator>, <frame>, <catchtable>, <cpointer>,
    <number>, <boolean>, <null>, <symbol>, <unknown>. *)
Definition symbol_type_symbol_table : list (list Z) :=
  [[60; 100; 101; 97; 100; 62];
   [60; 99; 108; 97; 115; 115; 62];
   [60; 111; 98; 106; 101; 99; 116; 62];
   [60; 97; 114; 114; 97; 121; 62];
   [60; 115; 116; 114; 105; 110; 103; 62];
   [60; 102; 117; 110; 99; 116; 105; 111; 110; 62];
   [60; 99; 102; 117; 110; 99; 116; 105; 111; 110; 62];
   [60; 103; 101; 110; 101; 114; 97; 116; 111; 114; 62];
   [60; 102; 114; 97; 109; 101; 62];
   [60; 99; 97; 116; 99; 104; 116; 97; 98; 108; 101; 62];
   [60; 99; 112; 111; 105; 110; 116; 101; 114; 62];
   [60; 110; 117; 109; 98; 101; 114; 62];
   [60; 98; 111; 111; 108; 101; 97; 110; 62];
   [60; 110; 117; 108; 108; 62];
   [60; 115; 121; 109; 98; 111; 108; 62];
   [60; 117; 110; 107; 110; 111; 119; 110; 62]].

(** The texts true, false and null. *)
Definition text_true : list Z := [116; 114; 117; 101].
Definition text_false : list Z := [102; 97; 108; 115; 101].
Definition text_null : list Z := [110; 117; 108; 108].

Section Symbols.

(** Parameters: whether [char] is a signed type on the machine, and
    [std::to_string] for [int64_t] and for [double]. *)
Context (char_is_signed : bool).
Context (to_string_int64 to_string_double : Z -> list Z).

(** The value of a [char] that holds the byte [b]. *)
Definition char_value (b : Z) : Z :=
  if char_is_signed && (128 <=? b) then b - 256 else b.

(** [crc32_impl]: [*p] is converted to the unsigned type of
    [crc & 0xFF] before the exclusive or. *)
Fixpoint crc32_impl (p : list Z) (len : nat) (crc : Z) {struct len} : option Z :=
  match len with
  | O => Some crc
  | S len' =>
    match p with
    | [] => None
    | b :: p' =>
      entry ← crc_table_entry (Z.lxor (Z.land crc 0xFF) (u32 (char_value b)));
      crc32_impl p' len' (Z.lxor (Z.shiftr crc 8) entry)
    end
  end.

(** [crc32(data, length)]. *)
Definition crc32 (data : list Z) (length : nat) : option Z :=
  crc ← crc32_impl data length (u32 (Z.lnot 0)); Some (u32 (Z.lnot crc)).

(** [charly_create_symbol(const char* data, size_t length)]. *)
Definition charly_create_symbol_data (data : list Z) (length : nat) : option VALUE :=
  crc ← crc32 data length; Some (crc32_to_symbol crc).

(** [charly_create_symbol(const std::string& input)] and [SYM]. *)
Definition charly_create_symbol_string (input : list Z) : option VALUE :=
  charly_create_symbol_data input (length input).

(** [charly_create_symbol(VALUE value)]. *)
Definition charly_create_symbol (big_endian : bool) (m : Memory) (value : VALUE)
  : option VALUE :=
  type ← charly_get_type m value;
  if type =? kTypeString then
    str_data ← string_source big_endian m value;
    str_length ← charly_string_length big_endian m value;
    charly_create_symbol_data str_data (Z.to_nat str_length)
  else if type =? kTypeNumber then
    if charly_is_float value
    then charly_create_symbol_string (to_string_double (charly_double_to_double value))
    else charly_create_symbol_string (to_string_int64 (charly_int_to_int64 value))
  else if type =? kTypeBoolean then
    charly_create_symbol_string (if value =? kTrue then text_true else text_false)
  else if type =? kTypeNull then charly_create_symbol_string text_null
  else if type =? kTypeSymbol then Some value
  else
    symbol ← symbol_type_symbol_table !! Z.to_nat type;
    charly_create_symbol_string symbol.

End Symbols.

(** ** Constructor lookup *)

(** The loop [while (charly_is_class(search_class))] that
    [charly_find_super_constructor] and [charly_find_constructor] share;
    [fuel] bounds the number of classes it visits. *)
Fixpoint find_constructor_loop (fuel : nat) (m : Memory) (search_class : VALUE)
  : option VALUE :=
  match fuel with
  | O => None
  | S fuel' =>
    iscls ← charly_is_class m search_class;
    if (iscls : bool) then
      klass ← charly_as_class m search_class;
      isfn ← charly_is_function m (cls_constructor klass);
      if (isfn : bool) then Some (cls_constructor klass)
      else find_constructor_loop fuel' m (cls_parent_class klass)
    else Some kNull
  end.

(** [charly_find_super_constructor]. *)
Definition charly_find_super_constructor (fuel : nat) (m : Memory) (base : Z)
  : option VALUE :=
  b ← class_at m base;
  iscls ← charly_is_class m (cls_parent_class b);
  if negb iscls then Some kNull
  else find_constructor_loop fuel m (cls_parent_class b).

(** [charly_find_constructor]. *)
Definition charly_find_constructor (fuel : nat) (m : Memory) (base : Z)
  : option VALUE :=
  find_constructor_loop fuel m (charly_create_pointer base).

(** The constructors of the classes from the value [v] along
    [parent_class], up to the first value that is not a class. *)
Inductive constructor_chain (m : Memory) : VALUE -> list VALUE -> Prop :=
| constructors_end v :
    charly_is_class m v = Some false -> constructor_chain m v []
| constructors_class v k rest :
    charly_is_class m v = Some true ->
    charly_as_class m v = Some k ->
    constructor_chain m (cls_parent_class k) rest ->
    constructor_chain m v (cls_constructor k :: rest).

(** The first constructor of a chain that is a function, [kNull] when
    there is none; no result when a constructor is a pointer to a cell
    that is not there. *)
Fixpoint first_function (m : Memory) (constructors : list VALUE) : option VALUE :=
  match constructors with
  | [] => Some kNull
  | c :: rest =>
    isfn ← charly_is_function m c;
    if (isfn : bool) then Some c else first_function m rest
  end.

(** ** Local variables of a frame *)

(** [Frame::read_local]; [index] is unsigned, and no overflow check is
    made, so an index outside the array or the vector has no result. *)
Definition Frame_read_local (b : Basic) (f : Frame) (index : Z) : option VALUE :=
  if f1 b then fr_senv_data f !! Z.to_nat index
  else lenv ← fr_lenv f; lenv !! Z.to_nat index.

Definition set_senv_data (data : list VALUE) (f : Frame) : Frame :=
  mkFrame (fr_parent f) (fr_parent_environment_frame f)
          (fr_last_active_catchtable f) (fr_caller_value f)
          (fr_stacksize_at_entry f) (fr_lenv f) data (fr_senv_lvarcount f)
          (fr_self f) (fr_origin_address f) (fr_return_address f).

Definition set_lenv (lenv : list VALUE) (f : Frame) : Frame :=
  mkFrame (fr_parent f) (fr_parent_environment_frame f)
          (fr_last_active_catchtable f) (fr_caller_value f)
          (fr_stacksize_at_entry f) (Some lenv) (fr_senv_data f)
          (fr_senv_lvarcount f)
          (fr_self f) (fr_origin_address f) (fr_return_address f).

(** [Frame::write_local]. *)
Definition Frame_write_local (b : Basic) (f : Frame) (index : Z) (value : VALUE)
  : option Frame :=
  if f1 b then
    if (Z.to_nat index <? length (fr_senv_data f))%nat
    then Some (set_senv_data (<[Z.to_nat index := value]> (fr_senv_data f)) f)
    else None
  else
    lenv ← fr_lenv f;
    if (Z.to_nat index <? length lenv)%nat
    then Some (set_lenv (<[Z.to_nat index := value]> lenv) f)
    else None.

(** [Frame::lvarcount]. *)
Definition Frame_lvarcount (b : Basic) (f : Frame) : Z :=
  if f1 b then fr_senv_lvarcount f
  else match fr_lenv f with
       | Some lenv => Z.of_nat (length lenv)
       | None => 0
       end.

(** ** More of the collector (gc.cpp) *)

Definition set_temporaries (t : list VALUE) (w : Machine) : Machine :=
  let g := gc w in
  set_gc (mkGC (config g) (heaps g) (free_cell g) (remaining_free_cells g) t) w.

(** [GarbageCollector::mark_persistent]: [temporaries] is a set, so
    inserting a value that is there changes nothing. *)
Definition mark_persistent (value : VALUE) (w : Machine) : Machine :=
  if decide (value ∈ temporaries (gc w)) then w
  else set_temporaries (temporaries (gc w) ++ [value]) w.

(** [GarbageCollector::unmark_persistent]. *)
Definition unmark_persistent (value : VALUE) (w : Machine) : Machine :=
  if decide (value ∈ temporaries (gc w))
  then set_temporaries (List.filter (fun t => negb (t =? value)) (temporaries (gc w))) w
  else w.


(** ** Instruction profile (vm.h) *)

Record VMInstructionProfileEntry := mkProfileEntry {
  encountered : Z;
  average_length : Z }.

(** [VMInstructionProfile::add_entry] on the array of entries; the
    arithmetic is that of [uint64_t], and a division by zero has no
    result. *)
Definition add_entry (entries : list VMInstructionProfileEntry) (opcode : Z)
    (length : Z) : option (list VMInstructionProfileEntry) :=
  entry ← (if opcode <? 0 then None else entries !! Z.to_nat opcode);
  let divisor := u64 (encountered entry + 1) in
  if divisor =? 0 then None
  else
    let average :=
      u64 (u64 (average_length entry * encountered entry) + length) / divisor in
    Some (<[Z.to_nat opcode :=
              mkProfileEntry (u64 (encountered entry + 1)) average]> entries).

(** The classes of [class_memory], where the parent class at 4352 has
    the function at 4608 as its constructor. *)
Definition constructor_memory : Memory :=
  <[4352 := mkCell zero_basic
              (DClass (mkClass kNull (charly_create_pointer 4608) []
                               (charly_create_pointer 4480) kNull ∅))]>
  (<[4608 := mkCell zero_basic
               (DFunction (mkFunction kNull 0 0 0 0 0 false kNull kNull ∅))]>
   class_memory).

(** [charly_create_istring(const std::string& input)]: the buffer of
    [input.c_str()] ends with a zero byte, and [input.size()] is passed
    on as a [uint8_t]. *)
Definition charly_create_istring_string (big_endian : bool) (input : list Z)
  : option VALUE :=
  charly_create_istring big_endian (input ++ [0]) (Z.of_nat (length input) mod 256).

(** The counter [remaining_free_cells] counts the cells of the freelist
    (as a [size_t]). *)
Definition free_counter_ok (w : Machine) : Prop :=
  exists l, freelist (memory w) (free_cell (gc w)) l /\
            remaining_free_cells (gc w) = u64 (Z.of_nat (length l)).

(** * Properties *)

(** ** Bit-field lemmas used throughout *)

Lemma pow2_pos (n : Z) : 0 <= n -> 0 < 2 ^ n.
Proof. intros; apply Z.pow_pos_nonneg; lia. Qed.

(** Masking with a run of [len] ones that starts at bit [lo] selects
    the field [(v / 2^lo) mod 2^len], left in place. *)
Lemma land_field (v lo len : Z) :
  0 <= lo -> 0 <= len ->
  Z.land v (Z.shiftl (Z.ones len) lo) = ((v / 2 ^ lo) mod 2 ^ len) * 2 ^ lo.
Proof.
  intros Hlo Hlen.
  rewrite <- Z.land_ones, <- Z.shiftr_div_pow2, <- Z.shiftl_mul_pow2 by lia.
  apply Z.bits_inj'; intros n Hn.
  rewrite Z.land_spec.
  destruct (Z.ltb_spec n lo) as [Hlt | Hge].
  - rewrite !Z.shiftl_spec_low by lia. apply andb_false_r.
  - rewrite !Z.shiftl_spec by lia.
    rewrite Z.land_spec, Z.shiftr_spec by lia.
    replace (n - lo + lo) with n by lia. reflexivity.
Qed.

(** A word placed above bit [n] and a word below it do not overlap. *)
Lemma lor_disjoint (a b n : Z) :
  0 <= n -> 0 <= b < 2 ^ n -> Z.lor (a * 2 ^ n) b = a * 2 ^ n + b.
Proof.
  intros Hn Hb.
  assert (Hz : Z.land (a * 2 ^ n) b = 0).
  { rewrite <- Z.shiftl_mul_pow2 by lia.
    apply Z.bits_inj'; intros k Hk.
    rewrite Z.land_spec, Z.bits_0.
    destruct (Z.ltb_spec k n).
    - rewrite Z.shiftl_spec_low by lia. reflexivity.
    - destruct (Z.eq_dec b 0) as [-> | Hb0].
      + rewrite Z.bits_0. apply andb_false_r.
      + rewrite (Z.bits_above_log2 b k); [apply andb_false_r | lia |].
        apply Z.log2_lt_pow2; [lia |].
        apply Z.lt_le_trans with (2 ^ n); [lia |].
        apply Z.pow_le_mono_r; lia. }
  rewrite Z.add_nocarry_lxor by exact Hz.
  symmetry. apply Z.lxor_lor, Hz.
Qed.

(** ** Decoding facts for the masks *)

Lemma land_low48 (v : Z) : Z.land v 0x0000ffffffffffff = v mod 2 ^ 48.
Proof. change 0x0000ffffffffffff with (Z.ones 48). apply Z.land_ones. lia. Qed.

Lemma land_signature (v : Z) :
  Z.land v kMaskSignature = ((v / 2 ^ 48) mod 2 ^ 16) * 2 ^ 48.
Proof.
  change kMaskSignature with (Z.shiftl (Z.ones 16) 48).
  apply land_field; lia.
Qed.

Lemma land_exponent (v : Z) :
  Z.land v kMaskExponentBits = ((v / 2 ^ 52) mod 2 ^ 11) * 2 ^ 52.
Proof.
  change kMaskExponentBits with (Z.shiftl (Z.ones 11) 52).
  apply land_field; lia.
Qed.

Lemma land_integer_sign (v : Z) :
  Z.land v kMaskIntegerSign = ((v / 2 ^ 47) mod 2 ^ 1) * 2 ^ 47.
Proof.
  change kMaskIntegerSign with (Z.shiftl (Z.ones 1) 47).
  apply land_field; lia.
Qed.

(** A signature word (top 16 bits) joined with a 48-bit payload. *)
Lemma lor_signature_payload (sig p : Z) :
  0 <= p < 2 ^ 48 -> Z.lor (sig * 2 ^ 48) p = sig * 2 ^ 48 + p.
Proof. intros; apply lor_disjoint; lia. Qed.

Ltac zdm := Z.div_mod_to_equations; lia.

Lemma create_integer_eq (i : Z) :
  charly_create_integer i = 0x7ffc * 2 ^ 48 + i mod 2 ^ 48.
Proof.
  unfold charly_create_integer, kMaskInteger, u64, two64.
  rewrite land_low48.
  change kSignatureInteger with (0x7ffc * 2 ^ 48).
  replace ((i mod 2 ^ 64) mod 2 ^ 48) with (i mod 2 ^ 48) by zdm.
  apply lor_signature_payload. apply Z.mod_pos_bound. lia.
Qed.

Lemma create_integer_is_int (i : Z) :
  charly_is_int (charly_create_integer i) = true.
Proof.
  unfold charly_is_int. rewrite create_integer_eq, land_signature.
  apply Z.eqb_eq. change kSignatureInteger with (0x7ffc * 2 ^ 48).
  zdm.
Qed.

Lemma int_to_int64_eq (v : Z) :
  charly_int_to_int64 v =
  let p := v mod 2 ^ 48 in if p <? 2 ^ 47 then p else p - 2 ^ 48.
Proof.
  unfold charly_int_to_int64, kMaskInteger.
  rewrite land_low48, land_integer_sign.
  pose proof (Z.mod_pos_bound v (2 ^ 48) ltac:(lia)) as Hp.
  cbv zeta.
  destruct (Z.ltb_spec (v mod 2 ^ 48) (2 ^ 47)) as [Hlt | Hge].
  - replace ((v / 2 ^ 47) mod 2 ^ 1) with 0 by zdm.
    cbn [Z.mul Z.eqb negb]. rewrite Z.lor_0_r. unfold s64, two64.
    rewrite Z.mod_small by lia.
    destruct (Z.ltb_spec (v mod 2 ^ 48) (2 ^ 63)); lia.
  - replace ((v / 2 ^ 47) mod 2 ^ 1) with 1 by zdm.
    change (negb (1 * 2 ^ 47 =? 0)) with true. cbv iota.
    change kSignBlock with (0xffff * 2 ^ 48).
    rewrite Z.lor_comm, lor_signature_payload by lia.
    unfold s64, two64. rewrite Z.mod_small by lia.
    destruct (Z.ltb_spec (65535 * 2 ^ 48 + v mod 2 ^ 48) (2 ^ 63)); lia.
Qed.

Lemma int_to_int64_range (v : Z) : kMinInt <= charly_int_to_int64 v <= kMaxInt.
Proof.
  rewrite int_to_int64_eq. unfold kMinInt, kMaxInt. rewrite Z.shiftl_1_l.
  cbv zeta. destruct (Z.ltb_spec (v mod 2 ^ 48) (2 ^ 47)); zdm.
Qed.

Lemma int_to_int64_create (i : Z) :
  charly_int_to_int64 (charly_create_integer i) =
  let p := i mod 2 ^ 48 in if p <? 2 ^ 47 then p else p - 2 ^ 48.
Proof.
  rewrite int_to_int64_eq, create_integer_eq. cbv zeta.
  replace ((32764 * 2 ^ 48 + i mod 2 ^ 48) mod 2 ^ 48) with (i mod 2 ^ 48) by zdm.
  reflexivity.
Qed.

(** Every integer-tagged word is the encoding of the integer it decodes to. *)
Lemma is_int_canonical (v : Z) :
  is_u64 v -> charly_is_int v = true ->
  v = charly_create_integer (charly_int_to_int64 v).
Proof.
  unfold is_u64, two64, charly_is_int. intros Hv Hi.
  apply Z.eqb_eq in Hi. rewrite land_signature in Hi.
  change kSignatureInteger with (0x7ffc * 2 ^ 48) in Hi.
  rewrite create_integer_eq, int_to_int64_eq. cbv zeta.
  destruct (Z.ltb_spec (v mod 2 ^ 48) (2 ^ 47)); zdm.
Qed.

(** ** Integer round trip *)

Lemma int_to_int64_create_in_range (i : Z) :
  kMinInt <= i <= kMaxInt ->
  charly_int_to_int64 (charly_create_integer i) = i.
Proof.
  unfold kMinInt, kMaxInt. rewrite Z.shiftl_1_l. intros Hi.
  rewrite int_to_int64_create. cbv zeta.
  destruct (Z.ltb_spec (i mod 2 ^ 48) (2 ^ 47)); zdm.
Qed.

(** C4. For every 48-bit signed integer [i] ([kMinInt <= i <= kMaxInt]),
    decoding after encoding is the identity:
    [charly_int_to_int64 (charly_create_integer i) = i].  The encoded
    word carries the integer signature, and bit 47 of the payload is
    extended into the upper 16 bits on read, so negative integers come
    back unchanged. *)
Theorem int_roundtrip (i : Z) :
  kMinInt <= i <= kMaxInt ->
  charly_is_int (charly_create_integer i) = true /\
  charly_int_to_int64 (charly_create_integer i) = i /\
  (i < 0 ->
   Z.testbit (charly_create_integer i) 47 = true /\
   charly_int_to_int64 (charly_create_integer i) < 0).
Proof.
  intros Hi.
  split; [apply create_integer_is_int |].
  split; [apply int_to_int64_create_in_range, Hi |].
  intros Hneg. split; [| rewrite int_to_int64_create_in_range by exact Hi; exact Hneg].
  rewrite create_integer_eq. apply Z.testbit_true; [lia |].
  unfold kMinInt, kMaxInt in Hi. rewrite Z.shiftl_1_l in Hi. zdm.
Qed.

Lemma int_roundtrip_witness :
  kMinInt <= -5 <= kMaxInt /\
  charly_int_to_int64 (charly_create_integer (-5)) = -5.
Proof.
  split; [vm_compute; split; discriminate |].
  apply (proj1 (proj2 (int_roundtrip (-5) ltac:(vm_compute; split; discriminate)))).
Defined.

(** ** Doubles *)

Lemma fp_exponent_eq (d : Z) : fp_exponent d = (d / 2 ^ 52) mod 2 ^ 11.
Proof.
  unfold fp_exponent. change 0x7ff with (Z.ones 11).
  rewrite Z.land_ones, Z.shiftr_div_pow2 by lia. reflexivity.
Qed.

Lemma fp_mantissa_eq (d : Z) : fp_mantissa d = d mod 2 ^ 52.
Proof.
  unfold fp_mantissa. change 0x000fffffffffffff with (Z.ones 52).
  apply Z.land_ones. lia.
Qed.

Lemma create_double_eq (d : Z) :
  charly_create_double d = if fp_is_finite d then d else kBitsNaN.
Proof.
  unfold charly_create_double, fp_is_finite.
  rewrite land_exponent, fp_exponent_eq.
  change kMaskExponentBits with (0x7ff * 2 ^ 52).
  destruct (Z.eqb_spec ((d / 2 ^ 52) mod 2 ^ 11) 0x7ff) as [-> | Hne].
  - reflexivity.
  - destruct (Z.eqb_spec ((d / 2 ^ 52) mod 2 ^ 11 * 2 ^ 52) (0x7ff * 2 ^ 52)); [lia | reflexivity].
Qed.

Lemma fp_nan_or_inf_not_finite (d : Z) :
  fp_is_nan d = true \/ fp_is_inf d = true -> fp_is_finite d = false.
Proof.
  unfold fp_is_nan, fp_is_inf, fp_is_finite.
  intros [H | H]; apply andb_true_iff in H as [-> _]; reflexivity.
Qed.

(** C3 (as the code has it).  [charly_create_double] stores a double
    directly exactly when its exponent field is not all ones, that is
    when it is finite, and then [charly_double_to_double] gives it back
    bit for bit.  Every pattern whose exponent field is all ones, every
    NaN and also both infinities, is replaced by the one canonical
    quiet-NaN word [kBitsNaN], which [charly_is_nan] recognises. *)
Theorem create_double_roundtrip_finite (d : Z) :
  (fp_is_finite d = true ->
     charly_create_double d = d /\
     charly_double_to_double (charly_create_double d) = d) /\
  (fp_is_nan d = true \/ fp_is_inf d = true ->
     charly_create_double d = kBitsNaN /\
     charly_is_nan (charly_create_double d) = true).
Proof.
  split.
  - intros Hf. unfold charly_double_to_double.
    rewrite create_double_eq, Hf. split; reflexivity.
  - intros H. apply fp_nan_or_inf_not_finite in H.
    rewrite create_double_eq, H. split; reflexivity.
Qed.

Lemma create_double_roundtrip_finite_witness :
  (fp_is_finite 0x3ff8000000000000 = true /\
   charly_double_to_double (charly_create_double 0x3ff8000000000000)
     = 0x3ff8000000000000) /\
  (fp_is_nan 0xfff0000000000001 = true /\
   charly_create_double 0xfff0000000000001 = kBitsNaN).
Proof.
  split.
  - split; [reflexivity |].
    apply (proj1 (create_double_roundtrip_finite 0x3ff8000000000000)).
    reflexivity.
  - split; [reflexivity |].
    apply (proj2 (create_double_roundtrip_finite 0xfff0000000000001)).
    left; reflexivity.
Defined.

(** C3 as stated fails at positive infinity: it is an infinite double,
    yet it is not stored directly; what comes back is the canonical NaN,
    which compares unequal to the infinity that went in. *)
Lemma create_double_infinity_lost :
  fp_is_inf fp_pos_inf = true /\
  charly_create_double fp_pos_inf = kBitsNaN /\
  charly_double_to_double (charly_create_double fp_pos_inf) <> fp_pos_inf /\
  fp_eq (charly_double_to_double (charly_create_double fp_pos_inf)) fp_pos_inf = false.
Proof. repeat split; vm_compute; discriminate. Qed.

(** ** Signatures *)

Lemma is_int_signature (v : Z) : charly_is_int v = (signature v =? 0x7ffc).
Proof.
  unfold charly_is_int, signature. rewrite land_signature.
  change kSignatureInteger with (0x7ffc * 2 ^ 48).
  destruct (Z.eqb_spec ((v / 2 ^ 48) mod 2 ^ 16) 0x7ffc) as [-> | Hne].
  - reflexivity.
  - apply Z.eqb_neq. lia.
Qed.

Lemma is_ptr_signature (v : Z) : charly_is_ptr v = (signature v =? 0xfff8).
Proof.
  unfold charly_is_ptr, signature. rewrite land_signature.
  change kSignaturePointer with (0xfff8 * 2 ^ 48).
  destruct (Z.eqb_spec ((v / 2 ^ 48) mod 2 ^ 16) 0xfff8) as [-> | Hne].
  - reflexivity.
  - apply Z.eqb_neq. lia.
Qed.

Lemma is_pstring_signature (v : Z) : charly_is_pstring v = (signature v =? 0x7ffe).
Proof.
  unfold charly_is_pstring, signature. rewrite land_signature.
  change kSignaturePString with (0x7ffe * 2 ^ 48).
  destruct (Z.eqb_spec ((v / 2 ^ 48) mod 2 ^ 16) 0x7ffe) as [-> | Hne].
  - reflexivity.
  - apply Z.eqb_neq. lia.
Qed.

Lemma is_istring_signature (v : Z) : charly_is_istring v = (signature v =? 0x7fff).
Proof.
  unfold charly_is_istring, signature. rewrite land_signature.
  change kSignatureIString with (0x7fff * 2 ^ 48).
  destruct (Z.eqb_spec ((v / 2 ^ 48) mod 2 ^ 16) 0x7fff) as [-> | Hne].
  - reflexivity.
  - apply Z.eqb_neq. lia.
Qed.

(** [charly_is_float] holds for the canonical NaN and for every word whose
    exponent field is not all ones. *)
Lemma is_float_eq (v : Z) :
  charly_is_float v = (v =? kNaN) || fp_is_finite v.
Proof.
  unfold charly_is_float, charly_is_nan, fp_is_finite, u64, two64.
  f_equal. rewrite land_exponent, fp_exponent_eq.
  replace (Z.lnot v) with (- v - 1) by (unfold Z.lnot; lia).
  f_equal.
  destruct (Z.eqb_spec ((v / 2 ^ 52) mod 2 ^ 11) 2047) as [He | Hne];
    [apply Z.eqb_eq | apply Z.eqb_neq]; zdm.
Qed.

Lemma is_ptr_not_int (v : Z) : charly_is_ptr v = true -> charly_is_int v = false.
Proof.
  rewrite is_ptr_signature, is_int_signature.
  intros H%Z.eqb_eq. rewrite H. reflexivity.
Qed.

Lemma is_ptr_not_float (v : Z) :
  is_u64 v -> charly_is_ptr v = true -> charly_is_float v = false.
Proof.
  intros Hv. rewrite is_ptr_signature, is_float_eq.
  unfold signature, fp_is_finite. rewrite fp_exponent_eq.
  intros H%Z.eqb_eq. apply orb_false_iff. split.
  - apply Z.eqb_neq. intros ->. vm_compute in H. discriminate.
  - apply negb_false_iff, Z.eqb_eq. unfold is_u64, two64 in Hv. zdm.
Qed.

Lemma is_int_not_float (v : Z) : charly_is_int v = true -> charly_is_float v = false.
Proof.
  rewrite is_int_signature, is_float_eq.
  unfold signature, fp_is_finite. rewrite fp_exponent_eq.
  intros H%Z.eqb_eq. apply orb_false_iff. split.
  - apply Z.eqb_neq. intros ->. vm_compute in H. discriminate.
  - apply negb_false_iff, Z.eqb_eq. zdm.
Qed.

(** An integer operand is converted to double by the cast of its
    sign-extended payload; a float operand is taken as it is. *)
Lemma number_to_double_int (v : Z) :
  charly_is_int v = true ->
  charly_number_to_double v = int64_to_double (charly_int_to_int64 v).
Proof.
  intros Hi. unfold charly_number_to_double. rewrite (is_int_not_float v Hi).
  reflexivity.
Qed.

Lemma number_to_double_float (v : Z) :
  charly_is_float v = true -> charly_number_to_double v = v.
Proof. intros Hf. unfold charly_number_to_double. rewrite Hf. reflexivity. Qed.

(** A non-NaN float compares equal to zero exactly when it is [+0] or [-0]. *)
Lemma fp_eq_zero (v : Z) :
  is_u64 v -> fp_is_finite v = true ->
  fp_eq v fp_pos_zero = true <-> v = fp_pos_zero \/ v = fp_neg_zero.
Proof.
  unfold is_u64, two64, fp_eq, fp_is_nan, fp_is_zero, fp_is_finite.
  rewrite !fp_exponent_eq, !fp_mantissa_eq. intros Hv Hf.
  apply negb_true_iff in Hf. rewrite Hf. cbn [andb orb].
  change (fp_pos_zero / 2 ^ 52) with 0. change (fp_pos_zero mod 2 ^ 52) with 0.
  change (0 mod 2 ^ 11) with 0. cbn [Z.eqb andb negb orb].
  rewrite andb_true_r. unfold fp_pos_zero, fp_neg_zero.
  destruct (Z.eqb_spec ((v / 2 ^ 52) mod 2 ^ 11) 0) as [He | Hne];
    destruct (Z.eqb_spec (v mod 2 ^ 52) 0) as [Hm | Hm]; cbn [andb].
  - split; [intros _ | reflexivity]. zdm.
  - rewrite Z.eqb_eq. split; [tauto |]. intros [-> | ->]; [reflexivity |].
    vm_compute in Hm. congruence.
  - rewrite Z.eqb_eq. split; [tauto |]. intros [-> | ->]; [reflexivity |].
    vm_compute in Hne. congruence.
  - rewrite Z.eqb_eq. split; [tauto |]. intros [-> | ->]; [reflexivity |].
    vm_compute in Hne. congruence.
Qed.

(** ** Truthiness *)

Lemma truthyness_pointer (m : Memory) (v : VALUE) (c : MemoryCell) :
  is_u64 v -> charly_is_ptr v = true -> m !! charly_as_pointer v = Some c ->
  charly_truthyness m v =
  Some (if cell_type c =? kTypeGenerator then negb (finished c) else true).
Proof.
  intros Hv Hp Hc. unfold charly_truthyness.
  pose proof (is_ptr_not_int v Hp) as Hi.
  pose proof (is_ptr_not_float v Hv Hp) as Hf.
  rewrite is_ptr_signature in Hp. apply Z.eqb_eq in Hp.
  destruct (Z.eqb_spec v kNaN) as [-> | _]; [vm_compute in Hp; discriminate |].
  destruct (Z.eqb_spec v kNull) as [-> | _]; [vm_compute in Hp; discriminate |].
  destruct (Z.eqb_spec v kFalse) as [-> | _]; [vm_compute in Hp; discriminate |].
  rewrite Hi, Hf.
  unfold charly_is_generator, charly_is_heap_type, charly_is_on_heap, charly_as_basic.
  rewrite is_ptr_signature, Hp, Hc. cbn.
  destruct (cell_type c =? kTypeGenerator); reflexivity.
Qed.

(** C5. [charly_truthyness v] is false exactly when [v] is [false],
    [null], the integer 0, the float +0.0 or -0.0, the canonical NaN, or a
    pointer to a generator whose [finished] flag is set; it is true for
    every other value.  The value is any 64-bit word; a pointer value is
    assumed to refer to a cell, since the function reads its header. *)
Theorem truthyness_false_iff (m : Memory) (v : VALUE) :
  is_u64 v ->
  (charly_is_ptr v = true -> is_Some (m !! charly_as_pointer v)) ->
  exists b, charly_truthyness m v = Some b /\ (b = false <-> falsy m v).
Proof.
  intros Hv Hcell.
  destruct (charly_is_ptr v) eqn:Hp.
  - destruct (Hcell eq_refl) as [c Hc].
    rewrite (truthyness_pointer m v c Hv Hp Hc).
    eexists; split; [reflexivity |].
    assert (Himm : forall k, charly_is_ptr k = false -> v <> k) by congruence.
    split.
    + intros Hb. do 6 right. split; [exact Hp |]. exists c.
      destruct (Z.eqb_spec (cell_type c) kTypeGenerator) as [Ht | Ht];
        [| discriminate].
      apply negb_false_iff in Hb. auto.
    + intros [H | [H | [H | [H | [H | [H | H]]]]]];
        try (exfalso; revert H; apply Himm; reflexivity).
      destruct H as (_ & c' & Hc' & Ht & Hfin).
      rewrite Hc in Hc'. injection Hc' as <-.
      rewrite Ht, Hfin. reflexivity.
  - assert (Hgen : ~ is_finished_generator m v).
    { intros [Hp' _]. congruence. }
    unfold charly_truthyness.
    destruct (Z.eqb_spec v kNaN) as [-> | Hnan].
    { exists false. split; [reflexivity |]. split; [intros _ | reflexivity].
      do 5 right. left. reflexivity. }
    destruct (Z.eqb_spec v kNull) as [-> | Hnull].
    { exists false. split; [reflexivity |]. split; [intros _ | reflexivity].
      right. left. reflexivity. }
    destruct (Z.eqb_spec v kFalse) as [-> | Hfalse].
    { exists false. split; [reflexivity |]. split; [intros _ | reflexivity].
      left. reflexivity. }
    destruct (charly_is_int v) eqn:Hi.
    { eexists; split; [reflexivity |].
      rewrite negb_false_iff, Z.eqb_eq. split.
      - intros H0. right. right. left.
        rewrite (is_int_canonical v Hv Hi) at 1. rewrite H0. reflexivity.
      - intros [H | [H | [H | [H | [H | [H | H]]]]]]; try congruence.
        + rewrite H. reflexivity.
        + subst v. vm_compute in Hi. discriminate.
        + subst v. vm_compute in Hi. discriminate. }
    destruct (charly_is_float v) eqn:Hf.
    { eexists; split; [reflexivity |].
      unfold charly_double_to_double. rewrite negb_false_iff.
      rewrite is_float_eq in Hf.
      apply orb_true_iff in Hf as [Hf | Hf];
        [apply Z.eqb_eq in Hf; contradiction |].
      rewrite (fp_eq_zero v Hv Hf). split.
      - intros [H | H]; [do 3 right; left | do 4 right; left]; exact H.
      - intros [H | [H | [H | [H | [H | [H | H]]]]]]; try congruence.
        + subst v. rewrite create_integer_is_int in Hi. discriminate.
        + left; exact H.
        + right; exact H. }
    unfold charly_is_generator, charly_is_heap_type, charly_is_on_heap.
    rewrite Hp. cbn.
    exists true. split; [reflexivity |]. split; [discriminate |].
    intros [H | [H | [H | [H | [H | [H | H]]]]]]; try congruence.
    + subst v. rewrite create_integer_is_int in Hi. discriminate.
    + subst v. vm_compute in Hf. discriminate.
    + subst v. vm_compute in Hf. discriminate.
Qed.

(** ** Calling host functions *)

Lemma ARG_from (argv : list VALUE) (n k : nat) (args : list VALUE) :
  mapM (fun i => argv !! i) (seq k n) = Some args ->
  args = take n (drop k argv).
Proof.
  revert k args. induction n as [| n IH]; intros k args; cbn.
  - intros [= <-]. reflexivity.
  - destruct (argv !! k) as [x |] eqn:Hx; cbn; [| discriminate].
    destruct (mapM (fun i => argv !! i) (seq (S k) n)) as [rest |] eqn:Hr;
      cbn; [| discriminate].
    intros [= <-]. rewrite (drop_S _ _ _ Hx). cbn.
    f_equal. apply IH, Hr.
Qed.

Lemma ARG_enough (argv : list VALUE) (n k : nat) :
  (k + n <= length argv)%nat ->
  mapM (fun i => argv !! i) (seq k n) = Some (take n (drop k argv)).
Proof.
  revert k. induction n as [| n IH]; intros k Hk; cbn.
  - reflexivity.
  - destruct (lookup_lt_is_Some_2 argv k ltac:(lia)) as [x Hx].
    rewrite Hx; cbn. rewrite IH by lia; cbn.
    rewrite (drop_S _ _ _ Hx). reflexivity.
Qed.

(** C10. [charly_call_cfunction] returns null without reaching the
    native pointer when the supplied [argc] is below the declared one,
    and also when the declared one is above 20.  Whenever it does call
    the native pointer, it is the CFunction's pointer and it gets exactly
    the declared number of arguments: the first [cfunc->argc] entries of
    [argv].  With an [argv] of [argc] entries and a declared count of at
    most 20 that does not exceed [argc], the call takes place. *)
Theorem call_cfunction_arity (cfunc : CFunction) (argc : Z) (argv : list VALUE) :
  (argc < cf_argc cfunc ->
     charly_call_cfunction cfunc argc argv = Some (Returned kNull)) /\
  (20 < cf_argc cfunc ->
     charly_call_cfunction cfunc argc argv = Some (Returned kNull)) /\
  (forall pointer args,
     charly_call_cfunction cfunc argc argv = Some (NativeCall pointer args) ->
     pointer = cf_pointer cfunc /\
     Z.of_nat (length args) = cf_argc cfunc /\
     args = take (Z.to_nat (cf_argc cfunc)) argv /\
     cf_argc cfunc <= argc) /\
  (0 <= cf_argc cfunc <= 20 -> cf_argc cfunc <= argc ->
     argc <= Z.of_nat (length argv) ->
     charly_call_cfunction cfunc argc argv =
       Some (NativeCall (cf_pointer cfunc) (take (Z.to_nat (cf_argc cfunc)) argv))).
Proof.
  unfold charly_call_cfunction, ARG. repeat split.
  - intros H. apply Z.ltb_lt in H. rewrite H. reflexivity.
  - intros H. destruct (argc <? cf_argc cfunc); [reflexivity |].
    replace (cf_argc cfunc <=? 20) with false by (symmetry; apply Z.leb_gt; lia).
    rewrite andb_false_r. reflexivity.
  - revert H. destruct (argc <? cf_argc cfunc); [discriminate |].
    destruct ((0 <=? cf_argc cfunc) && (cf_argc cfunc <=? 20)); [| discriminate].
    destruct (mapM _ _); cbn; [| discriminate]. congruence.
  - revert H. destruct (argc <? cf_argc cfunc); [discriminate |].
    destruct ((0 <=? cf_argc cfunc) && (cf_argc cfunc <=? 20)) eqn:Hr; [| discriminate].
    destruct (mapM _ _) as [args' |] eqn:Hm; cbn; [| discriminate].
    intros [= _ <-].
    apply andb_true_iff in Hr as [H0%Z.leb_le _].
    apply length_mapM in Hm. rewrite length_seq in Hm. lia.
  - revert H. destruct (argc <? cf_argc cfunc); [discriminate |].
    destruct ((0 <=? cf_argc cfunc) && (cf_argc cfunc <=? 20)); [| discriminate].
    destruct (mapM _ _) as [args' |] eqn:Hm; cbn; [| discriminate].
    intros [= _ <-]. apply ARG_from in Hm. rewrite drop_0 in Hm. exact Hm.
  - revert H. destruct (Z.ltb_spec argc (cf_argc cfunc)); [discriminate | lia].
  - intros H20 Hle Hlen.
    destruct (Z.ltb_spec argc (cf_argc cfunc)); [lia |].
    replace (0 <=? cf_argc cfunc) with true by (symmetry; apply Z.leb_le; lia).
    replace (cf_argc cfunc <=? 20) with true by (symmetry; apply Z.leb_le; lia).
    cbn [andb]. rewrite ARG_enough by lia. cbn. rewrite drop_0. reflexivity.
Qed.

(** ** Prototype lookup *)

Lemma find_prototype_value_chain (m : Memory) (symbol : VALUE) klass chain :
  class_chain m klass chain ->
  forall fuel, (length chain <= fuel)%nat ->
  charly_find_prototype_value fuel m klass symbol = Some (first_match symbol chain).
Proof.
  induction 1 as [klass k proto Hk Hobj Hproto Hpar
                 | klass k proto rest Hk Hobj Hproto Hpar Hrest IH];
    intros fuel Hfuel; (destruct fuel as [| fuel]; [cbn in Hfuel; lia |]);
    cbn [charly_find_prototype_value first_match];
    rewrite Hk; cbn; rewrite Hobj; cbn; rewrite Hproto; cbn;
    destruct (obj_container proto !! symbol) as [v |]; try reflexivity;
    rewrite Hpar; cbn; try reflexivity.
  rewrite IH by (cbn in Hfuel; lia). cbn.
  destruct (first_match symbol rest); reflexivity.
Qed.

(** A class whose prototype is not an object ends the search: neither it
    nor its parents contribute a result. *)
Lemma find_prototype_value_no_prototype (m : Memory) (symbol : VALUE) klass k fuel :
  class_at m klass = Some k ->
  charly_is_object m (cls_prototype k) = Some false ->
  charly_find_prototype_value (S fuel) m klass symbol = Some None.
Proof. intros Hk Hobj. cbn. rewrite Hk; cbn. rewrite Hobj. reflexivity. Qed.

(** C9. Along a chain of classes linked by [parent_class], each with its
    prototype object, [charly_find_prototype_value] returns the entry of
    the first prototype container on the chain that holds the symbol: the
    class's own container decides when it holds the symbol, and only
    otherwise the parents are searched, nearest first; any fuel that
    covers the length of the chain gives this result.
    [charly_find_super_method] is the same search started at the parent
    class, so the class's own prototype is skipped; it yields null when
    nothing is found or when there is no parent class. *)
Theorem prototype_lookup_first_match (m : Memory) (symbol : VALUE) :
  (forall klass chain fuel,
     class_chain m klass chain -> (length chain <= fuel)%nat ->
     charly_find_prototype_value fuel m klass symbol
       = Some (first_match symbol chain)) /\
  (forall own parents,
     first_match symbol (own :: parents) =
       match own !! symbol with
       | Some v => Some v
       | None => first_match symbol parents
       end) /\
  (forall base b chain fuel,
     class_at m base = Some b ->
     charly_is_class m (cls_parent_class b) = Some true ->
     class_chain m (charly_as_pointer (cls_parent_class b)) chain ->
     (length chain <= fuel)%nat ->
     charly_find_super_method fuel m base symbol
       = Some (default kNull (first_match symbol chain))) /\
  (forall base b fuel,
     class_at m base = Some b ->
     charly_is_class m (cls_parent_class b) = Some false ->
     charly_find_super_method fuel m base symbol = Some kNull).
Proof.
  repeat split.
  - intros klass chain fuel Hc Hf. eapply find_prototype_value_chain; eauto.
  - intros base b chain fuel Hb Hcls Hc Hf.
    unfold charly_find_super_method. rewrite Hb; cbn. rewrite Hcls; cbn.
    rewrite (find_prototype_value_chain m symbol _ chain Hc fuel Hf).
    reflexivity.
  - intros base b fuel Hb Hcls.
    unfold charly_find_super_method. rewrite Hb; cbn. rewrite Hcls. reflexivity.
Qed.

(** ** Integer arithmetic *)

Lemma create_double_is_float (d : Z) :
  charly_is_float (charly_create_double d) = true /\
  charly_is_int (charly_create_double d) = false.
Proof.
  rewrite create_double_eq. destruct (fp_is_finite d) eqn:Hf.
  - split.
    + rewrite is_float_eq, Hf. apply orb_true_r.
    + rewrite is_int_signature. apply Z.eqb_neq.
      unfold fp_is_finite in Hf. rewrite fp_exponent_eq in Hf.
      apply negb_true_iff, Z.eqb_neq in Hf. unfold signature. zdm.
  - split; reflexivity.
Qed.

(** Strictly inside the 48-bit bounds a number stays an integer. *)
Lemma create_number_int64_inside (r : Z) :
  kMinInt < r < kMaxInt ->
  charly_create_number_int64 r = charly_create_integer r /\
  charly_is_int (charly_create_number_int64 r) = true /\
  charly_int_to_int64 (charly_create_number_int64 r) = r.
Proof.
  intros Hr. unfold charly_create_number_int64.
  replace (kMaxInt <=? r) with false by (symmetry; apply Z.leb_gt; lia).
  replace (r <=? kMinInt) with false by (symmetry; apply Z.leb_gt; lia).
  cbn [orb]. split; [reflexivity |].
  split; [apply create_integer_is_int | apply int_to_int64_create_in_range; lia].
Qed.

(** At the bounds and beyond, it becomes a double. *)
Lemma create_number_int64_outside (r : Z) :
  ~ (kMinInt < r < kMaxInt) ->
  charly_create_number_int64 r = charly_create_double (int64_to_double r) /\
  charly_is_float (charly_create_number_int64 r) = true /\
  charly_is_int (charly_create_number_int64 r) = false.
Proof.
  intros Hr. unfold charly_create_number_int64.
  replace ((kMaxInt <=? r) || (r <=? kMinInt)) with true.
  - split; [reflexivity | apply create_double_is_float].
  - symmetry. apply orb_true_iff. rewrite Z.leb_le, Z.leb_le. lia.
Qed.

Lemma s64_small (x : Z) : - 2 ^ 63 <= x < 2 ^ 63 -> s64 x = x.
Proof.
  intros Hx. unfold s64, two64. cbv zeta.
  destruct (Z.ltb_spec (x mod 2 ^ 64) (2 ^ 63)); zdm.
Qed.

Lemma int48_bounds (v : Z) :
  - 2 ^ 47 <= charly_int_to_int64 v <= 2 ^ 47 - 1.
Proof.
  pose proof (int_to_int64_range v) as H. unfold kMinInt, kMaxInt in H.
  rewrite Z.shiftl_1_l in H. exact H.
Qed.

Section ArithmeticFacts.

Context (fp_add fp_sub fp_mul fp_fmod : Z -> Z -> Z).

Lemma add_number_int (left right : VALUE) :
  charly_is_int left = true -> charly_is_int right = true ->
  charly_add_number fp_add left right =
  charly_create_number_int64 (charly_int_to_int64 left + charly_int_to_int64 right).
Proof.
  intros Hl Hr. unfold charly_add_number. rewrite Hl, Hr. cbn [andb].
  pose proof (int48_bounds left). pose proof (int48_bounds right).
  rewrite s64_small by lia. reflexivity.
Qed.

Lemma sub_number_int (left right : VALUE) :
  charly_is_int left = true -> charly_is_int right = true ->
  charly_sub_number fp_sub left right =
  charly_create_number_int64 (charly_int_to_int64 left - charly_int_to_int64 right).
Proof.
  intros Hl Hr. unfold charly_sub_number. rewrite Hl, Hr. cbn [andb].
  pose proof (int48_bounds left). pose proof (int48_bounds right).
  rewrite s64_small by lia. reflexivity.
Qed.

Lemma mul_number_int (left right : VALUE) :
  charly_is_int left = true -> charly_is_int right = true ->
  - 2 ^ 63 <= charly_int_to_int64 left * charly_int_to_int64 right < 2 ^ 63 ->
  charly_mul_number fp_mul left right =
  charly_create_number_int64 (charly_int_to_int64 left * charly_int_to_int64 right).
Proof.
  intros Hl Hr Hp. unfold charly_mul_number. rewrite Hl, Hr. cbn [andb].
  rewrite s64_small by lia. reflexivity.
Qed.

(** Subtracting what was added gives the first operand back when neither
    step left the integers. *)
Lemma sub_add_cancel (left right : VALUE) :
  is_u64 left ->
  charly_is_int left = true -> charly_is_int right = true ->
  charly_is_int (charly_add_number fp_add left right) = true ->
  charly_is_int (charly_sub_number fp_sub (charly_add_number fp_add left right) right) = true ->
  charly_sub_number fp_sub (charly_add_number fp_add left right) right = left.
Proof.
  intros Hu Hl Hr Hadd Hsub.
  rewrite sub_number_int in * by assumption.
  rewrite add_number_int in * by assumption.
  set (a := charly_int_to_int64 left) in *.
  set (b := charly_int_to_int64 right) in *.
  assert (Hab : kMinInt < a + b < kMaxInt).
  { destruct (Z_lt_dec kMinInt (a + b)) as [H1 |];
      [destruct (Z_lt_dec (a + b) kMaxInt) as [H2 |]; [lia |] |];
      destruct (create_number_int64_outside (a + b)) as (_ & _ & Hn);
      try lia; congruence. }
  destruct (create_number_int64_inside (a + b) Hab) as (_ & _ & Hdec).
  rewrite Hdec in *. replace (a + b - b) with a in * by lia.
  assert (Ha : kMinInt < a < kMaxInt).
  { destruct (Z_lt_dec kMinInt a) as [H1 |];
      [destruct (Z_lt_dec a kMaxInt) as [H2 |]; [lia |] |];
      destruct (create_number_int64_outside a) as (_ & _ & Hn);
      try lia; congruence. }
  destruct (create_number_int64_inside a Ha) as (-> & _ & _).
  symmetry. apply is_int_canonical; assumption.
Qed.

End ArithmeticFacts.

(** ** Conversion of integers to doubles *)

Lemma testbit63 (d : Z) : 0 <= d < 2 ^ 64 -> Z.testbit d 63 = (2 ^ 63 <=? d).
Proof.
  intros Hd. destruct (Z.leb_spec (2 ^ 63) d) as [H | H].
  - apply Z.testbit_true; [lia |]. zdm.
  - apply Z.bits_above_log2; [lia |].
    destruct (Z.eq_dec d 0) as [-> | Hn]; [reflexivity |].
    apply Z.log2_lt_pow2; lia.
Qed.

Lemma int64_to_double_exact (x : Z) :
  x <> 0 -> Z.abs x < 2 ^ 53 ->
  fp_is_finite (int64_to_double x) = true /\
  fp_is_integral (int64_to_double x) = true /\
  fp_trunc (int64_to_double x) = x.
Proof.
  intros Hx0 Hx. unfold int64_to_double.
  destruct (Z.eqb_spec x 0) as [| _]; [contradiction |]. cbv zeta.
  assert (Ha : 0 < Z.abs x) by lia.
  pose proof (Z.log2_spec (Z.abs x) Ha) as [Hlo Hhi].
  pose proof (Z.log2_nonneg (Z.abs x)) as He0.
  assert (He : Z.log2 (Z.abs x) < 53) by (apply Z.log2_lt_pow2; lia).
  set (e := Z.log2 (Z.abs x)) in *.
  replace (e <=? 52) with true by (symmetry; apply Z.leb_le; lia).
  assert (HQP : 2 ^ e * 2 ^ (52 - e) = 2 ^ 52)
    by (rewrite <- Z.pow_add_r by lia; f_equal; lia).
  rewrite Z.pow_succ_r in Hhi by lia.
  pose proof (pow2_pos (52 - e) ltac:(lia)) as HP.
  pose proof (pow2_pos e ltac:(lia)) as HQ.
  set (P := 2 ^ (52 - e)) in *. set (Q := 2 ^ e) in *.
  assert (HM : 2 ^ 52 <= Z.abs x * P < 2 ^ 53) by nia.
  set (s := if x <? 0 then 2 ^ 63 else 0).
  assert (Hs : s = 0 /\ 0 < x \/ s = 2 ^ 63 /\ x < 0)
    by (unfold s; destruct (Z.ltb_spec x 0); lia).
  set (bits := s + (e + 1023) * 2 ^ 52 + (Z.abs x * P - 2 ^ 52)).
  assert (Hexp : fp_exponent bits = e + 1023).
  { rewrite fp_exponent_eq. unfold bits. zdm. }
  assert (Hman : fp_mantissa bits = Z.abs x * P - 2 ^ 52).
  { rewrite fp_mantissa_eq. unfold bits. zdm. }
  assert (Hneg : fp_negative bits = (x <? 0)).
  { unfold fp_negative. rewrite testbit63 by (unfold bits; lia).
    unfold bits. destruct (Z.ltb_spec x 0); [apply Z.leb_le | apply Z.leb_gt]; lia. }
  assert (Hdec : fp_decode bits = (x * P, e - 52)).
  { unfold fp_decode. rewrite Hexp, Hman, Hneg.
    replace (e + 1023 =? 0) with false by (symmetry; apply Z.eqb_neq; lia).
    f_equal; [| lia]. destruct (Z.ltb_spec x 0); lia. }
  split; [| split].
  - unfold fp_is_finite. rewrite Hexp. apply negb_true_iff, Z.eqb_neq. lia.
  - unfold fp_is_integral. rewrite Hdec.
    destruct (0 <=? e - 52); [reflexivity |].
    replace (- (e - 52)) with (52 - e) by lia. fold P.
    apply Z.eqb_eq, Z.mod_mul. lia.
  - unfold fp_trunc. rewrite Hdec.
    destruct (Z.leb_spec 0 (e - 52)) as [H52 | H52].
    + assert (e = 52) by lia. subst P. replace (52 - e) with 0 by lia.
      replace (e - 52) with 0 by lia. lia.
    + replace (- (e - 52)) with (52 - e) by lia. fold P.
      apply Z.quot_mul. lia.
Qed.

(** ** What integer addition, subtraction and multiplication return *)

(** C6 (as the code has it).  For two integer operands, addition and
    subtraction hand the exact result to [charly_create_number], and so
    does multiplication when the product fits in 64 bits.  That result
    is returned integer-tagged when it lies strictly between [kMinInt]
    and [kMaxInt]; at these two bounds and beyond it is returned as a
    double, which holds the exact result whenever that is below 2^53 in
    magnitude.  And [sub (add a b) b] is [a] again when neither the
    addition nor the subtraction returned a double. *)
Theorem int_arith_promotion (fp_add fp_sub fp_mul : Z -> Z -> Z)
    (left right : VALUE) :
  charly_is_int left = true -> charly_is_int right = true ->
  let a := charly_int_to_int64 left in
  let b := charly_int_to_int64 right in
  let number := charly_create_number_int64 in
  charly_add_number fp_add left right = number (a + b) /\
  charly_sub_number fp_sub left right = number (a - b) /\
  (- 2 ^ 63 <= a * b < 2 ^ 63 ->
     charly_mul_number fp_mul left right = number (a * b)) /\
  (forall r, kMinInt < r < kMaxInt ->
     charly_is_int (number r) = true /\ charly_int_to_int64 (number r) = r) /\
  (forall r, ~ (kMinInt < r < kMaxInt) ->
     charly_is_int (number r) = false /\
     charly_is_float (number r) = true /\
     (Z.abs r < 2 ^ 53 ->
        number r = int64_to_double r /\
        fp_is_integral (number r) = true /\ fp_trunc (number r) = r)) /\
  (is_u64 left ->
   charly_is_int (charly_add_number fp_add left right) = true ->
   charly_is_int (charly_sub_number fp_sub (charly_add_number fp_add left right) right) = true ->
   charly_sub_number fp_sub (charly_add_number fp_add left right) right = left).
Proof.
  intros Hl Hr a b number. subst a b number.
  split; [apply add_number_int; assumption |].
  split; [apply sub_number_int; assumption |].
  split; [apply mul_number_int; assumption |].
  split; [intros r Hin; apply create_number_int64_inside, Hin |].
  split; [| intros; apply sub_add_cancel; assumption].
  intros r Hout.
  destruct (create_number_int64_outside r Hout) as (Heq & Hf & Hi).
  split; [exact Hi |]. split; [exact Hf |]. intros Hsmall.
  assert (Hr0 : r <> 0) by (unfold kMinInt, kMaxInt in Hout; rewrite Z.shiftl_1_l in Hout; lia).
  destruct (int64_to_double_exact r Hr0 Hsmall) as (Hfin & Hint & Htr).
  rewrite Heq, create_double_eq, Hfin. auto.
Qed.

(** ** Modulo *)

(** C7. For two integer operands [charly_mod_number] returns the
    canonical NaN when the right one is zero, and otherwise the number
    made from the remainder of the division that truncates toward zero;
    that number is integer-tagged and decodes to the remainder (the one
    remainder equal to [kMaxInt] is returned as the double of the same
    value).  When one operand is not an integer the result is the number
    made from [fmod] of both operands converted to double: a float
    operand enters [fmod] as it is, and an integer operand enters it as
    the double of its integer, which is finite, has no fraction and
    truncates back to that integer.  In every case a result is returned:
    the integer remainder is never taken with a zero divisor. *)
Theorem mod_number_spec (fp_fmod : Z -> Z -> Z) (left right : VALUE) :
  is_Some (charly_mod_number fp_fmod left right) /\
  (charly_is_int left = true -> charly_is_int right = true ->
   let a := charly_int_to_int64 left in
   let b := charly_int_to_int64 right in
   (b = 0 -> charly_mod_number fp_fmod left right = Some kNaN) /\
   (b <> 0 ->
      int64_rem a b = Some (Z.rem a b) /\
      charly_mod_number fp_fmod left right
        = Some (charly_create_number_int64 (Z.rem a b)) /\
      (Z.rem a b <> kMaxInt ->
         charly_is_int (charly_create_number_int64 (Z.rem a b)) = true /\
         charly_int_to_int64 (charly_create_number_int64 (Z.rem a b)) = Z.rem a b) /\
      (Z.rem a b = kMaxInt ->
         charly_create_number_int64 (Z.rem a b) = int64_to_double kMaxInt /\
         fp_trunc (int64_to_double kMaxInt) = kMaxInt))) /\
  (charly_is_int left && charly_is_int right = false ->
   charly_mod_number fp_fmod left right =
     Some (charly_create_number_double
             (fp_fmod (charly_number_to_double left) (charly_number_to_double right)))) /\
  (forall v, charly_is_float v = true -> charly_number_to_double v = v) /\
  (forall v, charly_is_int v = true ->
     let i := charly_int_to_int64 v in
     charly_number_to_double v = int64_to_double i /\
     v <> int64_to_double i /\
     fp_is_finite (int64_to_double i) = true /\
     fp_is_integral (int64_to_double i) = true /\
     fp_trunc (int64_to_double i) = i) /\
  (charly_is_int left = true -> charly_is_float right = true ->
   charly_mod_number fp_fmod left right =
     Some (charly_create_number_double
             (fp_fmod (int64_to_double (charly_int_to_int64 left)) right))) /\
  (charly_is_float left = true -> charly_is_int right = true ->
   charly_mod_number fp_fmod left right =
     Some (charly_create_number_double
             (fp_fmod left (int64_to_double (charly_int_to_int64 right))))) /\
  (charly_is_float left = true -> charly_is_float right = true ->
   charly_mod_number fp_fmod left right =
     Some (charly_create_number_double (fp_fmod left right))).
Proof.
  assert (Hint : charly_is_int left = true -> charly_is_int right = true ->
    charly_int_to_int64 right <> 0 ->
    int64_rem (charly_int_to_int64 left) (charly_int_to_int64 right)
      = Some (Z.rem (charly_int_to_int64 left) (charly_int_to_int64 right))).
  { intros _ _ Hb. unfold int64_rem.
    destruct (Z.eqb_spec (charly_int_to_int64 right) 0); [contradiction |].
    pose proof (int48_bounds left).
    replace (charly_int_to_int64 left =? - 2 ^ 63) with false
      by (symmetry; apply Z.eqb_neq; lia).
    reflexivity. }
  assert (Hmixed : charly_is_int left && charly_is_int right = false ->
    charly_mod_number fp_fmod left right =
      Some (charly_create_number_double
              (fp_fmod (charly_number_to_double left) (charly_number_to_double right)))).
  { intros Hb. unfold charly_mod_number. rewrite Hb. reflexivity. }
  assert (Hexact : forall v, charly_is_int v = true ->
    fp_is_finite (int64_to_double (charly_int_to_int64 v)) = true /\
    fp_is_integral (int64_to_double (charly_int_to_int64 v)) = true /\
    fp_trunc (int64_to_double (charly_int_to_int64 v)) = charly_int_to_int64 v).
  { intros v _. pose proof (int48_bounds v) as Hv.
    destruct (Z.eq_dec (charly_int_to_int64 v) 0) as [-> | Hne].
    - repeat split; reflexivity.
    - apply int64_to_double_exact; [exact Hne | lia]. }
  split; [| split; [| split; [exact Hmixed | split; [| split; [| split; [| split]]]]]].
  - unfold charly_mod_number.
    destruct (charly_is_int left && charly_is_int right) eqn:Hb; [| eauto].
    apply andb_true_iff in Hb as [Hl Hr].
    destruct (Z.eqb_spec (charly_int_to_int64 right) 0) as [| Hne]; [eauto |].
    rewrite (Hint Hl Hr Hne). cbn. eauto.
  - intros Hl Hr a b. subst a b. unfold charly_mod_number.
    rewrite Hl, Hr. cbn [andb]. split.
    + intros ->. reflexivity.
    + intros Hne. specialize (Hint Hl Hr Hne).
      destruct (Z.eqb_spec (charly_int_to_int64 right) 0); [contradiction |].
      rewrite Hint. cbn. split; [reflexivity |]. split; [reflexivity |].
      pose proof (int48_bounds left) as Ha. pose proof (int48_bounds right) as Hb.
      pose proof (Z.rem_bound_abs (charly_int_to_int64 left)
                    (charly_int_to_int64 right) Hne) as Hrem.
      split.
      * intros Hmax. apply create_number_int64_inside.
        unfold kMinInt, kMaxInt in *. rewrite Z.shiftl_1_l in *. lia.
      * intros ->. split; [| vm_compute; reflexivity].
        destruct (create_number_int64_outside kMaxInt) as (-> & _ & _); [lia |].
        reflexivity.
  - apply number_to_double_float.
  - intros v Hv i. subst i. split; [apply number_to_double_int, Hv |].
    split; [| apply Hexact, Hv].
    intros Heq. destruct (Hexact v Hv) as (Hfin & _).
    pose proof (is_int_not_float v Hv) as Hnf.
    rewrite is_float_eq, Heq, Hfin, orb_true_r in Hnf. discriminate.
  - intros Hl Hr. pose proof (is_int_not_float left Hl) as Hlf.
    rewrite Hmixed.
    + rewrite (number_to_double_int left Hl), (number_to_double_float right Hr).
      reflexivity.
    + destruct (charly_is_int right) eqn:Hri; [| apply andb_false_r].
      apply is_int_not_float in Hri. congruence.
  - intros Hl Hr. rewrite Hmixed.
    + rewrite (number_to_double_float left Hl), (number_to_double_int right Hr).
      reflexivity.
    + destruct (charly_is_int left) eqn:Hli; [| reflexivity].
      apply is_int_not_float in Hli. congruence.
  - intros Hl Hr. rewrite Hmixed.
    + rewrite (number_to_double_float left Hl), (number_to_double_float right Hr).
      reflexivity.
    + destruct (charly_is_int left) eqn:Hli; [| reflexivity].
      apply is_int_not_float in Hli. congruence.
Qed.

(** ** Immediate strings *)

Lemma le_bytes_word (buf : list Z) :
  length buf = 8%nat -> Forall is_byte buf -> le_bytes (le_word buf) = buf.
Proof.
  intros Hlen Hb.
  do 9 (destruct buf as [| ? buf]; try discriminate Hlen).
  repeat (apply Forall_cons_1 in Hb as [? Hb]). unfold is_byte in *.
  unfold le_bytes.
  cbn [map seq le_word Z.of_nat Pos.of_succ_nat Pos.succ Z.mul Pos.mul Pos.add].
  repeat f_equal; zdm.
Qed.

(** Writing a buffer of eight bytes as a word and reading the word's
    bytes back gives the buffer, in either byte order. *)
Lemma word_bytes_word (big_endian : bool) (buf : list Z) :
  length buf = 8%nat -> Forall is_byte buf ->
  word_bytes big_endian (bytes_word big_endian buf) = buf.
Proof.
  intros Hlen Hb. unfold word_bytes, bytes_word. destruct big_endian.
  - rewrite le_bytes_word.
    + apply rev_involutive.
    + rewrite length_rev. exact Hlen.
    + apply Forall_rev, Hb.
  - apply le_bytes_word; assumption.
Qed.

Lemma signature_le_word (b0 b1 b2 b3 b4 b5 b6 b7 : Z) :
  Forall is_byte [b0; b1; b2; b3; b4; b5; b6; b7] ->
  signature (le_word [b0; b1; b2; b3; b4; b5; b6; b7]) = b6 + 256 * b7.
Proof.
  intros Hb. repeat (apply Forall_cons_1 in Hb as [? Hb]). unfold is_byte in *.
  unfold signature. cbn [le_word]. zdm.
Qed.

Lemma immediate_not_hstring (m : Memory) (v : VALUE) :
  charly_is_pstring v = true \/ charly_is_istring v = true ->
  charly_is_hstring m v = Some false.
Proof.
  intros H. unfold charly_is_hstring, charly_is_heap_type, charly_is_on_heap.
  replace (charly_is_ptr v) with false; [reflexivity |].
  symmetry. rewrite is_ptr_signature. apply Z.eqb_neq.
  rewrite is_pstring_signature, is_istring_signature in H.
  destruct H as [H%Z.eqb_eq | H%Z.eqb_eq]; rewrite H; discriminate.
Qed.

Lemma le_bytes_pstring : le_bytes kSignaturePString = [0; 0; 0; 0; 0; 0; 254; 127].
Proof. vm_compute. reflexivity. Qed.

Lemma le_bytes_istring : le_bytes kSignatureIString = [0; 0; 0; 0; 0; 0; 255; 127].
Proof. vm_compute. reflexivity. Qed.

(** What the round trip of a short string says, for a buffer [buf] that
    [charly_create_istring] has filled from the [n] bytes of [s]. *)
Lemma istring_readback (big_endian : bool) (m : Memory) (s buf : list Z)
    (n : nat) (packed : bool) :
  length buf = 8%nat -> Forall is_byte buf ->
  signature (le_word (if big_endian then rev buf else buf))
    = (if packed then 0x7ffe else 0x7fff) ->
  (packed = false -> buf !! (if big_endian then 2 else 5)%nat = Some (Z.of_nat n)) ->
  (packed = true -> n = 6%nat) ->
  take n (drop (if big_endian then (if packed then 2 else 3) else 0)%nat buf) = s ->
  let v := bytes_word big_endian buf in
  (if packed then charly_is_pstring v = true else charly_is_istring v = true) /\
  charly_string_length big_endian m v = Some (Z.of_nat n) /\
  exists data, charly_string_data big_endian m v = Some (Some data) /\
               take n data = s.
Proof.
  intros Hlen Hb Hsig Hl Hp Hdata v.
  assert (Hps : charly_is_pstring v = packed).
  { rewrite is_pstring_signature. unfold v, bytes_word. rewrite Hsig.
    destruct packed; reflexivity. }
  assert (His : charly_is_istring v = negb packed).
  { rewrite is_istring_signature. unfold v, bytes_word. rewrite Hsig.
    destruct packed; reflexivity. }
  assert (Hh : charly_is_hstring m v = Some false).
  { apply immediate_not_hstring. rewrite Hps, His. destruct packed; auto. }
  split; [destruct packed; assumption |]. split.
  - unfold charly_string_length. rewrite Hps, His.
    destruct packed; cbn [negb].
    + rewrite (Hp eq_refl). reflexivity.
    + unfold v. rewrite word_bytes_word by assumption. apply Hl. reflexivity.
  - unfold charly_string_data. rewrite Hh. cbn. rewrite Hps, His.
    unfold v. rewrite word_bytes_word by assumption.
    destruct big_endian; cbn [negb]; [destruct packed; cbn [negb] |];
      eexists; (split; [reflexivity |]); exact Hdata.
Qed.

Ltac bytes_in_range :=
  repeat (apply Forall_cons; split; [assumption || (unfold is_byte; lia) |]);
  apply Forall_nil_2.

(** C8. For every byte sequence [s] of length 0 to 6,
    [charly_create_istring s |s|] is an immediate-encoded value: the
    packed form for length 6 and the inline form, which carries the
    length byte, for lengths 0 to 5.  [charly_string_length] of that
    value is [|s|], and the buffer [charly_string_data] points to starts
    with the bytes of [s].  This holds on either byte order. *)
Theorem istring_roundtrip (big_endian : bool) (m : Memory) (s : list Z) :
  (length s <= 6)%nat -> Forall is_byte s ->
  exists v,
    charly_create_istring big_endian s (Z.of_nat (length s)) = Some v /\
    (if (length s =? 6)%nat then charly_is_pstring v = true
     else charly_is_istring v = true) /\
    charly_string_length big_endian m v = Some (Z.of_nat (length s)) /\
    exists data, charly_string_data big_endian m v = Some (Some data) /\
                 take (length s) data = s.
Proof.
  intros Hlen Hb.
  destruct s as [| b0 [| b1 [| b2 [| b3 [| b4 [| b5 [| b6 s]]]]]]];
    cbn in Hlen; try lia;
    repeat (apply Forall_cons_1 in Hb as [? Hb]);
    unfold charly_create_istring, word_bytes;
    rewrite ?le_bytes_pstring, ?le_bytes_istring;
    destruct big_endian; cbn -[bytes_word Z.of_nat];
    (eexists; split; [reflexivity |]);
    unfold insert, list_insert; cbn -[bytes_word Z.of_nat];
    match goal with
    | |- (charly_is_pstring _ = true) /\ _ =>
        apply (istring_readback _ m _ _ _ true)
    | |- (charly_is_istring _ = true) /\ _ =>
        apply (istring_readback _ m _ _ _ false)
    end;
    try reflexivity; try discriminate; try bytes_in_range;
    try (cbn [rev app]; rewrite signature_le_word by bytes_in_range;
         unfold is_byte in *; lia).
Qed.

(** ** The mark phase *)

Lemma mark_children_set_mark (b : bool) (c : MemoryCell) :
  mark_children (set_mark b c) = mark_children c.
Proof. destruct c as [[] d]; destruct d; reflexivity. Qed.

Lemma set_mark_idem (b b' : bool) (c : MemoryCell) :
  set_mark b (set_mark b' c) = set_mark b c.
Proof. reflexivity. Qed.

Lemma set_mark_same (c : MemoryCell) : set_mark (mark (basic c)) c = c.
Proof. destruct c as [[] d]; reflexivity. Qed.

Lemma marks_extend_refl (m : Memory) : marks_extend m m.
Proof. intros a. destruct (m !! a); auto. Qed.

Lemma marks_extend_trans (m1 m2 m3 : Memory) :
  marks_extend m1 m2 -> marks_extend m2 m3 -> marks_extend m1 m3.
Proof.
  intros H12 H23 a. specialize (H12 a). specialize (H23 a).
  destruct (m1 !! a) as [c |].
  - destruct H12 as [H | H]; rewrite H in H23; destruct H23 as [H' | H'];
      rewrite H'; auto.
  - rewrite H12 in H23. exact H23.
Qed.

Lemma marks_extend_insert (m : Memory) (a : Z) (c : MemoryCell) :
  m !! a = Some c -> marks_extend m (<[a := set_mark true c]> m).
Proof.
  intros Hc b. destruct (decide (a = b)) as [<- | Hne].
  - rewrite Hc, lookup_insert_eq. auto.
  - rewrite lookup_insert_ne by exact Hne. destruct (m !! b); auto.
Qed.

Lemma marks_extend_lookup (m m' : Memory) (a : Z) (c' : MemoryCell) :
  marks_extend m m' -> m' !! a = Some c' ->
  exists c, m !! a = Some c /\ (c' = c \/ c' = set_mark true c).
Proof.
  intros Hext Hc'. specialize (Hext a). destruct (m !! a) as [c |].
  - exists c. split; [reflexivity |].
    destruct Hext as [H | H]; rewrite H in Hc'; injection Hc' as <-; auto.
  - congruence.
Qed.

Lemma marks_extend_children (m m' : Memory) (a : Z) :
  marks_extend m m' ->
  mark_children <$> (m' !! a) = mark_children <$> (m !! a).
Proof.
  intros Hext. specialize (Hext a). destruct (m !! a) as [c |].
  - destruct Hext as [-> | ->]; cbn; [| rewrite mark_children_set_mark]; reflexivity.
  - rewrite Hext. reflexivity.
Qed.

Lemma marks_extend_marked (m m' : Memory) (a : Z) :
  marks_extend m m' -> marked m a -> marked m' a.
Proof.
  intros Hext (c & Hc & Hm). specialize (Hext a). rewrite Hc in Hext.
  destruct Hext as [H | H]; eexists; (split; [exact H |]); [exact Hm | reflexivity].
Qed.

Lemma marks_extend_is_Some (m m' : Memory) (a : Z) :
  marks_extend m m' -> is_Some (m' !! a) <-> is_Some (m !! a).
Proof.
  intros Hext. specialize (Hext a). destruct (m !! a) as [c |].
  - destruct Hext as [-> | ->]; split; eauto.
  - rewrite Hext. reflexivity.
Qed.

Lemma marks_extend_ptr_ok (m m' : Memory) (value : VALUE) :
  marks_extend m m' -> ptr_ok m value -> ptr_ok m' value.
Proof.
  intros Hext Hok a Ha. apply (marks_extend_is_Some m m' a Hext), Hok, Ha.
Qed.

Lemma marks_extend_closed (m m' : Memory) :
  marks_extend m m' -> closed m -> closed m'.
Proof.
  intros Hext Hcl a c' value Hc' Hv.
  destruct (marks_extend_lookup m m' a c' Hext Hc') as (c & Hc & Heq).
  apply (marks_extend_ptr_ok m m' value Hext), (Hcl a c value Hc).
  destruct Heq as [-> | ->]; [| rewrite mark_children_set_mark in Hv]; exact Hv.
Qed.

Lemma marks_extend_unmarked_count (m m' : Memory) :
  marks_extend m m' -> (unmarked_count m' <= unmarked_count m)%nat.
Proof.
  intros Hext. unfold unmarked_count. apply map_subseteq_size.
  apply map_filter_strong_subseteq_ext. intros a c' [Hm Hc']. cbn in Hm.
  destruct (marks_extend_lookup m m' a c' Hext Hc') as (c & Hc & [-> | ->]).
  - auto.
  - discriminate.
Qed.

Lemma unmarked_count_insert (m : Memory) (a : Z) (c : MemoryCell) :
  m !! a = Some c -> mark (basic c) = false ->
  S (unmarked_count (<[a := set_mark true c]> m)) = unmarked_count m.
Proof.
  intros Hc Hm. unfold unmarked_count.
  rewrite map_filter_insert_False by (cbn; discriminate).
  rewrite map_filter_delete.
  assert (Hin : filter (fun kc : Z * MemoryCell => mark (basic kc.2) = false) m !! a
                = Some c)
    by (apply map_lookup_filter_Some; auto).
  rewrite map_size_delete, Hin.
  assert (Hpos : size (filter (fun kc : Z * MemoryCell => mark (basic kc.2) = false) m)
                 <> 0%nat)
    by (apply map_size_ne_0_lookup_2 with a; eauto).
  lia.
Qed.

Lemma unmarked_count_size (m : Memory) : (unmarked_count m <= size m)%nat.
Proof. apply map_subseteq_size, map_filter_subseteq. Qed.

(** Reachability only depends on what the cells point to. *)
Lemma reachable_ext (m m' : Memory) (roots : list VALUE) (a : Z) :
  (forall b, mark_children <$> (m' !! b) = mark_children <$> (m !! b)) ->
  reachable m roots a -> reachable m' roots a.
Proof.
  intros Hch. induction 1 as [value a Hin Hp | a c value b _ IH Hc Hv Hp].
  - eapply reach_root; eauto.
  - specialize (Hch a). rewrite Hc in Hch. cbn in Hch.
    destruct (m' !! a) as [c' |] eqn:Hc'; [| discriminate].
    injection Hch as Hch.
    eapply reach_child; [exact IH | exact Hc' | | exact Hp].
    rewrite Hch. exact Hv.
Qed.

Lemma reachable_roots (m : Memory) (roots roots' : list VALUE) (a : Z) :
  (forall value b, value ∈ roots' -> points_to value b -> reachable m roots b) ->
  reachable m roots' a -> reachable m roots a.
Proof.
  intros Hr. induction 1 as [value a Hin Hp | a c value b _ IH Hc Hv Hp].
  - eapply Hr; eauto.
  - eapply reach_child; eauto.
Qed.

Lemma marked_dec (m : Memory) (a : Z) : {marked m a} + {~ marked m a}.
Proof.
  destruct (m !! a) as [c |] eqn:Hc.
  - destruct (mark (basic c)) eqn:Hm.
    + left. exists c. auto.
    + right. intros (c' & Hc' & Hm'). congruence.
  - right. intros (c' & Hc' & _). congruence.
Qed.


Lemma mark_unfold (fuel : nat) (m : Memory) (value : VALUE) :
  GarbageCollector_mark fuel m value =
  if negb (charly_is_ptr value) then Some m
  else if charly_as_pointer value =? 0 then Some m
  else
    c ← charly_as_basic m value;
    if mark (basic c) then Some m
    else
      match fuel with
      | O => None
      | S fuel' =>
        foldl (fun acc child => m' ← acc; GarbageCollector_mark fuel' m' child)
              (Some (<[charly_as_pointer value := set_mark true c]> m))
              (mark_children c)
      end.
Proof. destruct fuel; reflexivity. Qed.

Lemma mark_post_refl (m : Memory) (values : list VALUE) :
  (forall value a, value ∈ values -> points_to value a -> marked m a) ->
  mark_post m values m.
Proof.
  intros H. split; [apply marks_extend_refl |]. split; [exact H |].
  intros a Ha Hn. contradiction.
Qed.

Lemma children_marked_extend (m m' : Memory) (a : Z) :
  marks_extend m m' -> children_marked m a -> children_marked m' a.
Proof.
  intros Hext Hch c' child b Hc' Hin Hp.
  destruct (marks_extend_lookup m m' a c' Hext Hc') as (c & Hc & Heq).
  apply (marks_extend_marked m m' b Hext), (Hch c child b Hc); [| exact Hp].
  destruct Heq as [-> | ->]; [| rewrite mark_children_set_mark in Hin]; exact Hin.
Qed.

(** Marking a list of values, given that marking one value is right. *)
Lemma mark_values_correct (fuel : nat) :
  (forall m value,
     closed m -> ptr_ok m value -> (unmarked_count m <= fuel)%nat ->
     exists m', GarbageCollector_mark fuel m value = Some m' /\
                mark_post m [value] m') ->
  forall values m,
    closed m -> Forall (ptr_ok m) values -> (unmarked_count m <= fuel)%nat ->
    exists m',
      foldl (fun acc value => m' ← acc; GarbageCollector_mark fuel m' value)
            (Some m) values = Some m' /\
      mark_post m values m'.
Proof.
  intros Hone values.
  induction values as [| value values IH]; intros m Hcl Hok Hfuel.
  - exists m. split; [reflexivity |]. apply mark_post_refl.
    intros value a Hin. inversion Hin.
  - apply Forall_cons_1 in Hok as [Hv Hvs].
    destruct (Hone m value Hcl Hv Hfuel) as (m1 & Hm1 & Hext1 & Hroot1 & Hnew1).
    destruct (IH m1) as (m' & Hm' & Hext' & Hroot' & Hnew').
    { eapply marks_extend_closed; eauto. }
    { eapply Forall_impl; [exact Hvs |]. intros x. apply marks_extend_ptr_ok, Hext1. }
    { pose proof (marks_extend_unmarked_count m m1 Hext1). lia. }
    exists m'. split; [cbn; rewrite Hm1; exact Hm' |].
    split; [eapply marks_extend_trans; eauto |]. split.
    + intros x a Hin Hp. apply elem_of_cons in Hin as [-> | Hin].
      * eapply marks_extend_marked; [exact Hext' |].
        eapply Hroot1; [apply list_elem_of_here | exact Hp].
      * eapply Hroot'; eauto.
    + intros a Ha Hn. destruct (marked_dec m1 a) as [H1 | H1].
      * destruct (Hnew1 a H1 Hn) as [Hr Hch]. split.
        -- eapply reachable_roots; [| exact Hr].
           intros x b Hx Hp. apply list_elem_of_singleton in Hx as ->.
           eapply reach_root; [apply list_elem_of_here | exact Hp].
        -- eapply children_marked_extend; eauto.
      * destruct (Hnew' a Ha H1) as [Hr Hch]. split; [| exact Hch].
        apply (reachable_ext m1 m); [intros b; symmetry; apply marks_extend_children, Hext1 |].
        eapply reachable_roots; [| exact Hr].
        intros x b Hx Hp. eapply reach_root; [apply list_elem_of_further, Hx | exact Hp].
Qed.

(** Marking one value: with fuel for every unmarked cell it returns, and
    what it returns is right. *)
Lemma mark_correct (fuel : nat) :
  forall m value,
    closed m -> ptr_ok m value -> (unmarked_count m <= fuel)%nat ->
    exists m', GarbageCollector_mark fuel m value = Some m' /\
               mark_post m [value] m'.
Proof.
  induction fuel as [| fuel IH]; intros m value Hcl Hok Hfuel;
    rewrite mark_unfold;
    (destruct (charly_is_ptr value) eqn:Hp; cbn [negb];
     [| exists m; split; [reflexivity |]; apply mark_post_refl;
        intros x a Hx%list_elem_of_singleton [Hp' _]; congruence]);
    (destruct (Z.eqb_spec (charly_as_pointer value) 0) as [H0 | H0];
     [exists m; split; [reflexivity |]; apply mark_post_refl;
      intros x a Hx%list_elem_of_singleton (_ & Ha & Hne); congruence |]);
    (assert (Hpt : points_to value (charly_as_pointer value))
       by (repeat split; assumption));
    destruct (Hok _ Hpt) as [c Hc]; unfold charly_as_basic; rewrite Hc; cbn;
    (destruct (mark (basic c)) eqn:Hm;
     [exists m; split; [reflexivity |]; apply mark_post_refl;
      intros x a Hx%list_elem_of_singleton (_ & Ha & _); subst x a;
      exists c; auto |]);
    pose proof (unmarked_count_insert m _ c Hc Hm) as Hcount; [lia |].
  set (a := charly_as_pointer value) in *.
  set (m1 := <[a := set_mark true c]> m) in *.
  assert (Hext1 : marks_extend m m1) by (apply marks_extend_insert, Hc).
  destruct (mark_values_correct fuel IH (mark_children c) m1)
    as (m' & Hm' & Hext' & Hroot' & Hnew').
  { eapply marks_extend_closed; eauto. }
  { apply Forall_forall. intros x Hx.
    eapply marks_extend_ptr_ok; [exact Hext1 |]. eapply Hcl; eauto. }
  { lia. }
  exists m'. split; [exact Hm' |].
  split; [eapply marks_extend_trans; eauto |]. split.
  - intros x b Hx%list_elem_of_singleton (_ & Hb & _). subst x b.
    eapply marks_extend_marked; [exact Hext' |].
    exists (set_mark true c). split; [apply lookup_insert_eq | reflexivity].
  - intros x Hx Hn. destruct (decide (x = a)) as [-> | Hne].
    + split; [eapply reach_root; [apply list_elem_of_here | exact Hpt] |].
      intros c' child b Hc' Hin Hpb.
      destruct (marks_extend_lookup m1 m' a c' Hext' Hc') as (c1 & Hc1 & Heq).
      unfold m1 in Hc1. rewrite lookup_insert_eq in Hc1. injection Hc1 as <-.
      eapply Hroot'; [| exact Hpb].
      destruct Heq as [-> | ->]; rewrite ?mark_children_set_mark in Hin; exact Hin.
    + assert (H1 : ~ marked m1 x).
      { intros (c1 & Hc1 & Hm1). apply Hn. exists c1.
        unfold m1 in Hc1. rewrite lookup_insert_ne in Hc1 by congruence. auto. }
      destruct (Hnew' x Hx H1) as [Hr Hch]. split; [| exact Hch].
      apply (reachable_ext m1 m) in Hr;
        [| intros b; symmetry; apply marks_extend_children, Hext1].
      eapply reachable_roots; [| exact Hr].
      intros child b Hin Hpb.
      eapply reach_child; [| exact Hc | exact Hin | exact Hpb].
      eapply reach_root; [apply list_elem_of_here | exact Hpt].
Qed.


(** Marking the root set of a heap without marks: it returns, and it
    marks exactly the reachable cells. *)
Lemma mark_all_correct (m : Memory) (roots : list VALUE) :
  closed m -> Forall (ptr_ok m) roots ->
  (forall a c, m !! a = Some c -> mark (basic c) = false) ->
  exists m',
    mark_all m roots = Some m' /\ marks_extend m m' /\
    (forall a, marked m' a <-> reachable m roots a).
Proof.
  intros Hcl Hok Hun.
  destruct (mark_values_correct (size m) (mark_correct (size m)) roots m Hcl Hok
              (unmarked_count_size m)) as (m' & Hm' & Hext & Hroot & Hnew).
  exists m'. split; [exact Hm' |]. split; [exact Hext |].
  assert (Hnone : forall a, ~ marked m a).
  { intros a (c & Hc & Hm). rewrite (Hun a c Hc) in Hm. discriminate. }
  intros a. split.
  - intros Ha. apply (Hnew a Ha (Hnone a)).
  - induction 1 as [value a Hin Hp | a c value b _ IH Hc Hv Hp].
    + eapply Hroot; eauto.
    + destruct (Hnew a IH (Hnone a)) as [_ Hch].
      pose proof (marks_extend_children m m' a Hext) as Heq.
      rewrite Hc in Heq. cbn in Heq.
      destruct (m' !! a) as [c' |] eqn:Hc'; [| discriminate].
      injection Heq as Heq.
      eapply Hch; [exact Hc' | | exact Hp]. rewrite Heq. exact Hv.
Qed.

(** ** Pointers to cells *)

Lemma create_pointer_cell (a : Z) :
  0 < a <= kMaxPointer ->
  charly_is_ptr (charly_create_pointer a) = true /\
  charly_as_pointer (charly_create_pointer a) = a.
Proof.
  unfold kMaxPointer. intros Ha. unfold charly_create_pointer.
  destruct (Z.eqb_spec a 0); [lia |].
  replace (a >? kMaxPointer) with false
    by (symmetry; unfold kMaxPointer; rewrite Z.gtb_ltb; apply Z.ltb_ge; lia).
  unfold kMaskPointer. rewrite Z.land_comm, land_low48.
  rewrite Z.mod_small by lia.
  change kSignaturePointer with (0xfff8 * 2 ^ 48).
  rewrite lor_signature_payload by lia. split.
  - rewrite is_ptr_signature. unfold signature. apply Z.eqb_eq. zdm.
  - unfold charly_as_pointer, kMaskPointer. rewrite land_low48. zdm.
Qed.

Lemma is_dead_cell (m : Memory) (a : Z) (c : MemoryCell) :
  0 < a <= kMaxPointer -> m !! a = Some c ->
  charly_is_dead m (charly_create_pointer a) = Some (cell_type c =? kTypeDead).
Proof.
  intros Ha Hc. destruct (create_pointer_cell a Ha) as [Hp Hq].
  unfold charly_is_dead, charly_is_heap_type, charly_is_on_heap, charly_as_basic.
  rewrite Hp, Hq, Hc. reflexivity.
Qed.

(** ** The freelist *)

Lemma freelist_insert_other (m : Memory) (a : Z) (x : MemoryCell) p l :
  a ∉ l -> freelist m p l -> freelist (<[a := x]> m) p l.
Proof.
  intros Hnot. induction 1 as [| p c next rest Hp Hc Hd _ IH].
  - constructor.
  - apply not_elem_of_cons in Hnot as [Hne Hnot].
    econstructor; [exact Hp | | exact Hd | apply IH, Hnot].
    rewrite lookup_insert_ne by congruence. exact Hc.
Qed.

Lemma freelist_insert_same_data (m : Memory) (a : Z) (c x : MemoryCell) p l :
  m !! a = Some c -> data x = data c ->
  freelist m p l -> freelist (<[a := x]> m) p l.
Proof.
  intros Ha Hx. induction 1 as [| p c' next rest Hp Hc Hd _ IH].
  - constructor.
  - destruct (decide (a = p)) as [<- | Hne].
    + econstructor; [exact Hp | apply lookup_insert_eq | | exact IH].
      rewrite Hx. congruence.
    + econstructor; [exact Hp | | exact Hd | exact IH].
      rewrite lookup_insert_ne by congruence. exact Hc.
Qed.

Lemma freelist_dead (m : Memory) p l a c :
  freelist m p l -> a ∈ l -> m !! a = Some c -> cell_type c = kTypeDead.
Proof.
  induction 1 as [| p c' next rest Hp Hc Hd _ IH]; intros Hin Ha.
  - inversion Hin.
  - apply elem_of_cons in Hin as [-> | Hin]; [| auto].
    rewrite Hc in Ha. injection Ha as <-.
    unfold cell_type. rewrite Hd. reflexivity.
Qed.


(** ** The sweep phase *)

Lemma sweep_cell_step (w : Machine) (n a : Z) (c : MemoryCell) :
  0 < a <= kMaxPointer -> memory w !! a = Some c ->
  sweep_cell (Some (w, n)) a =
  Some (if mark (basic c)
        then (set_memory (<[a := set_mark false c]> (memory w)) w, n)
        else if cell_type c =? kTypeDead then (w, n)
        else (mkMachine
                (<[a := mkCell zero_basic (DFree (free_cell (gc w)))]> (memory w))
                (gc_after_free (gc w) a) (vm w) (effects w ++ clean c),
              n + 1)).
Proof.
  intros Ha Hc. destruct (create_pointer_cell a Ha) as [Hp Hq].
  unfold sweep_cell. cbn. unfold charly_as_basic at 1. rewrite Hq, Hc. cbn.
  destruct (mark (basic c)); [reflexivity |].
  rewrite (is_dead_cell _ a c Ha Hc). cbn.
  destruct (cell_type c =? kTypeDead); cbn; [reflexivity |].
  unfold deallocate, charly_as_basic. rewrite Hq, Hc. reflexivity.
Qed.

Lemma to_free_insert_ne (m : Memory) (a x : Z) (c : MemoryCell) :
  x <> a -> to_free (<[a := c]> m) x = to_free m x.
Proof. intros Hne. unfold to_free. rewrite lookup_insert_ne by congruence. reflexivity. Qed.

Lemma freed_cells_insert (m : Memory) (a : Z) (c : MemoryCell) (cells : list Z) :
  a ∉ cells -> freed_cells (<[a := c]> m) cells = freed_cells m cells.
Proof.
  intros Hnot. unfold freed_cells. apply filter_ext_in. intros x Hx.
  apply to_free_insert_ne. intros ->. apply Hnot, list_elem_of_In, Hx.
Qed.

Lemma freed_cells_subset (m : Memory) (cells : list Z) (a : Z) :
  a ∈ freed_cells m cells <-> a ∈ cells /\ to_free m a = true.
Proof.
  unfold freed_cells. rewrite !list_elem_of_In. apply filter_In.
Qed.

Lemma clean_at_insert (m : Memory) (a : Z) (c : MemoryCell) (cells : list Z) :
  a ∉ cells ->
  map (clean_at (<[a := c]> m)) (freed_cells m cells)
  = map (clean_at m) (freed_cells m cells).
Proof.
  intros Hnot. apply map_ext_in. intros x Hx.
  apply list_elem_of_In, freed_cells_subset in Hx as [Hx _].
  unfold clean_at. rewrite lookup_insert_ne; [reflexivity |].
  intros ->. contradiction.
Qed.

(** The sweep over a list of distinct cells.  It returns; it touches no
    other cell; each cell of the list becomes what [swept] says; the
    cells it frees are, in order, those that were neither marked nor
    dead; they are counted, their [clean] effects are appended, and
    they are pushed one after the other onto the freelist. *)
Lemma sweep_correct (cells : list Z) :
  forall (w : Machine) (n : Z),
    NoDup cells ->
    (forall a, a ∈ cells -> 0 < a <= kMaxPointer /\ is_Some (memory w !! a)) ->
    exists w',
      foldl sweep_cell (Some (w, n)) cells
        = Some (w', n + Z.of_nat (length (freed_cells (memory w) cells))) /\
      vm w' = vm w /\
      gc w' = foldl gc_after_free (gc w) (freed_cells (memory w) cells) /\
      effects w' = effects w
                   ++ concat (map (clean_at (memory w)) (freed_cells (memory w) cells)) /\
      (forall a, a ∉ cells -> memory w' !! a = memory w !! a) /\
      (forall a c, a ∈ cells -> memory w !! a = Some c ->
                   exists c', memory w' !! a = Some c' /\ swept c c') /\
      (forall l0, freelist (memory w) (free_cell (gc w)) l0 ->
                  freelist (memory w') (free_cell (gc w'))
                           (rev (freed_cells (memory w) cells) ++ l0)).
Proof.
  induction cells as [| a rest IH]; intros w n Hnd Hcells.
  - exists w. cbn. rewrite Z.add_0_r, app_nil_r. repeat split; auto.
    intros a c Hin. inversion Hin.
  - apply NoDup_cons in Hnd as [Hnot Hnd].
    destruct (Hcells a (list_elem_of_here _ _)) as [Ha [c Hc]].
    cbn [foldl]. rewrite (sweep_cell_step w n a c Ha Hc).
    assert (Hrest : forall (x : MemoryCell) b,
               b ∈ rest -> 0 < b <= kMaxPointer /\ is_Some (<[a := x]> (memory w) !! b)).
    { intros x b Hb. destruct (Hcells b (list_elem_of_further _ _ _ Hb)) as [Hr Hs].
      split; [exact Hr |]. rewrite lookup_insert_ne; [exact Hs |].
      intros ->. contradiction. }
    assert (Hfree : freed_cells (memory w) (a :: rest) =
                    if to_free (memory w) a then a :: freed_cells (memory w) rest
                    else freed_cells (memory w) rest) by reflexivity.
    assert (Hto : to_free (memory w) a
                  = negb (mark (basic c)) && negb (cell_type c =? kTypeDead))
      by (unfold to_free; rewrite Hc; reflexivity).
    rewrite Hfree, Hto.
    destruct (mark (basic c)) eqn:Hm; cbn [negb andb];
      [| destruct (cell_type c =? kTypeDead) eqn:Hd; cbn [negb andb]].
    + (* marked: the mark is cleared *)
      destruct (IH (set_memory (<[a := set_mark false c]> (memory w)) w) n Hnd
                  (Hrest _)) as (w' & Hrun & Hvm & Hgc & Heff & Hout & Hin & Hfl).
      cbn [memory set_memory gc vm effects] in *.
      rewrite freed_cells_insert in * by exact Hnot.
      rewrite clean_at_insert in Heff by exact Hnot.
      exists w'. repeat split; try assumption.
      * intros x Hx. apply not_elem_of_cons in Hx as [Hxa Hx].
        rewrite (Hout x Hx). apply lookup_insert_ne. congruence.
      * intros x cx Hx Hcx. apply elem_of_cons in Hx as [-> | Hx].
        -- rewrite (Hout a Hnot), lookup_insert_eq.
           rewrite Hc in Hcx. injection Hcx as <-.
           eexists. split; [reflexivity |]. unfold swept. rewrite Hm. reflexivity.
        -- apply (Hin x cx Hx). rewrite lookup_insert_ne; [exact Hcx |].
           intros ->. contradiction.
      * intros l0 Hl0. apply Hfl.
        eapply freelist_insert_same_data; [exact Hc | reflexivity | exact Hl0].
    + (* dead and unmarked: left alone *)
      destruct (IH w n Hnd) as (w' & Hrun & Hvm & Hgc & Heff & Hout & Hin & Hfl).
      { intros b Hb. apply Hcells, list_elem_of_further, Hb. }
      exists w'. repeat split; try assumption.
      * intros x Hx. apply not_elem_of_cons in Hx as [Hxa Hx]. apply Hout, Hx.
      * intros x cx Hx Hcx. apply elem_of_cons in Hx as [-> | Hx]; [| eauto].
        rewrite (Hout a Hnot). exists cx. split; [exact Hcx |].
        rewrite Hc in Hcx. injection Hcx as <-.
        unfold swept. rewrite Hm, Hd. reflexivity.
    + (* neither: deallocated *)
      destruct (IH (mkMachine
                      (<[a := mkCell zero_basic (DFree (free_cell (gc w)))]> (memory w))
                      (gc_after_free (gc w) a) (vm w) (effects w ++ clean c))
                   (n + 1) Hnd (Hrest _))
        as (w' & Hrun & Hvm & Hgc & Heff & Hout & Hin & Hfl).
      cbn [memory gc vm effects] in *.
      rewrite freed_cells_insert in * by exact Hnot.
      rewrite clean_at_insert in Heff by exact Hnot.
      exists w'. repeat split; try assumption.
      * rewrite Hrun. f_equal. f_equal. cbn [length]. lia.
      * rewrite Heff. cbn [map concat].
        replace (clean_at (memory w) a) with (clean c)
          by (unfold clean_at; rewrite Hc; reflexivity).
        rewrite <- app_assoc. reflexivity.
      * intros x Hx. apply not_elem_of_cons in Hx as [Hxa Hx].
        rewrite (Hout x Hx). apply lookup_insert_ne. congruence.
      * intros x cx Hx Hcx. apply elem_of_cons in Hx as [-> | Hx].
        -- rewrite (Hout a Hnot), lookup_insert_eq.
           rewrite Hc in Hcx. injection Hcx as <-.
           eexists. split; [reflexivity |]. unfold swept. rewrite Hm, Hd. eauto.
        -- apply (Hin x cx Hx). rewrite lookup_insert_ne; [exact Hcx |].
           intros ->. contradiction.
      * intros l0 Hl0. cbn [rev]. rewrite <- app_assoc. cbn [app].
        apply Hfl. cbn [free_cell gc_after_free].
        econstructor; [lia | apply lookup_insert_eq | reflexivity |].
        apply freelist_insert_other; [| exact Hl0].
        intros Hal. pose proof (freelist_dead _ _ _ a c Hl0 Hal Hc) as Hdead.
        rewrite Hdead in Hd. discriminate.
Qed.


(** ** A whole collection *)

Lemma gc_after_free_fixed (g : GarbageCollector) (cells : list Z) :
  config (foldl gc_after_free g cells) = config g /\
  heaps (foldl gc_after_free g cells) = heaps g /\
  temporaries (foldl gc_after_free g cells) = temporaries g.
Proof.
  revert g. induction cells as [| a cells IH]; intros g; [auto |].
  cbn. destruct (IH (gc_after_free g a)) as (-> & -> & ->). auto.
Qed.

Lemma cell_type_set_mark (b : bool) (c : MemoryCell) :
  cell_type (set_mark b c) = cell_type c.
Proof. reflexivity. Qed.

Lemma clean_set_mark (b : bool) (c : MemoryCell) : clean (set_mark b c) = clean c.
Proof. destruct c as [[] d]; destruct d; reflexivity. Qed.

Section CollectFacts.

Context (sizeof_MemoryCell : Z).

(** Everything the two phases give for one collection of a heap that is
    in order; [m'] is the memory between the phases. *)
Lemma collect_facts (w : Machine) :
  heap_ok sizeof_MemoryCell w ->
  exists m' w',
    let roots := collect_roots w in
    let freed := freed_cells m' (cell_addresses sizeof_MemoryCell (gc w)) in
    collect sizeof_MemoryCell w = Some (w', Z.of_nat (length freed)) /\
    vm w' = (if running (vm w) then drain_pop_queue (vm w) else vm w) /\
    gc w' = foldl gc_after_free (gc w) freed /\
    effects w' = effects w ++ concat (map (clean_at (memory w)) freed) /\
    NoDup freed /\
    (forall a, a ∈ freed <->
               exists c, memory w !! a = Some c /\
                         ~ reachable (memory w) roots a /\
                         cell_type c <> kTypeDead) /\
    (forall a, reachable (memory w) roots a \/ ~ reachable (memory w) roots a) /\
    (forall a, memory w !! a = None -> memory w' !! a = None) /\
    (forall a c, memory w !! a = Some c ->
       (reachable (memory w) roots a -> memory w' !! a = Some c) /\
       (cell_type c = kTypeDead -> memory w' !! a = Some c) /\
       (~ reachable (memory w) roots a -> cell_type c <> kTypeDead ->
          exists next, memory w' !! a = Some (mkCell zero_basic (DFree next)))) /\
    (forall l0, freelist (memory w) (free_cell (gc w)) l0 ->
                freelist (memory w') (free_cell (gc w')) (rev freed ++ l0)).
Proof.
  intros [Hnd Hcells Hrange Hun Hcl Hroots].
  destruct (mark_all_correct (memory w) (collect_roots w) Hcl Hroots Hun)
    as (m' & Hmark & Hext & Hreach).
  set (v := if running (vm w) then drain_pop_queue (vm w) else vm w).
  destruct (sweep_correct (cell_addresses sizeof_MemoryCell (gc w))
              (mkMachine m' (gc w) v (effects w)) 0 Hnd)
    as (w' & Hrun & Hvm & Hgc & Heff & Hout & Hin & Hfl).
  { intros a Ha. split; [apply Hrange, Ha |].
    apply (marks_extend_is_Some _ _ a Hext), Hcells, Ha. }
  cbn [memory gc vm effects] in *.
  (* how a cell of [m'] relates to the cell before marking *)
  assert (Hcell : forall a c, memory w !! a = Some c ->
            exists cm, m' !! a = Some cm /\ cell_type cm = cell_type c /\
                       clean cm = clean c /\
                       (mark (basic cm) = true -> cm = set_mark true c) /\
                       (mark (basic cm) = false -> cm = c) /\
                       (mark (basic cm) = true <-> reachable (memory w) (collect_roots w) a)).
  { intros a c Hc. pose proof (Hext a) as Ha. rewrite Hc in Ha.
    pose proof (Hun a c Hc) as Hmc.
    destruct Ha as [Ha | Ha]; eexists; (split; [exact Ha |]);
      rewrite ?cell_type_set_mark, ?clean_set_mark;
      (split; [reflexivity |]); (split; [reflexivity |]).
    - split; [congruence |]. split; [reflexivity |].
      rewrite <- Hreach. split; [congruence |].
      intros (c' & Hc' & Hm'). congruence.
    - split; [reflexivity |]. split; [discriminate |].
      rewrite <- Hreach. split; [intros _; eexists; split; [exact Ha | reflexivity] |].
      reflexivity. }
  assert (Hdec : forall a, reachable (memory w) (collect_roots w) a
                           \/ ~ reachable (memory w) (collect_roots w) a).
  { intros a. destruct (marked_dec m' a) as [H | H]; rewrite <- Hreach; auto. }
  assert (Hfreed : forall a,
            a ∈ freed_cells m' (cell_addresses sizeof_MemoryCell (gc w)) <->
            exists c, memory w !! a = Some c /\
                      ~ reachable (memory w) (collect_roots w) a /\
                      cell_type c <> kTypeDead).
  { intros a. rewrite freed_cells_subset. unfold to_free. split.
    - intros [Ha Hto]. apply Hcells in Ha as [c Hc].
      destruct (Hcell a c Hc) as (cm & Hcm & Hty & _ & _ & _ & Hr).
      rewrite Hcm in Hto. apply andb_true_iff in Hto as [Hm Hd].
      exists c. split; [exact Hc |]. split.
      + rewrite <- Hr. apply negb_true_iff in Hm. congruence.
      + apply negb_true_iff, Z.eqb_neq in Hd. congruence.
    - intros (c & Hc & Hnr & Hd).
      destruct (Hcell a c Hc) as (cm & Hcm & Hty & _ & _ & _ & Hr).
      split; [apply Hcells; eauto |]. rewrite Hcm.
      apply andb_true_iff. split.
      + apply negb_true_iff. destruct (mark (basic cm)); [| reflexivity].
        exfalso. apply Hnr, Hr. reflexivity.
      + apply negb_true_iff, Z.eqb_neq. congruence. }
  exists m', w'. cbv zeta.
  split; [unfold collect; rewrite Hmark; cbn; exact Hrun |].
  split; [exact Hvm |]. split; [exact Hgc |].
  split.
  { rewrite Heff. f_equal. f_equal. apply map_ext_in. intros a Ha.
    apply list_elem_of_In, Hfreed in Ha as (c & Hc & _ & _).
    destruct (Hcell a c Hc) as (cm & Hcm & _ & Hcl' & _).
    unfold clean_at. rewrite Hc, Hcm. exact Hcl'. }
  split; [unfold freed_cells; apply NoDup_ListNoDup, List.NoDup_filter, NoDup_ListNoDup, Hnd |].
  split; [exact Hfreed |]. split; [exact Hdec |].
  split.
  { intros a Ha. rewrite Hout.
    - pose proof (Hext a) as Hx. rewrite Ha in Hx. exact Hx.
    - intros Hin'. apply Hcells in Hin' as [c Hc]. congruence. }
  split; [| intros l0 Hl0; apply Hfl; clear - Hl0 Hext;
            induction Hl0 as [| p c next rest Hp Hc Hd _ IH]; [constructor |];
            pose proof (Hext p) as Hx; rewrite Hc in Hx;
            destruct Hx as [Hx | Hx];
            econstructor; [exact Hp | exact Hx | exact Hd | exact IH
                          | exact Hp | exact Hx | exact Hd | exact IH]].
  intros a c Hc.
  destruct (Hcell a c Hc) as (cm & Hcm & Hty & _ & Hmt & Hmf & Hr).
  assert (Ha : a ∈ cell_addresses sizeof_MemoryCell (gc w)) by (apply Hcells; eauto).
  destruct (Hin a cm Ha Hcm) as (c' & Hc' & Hsw). unfold swept in Hsw.
  pose proof (Hun a c Hc) as Hmc.
  destruct (mark (basic cm)) eqn:Hm.
  - rewrite (Hmt eq_refl) in Hsw. rewrite set_mark_idem in Hsw.
    rewrite <- Hmc, set_mark_same in Hsw. subst c'.
    split; [auto |]. split; [auto |].
    intros Hnr. exfalso. apply Hnr, Hr. reflexivity.
  - rewrite (Hmf eq_refl) in *.
    split; [intros Hre; apply Hr in Hre; discriminate |].
    destruct (Z.eqb_spec (cell_type c) kTypeDead) as [Hd | Hd].
    + subst c'. split; [auto |]. intros _ Hnd'. contradiction.
    + split; [contradiction |]. intros _ _.
      destruct Hsw as [next ->]. eauto.
Qed.

End CollectFacts.




Section CollectCorrect.

Context (sizeof_MemoryCell : Z).




End CollectCorrect.




(** ** Allocation *)

Section Allocate.

Context (sizeof_MemoryCell : Z) (calloc : list Z -> Z).

Lemma last_default (l : list Z) (a d d' : Z) :
  List.last (a :: l) d = List.last (a :: l) d'.
Proof.
  revert a. induction l as [| b l IH]; intros a; [reflexivity |].
  change (List.last (b :: l) d = List.last (b :: l) d'). apply IH.
Qed.

Lemma link_cells_last (cells : list Z) (m : Memory) (last_cell : Z) :
  (foldl (fun '(m, last_cell) cell =>
            (<[cell := mkCell zero_basic (DFree last_cell)]> m, cell))
         (m, last_cell) cells).2
  = List.last (last_cell :: cells) last_cell.
Proof.
  revert m last_cell. induction cells as [| cell cells IH]; intros m last_cell.
  - reflexivity.
  - cbn [foldl]. rewrite IH.
    change (List.last (last_cell :: cell :: cells) last_cell)
      with (List.last (cell :: cells) last_cell).
    apply last_default.
Qed.

(** [add_heap] has a result unless [calloc] gave a null arena that has
    cells to link. *)
Lemma add_heap_is_Some (w : Machine) :
  calloc (heaps (gc w)) <> 0 \/ heap_cell_count (config (gc w)) <= 0 ->
  is_Some (add_heap sizeof_MemoryCell calloc w).
Proof.
  intros H. unfold add_heap.
  replace ((calloc (heaps (gc w)) =? 0) && (0 <? heap_cell_count (config (gc w))))
    with false; [eauto |].
  symmetry. apply andb_false_iff.
  destruct H as [H | H]; [left; apply Z.eqb_neq, H | right; apply Z.ltb_ge, H].
Qed.

Lemma add_heap_null (w : Machine) :
  calloc (heaps (gc w)) = 0 -> 0 < heap_cell_count (config (gc w)) ->
  add_heap sizeof_MemoryCell calloc w = None.
Proof.
  intros H0 Hn. unfold add_heap. rewrite H0.
  rewrite (proj2 (Z.ltb_lt _ _) Hn). reflexivity.
Qed.

(** What [add_heap] leaves when it has a result: the arena recorded, the
    configuration as it was and, with room for at least one cell, the
    last cell of the arena at the head of the freelist. *)
Lemma add_heap_Some (w w' : Machine) :
  add_heap sizeof_MemoryCell calloc w = Some w' ->
  heaps (gc w') = heaps (gc w) ++ [calloc (heaps (gc w))] /\
  config (gc w') = config (gc w) /\
  (0 < heap_cell_count (config (gc w)) ->
   calloc (heaps (gc w)) <> 0 /\
   free_cell (gc w')
   = calloc (heaps (gc w))
     + (heap_cell_count (config (gc w)) - 1) * sizeof_MemoryCell).
Proof.
  unfold add_heap.
  destruct ((calloc (heaps (gc w)) =? 0) && (0 <? heap_cell_count (config (gc w))))
    eqn:Hnull; [discriminate |].
  intros [= <-]. split; [reflexivity |]. split; [reflexivity |].
  intros Hn. split.
  - apply andb_false_iff in Hnull as [H | H];
      [apply Z.eqb_neq, H | apply Z.ltb_ge in H; lia].
  - cbn [gc free_cell]. rewrite link_cells_last. unfold heap_cells.
    destruct (Z.to_nat (heap_cell_count (config (gc w)))) as [| k] eqn:Hk; [lia |].
    rewrite seq_S, map_app. cbn [map]. rewrite app_comm_cons, last_last.
    f_equal. f_equal. lia.
Qed.

Lemma add_heaps_length (n : nat) (w w' : Machine) :
  add_heaps sizeof_MemoryCell calloc n w = Some w' ->
  length (heaps (gc w')) = (length (heaps (gc w)) + n)%nat /\
  config (gc w') = config (gc w).
Proof.
  revert w. induction n as [| n IH]; intros w H.
  - injection H as <-. split; [lia | reflexivity].
  - cbn [add_heaps] in H.
    destruct (add_heap sizeof_MemoryCell calloc w) as [w1 |] eqn:H1; [| discriminate].
    cbn [mbind option_bind] in H.
    destruct (add_heap_Some w w1 H1) as (Hh & Hc & _).
    destruct (IH w1 H) as (Hl & Hc').
    rewrite Hl, Hh, length_app, Hc', Hc. cbn [length]. split; [lia | reflexivity].
Qed.

Lemma add_heaps_is_Some (n : nat) (w : Machine) :
  (forall heaps, calloc heaps <> 0) \/ heap_cell_count (config (gc w)) <= 0 ->
  is_Some (add_heaps sizeof_MemoryCell calloc n w).
Proof.
  revert w. induction n as [| n IH]; intros w H; [cbn; eauto |].
  cbn [add_heaps].
  destruct (add_heap_is_Some w) as [w1 H1].
  { destruct H as [H | H]; [left; apply H | right; exact H]. }
  rewrite H1. cbn [mbind option_bind]. apply IH.
  destruct (add_heap_Some w w1 H1) as (_ & Hc & _). rewrite Hc. exact H.
Qed.

(** A null arena stops the loop at its first pass. *)
Lemma add_heaps_null (n : nat) (w : Machine) :
  calloc (heaps (gc w)) = 0 -> 0 < heap_cell_count (config (gc w)) ->
  add_heaps sizeof_MemoryCell calloc (S n) w = None.
Proof.
  intros H0 Hn. cbn [add_heaps]. rewrite (add_heap_null w H0 Hn). reflexivity.
Qed.

Lemma add_heaps_free_cell (n : nat) (w w' : Machine) :
  0 < heap_cell_count (config (gc w)) ->
  0 <= sizeof_MemoryCell -> (forall heaps, 0 < calloc heaps) ->
  add_heaps sizeof_MemoryCell calloc (S n) w = Some w' ->
  free_cell (gc w') <> 0.
Proof.
  intros Hn Hsz Hcalloc. revert w Hn. induction n as [| n IH]; intros w Hn H;
    cbn [add_heaps] in H;
    destruct (add_heap sizeof_MemoryCell calloc w) as [w1 |] eqn:H1;
    try discriminate; cbn [mbind option_bind] in H;
    destruct (add_heap_Some w w1 H1) as (_ & Hc & Hfree).
  - injection H as <-. destruct (Hfree Hn) as (_ & ->).
    pose proof (Hcalloc (heaps (gc w))). nia.
  - apply (IH w1); [rewrite Hc; exact Hn | exact H].
Qed.

(** Growing the heap by at least one arena of at least one cell gives a
    free cell, when [calloc] gives proper addresses. *)
Lemma grow_heap_free_cell (w w' : Machine) :
  0 < heap_cell_count (config (gc w)) ->
  0 <= sizeof_MemoryCell -> (forall heaps, 0 < calloc heaps) ->
  let heap_count := Z.of_nat (length (heaps (gc w))) in
  0 < u64 (heap_count * heap_growth_factor (config (gc w)) + 1 - heap_count) ->
  grow_heap sizeof_MemoryCell calloc w = Some w' ->
  free_cell (gc w') <> 0.
Proof.
  intros Hn Hsz Hcalloc heap_count Hadd. unfold grow_heap. fold heap_count.
  destruct (Z.to_nat (u64 (heap_count * heap_growth_factor (config (gc w)) + 1
                           - heap_count))) as [| k] eqn:Hk; [lia |].
  apply add_heaps_free_cell; assumption.
Qed.

(** C2 (as the code has it).  [allocate] has no result when the freelist
    head is null.  Otherwise it returns the freelist head, popped.  When
    after the pop the freelist is empty, or the counter
    [remaining_free_cells] (not yet decremented for this allocation) is
    at or below [min_free_cells], it runs a collection first, and if the
    freelist is still empty after it, it grows the heap, by
    [heap_count * heap_growth_factor + 1 - heap_count] arenas.  Growing
    has a result when [calloc] never returns null, when the arenas have
    no cells or when there is no arena to add; it gives a free cell
    whenever at least one arena of at least one cell is added.  If the
    freelist is empty even then, [allocate] writes a line to the error
    stream and returns the popped cell all the same.  [add_heap] does
    not check what [calloc] returns: when at least one arena of at least
    one cell is to be added and [calloc] returns null for the first,
    growing has no result, and then [allocate] has none.  In every case
    in which [allocate] returns the counter goes down by one. *)
Theorem allocate_spec (w : Machine) :
  (free_cell (gc w) = 0 -> allocate sizeof_MemoryCell calloc w = None) /\
  (forall c next,
     free_cell (gc w) <> 0 ->
     memory w !! free_cell (gc w) = Some c -> data c = DFree next ->
     let w1 := set_free_cell next w in
     (next <> 0 ->
      min_free_cells (config (gc w)) < remaining_free_cells (gc w) ->
      allocate sizeof_MemoryCell calloc w
        = Some (free_cell (gc w), count_allocation w1)) /\
     (next = 0 \/ remaining_free_cells (gc w) <= min_free_cells (config (gc w)) ->
      forall w' freed,
        collect sizeof_MemoryCell w1 = Some (w', freed) ->
        (free_cell (gc w') <> 0 ->
         allocate sizeof_MemoryCell calloc w
           = Some (free_cell (gc w), count_allocation w')) /\
        (free_cell (gc w') = 0 ->
         let heap_count := Z.of_nat (length (heaps (gc w'))) in
         let heaps_to_add :=
           u64 (heap_count * heap_growth_factor (config (gc w')) + 1 - heap_count) in
         ((forall heaps, calloc heaps <> 0)
          \/ heap_cell_count (config (gc w')) <= 0 \/ heaps_to_add = 0 ->
          is_Some (grow_heap sizeof_MemoryCell calloc w') /\
          is_Some (allocate sizeof_MemoryCell calloc w)) /\
         (0 < heap_cell_count (config (gc w')) -> 0 < heaps_to_add ->
          calloc (heaps (gc w')) = 0 ->
          grow_heap sizeof_MemoryCell calloc w' = None) /\
         (grow_heap sizeof_MemoryCell calloc w' = None ->
          allocate sizeof_MemoryCell calloc w = None) /\
         (forall w'',
            grow_heap sizeof_MemoryCell calloc w' = Some w'' ->
            length (heaps (gc w''))
              = (length (heaps (gc w')) + Z.to_nat heaps_to_add)%nat /\
            (0 < heap_cell_count (config (gc w')) -> 0 < heaps_to_add ->
             0 <= sizeof_MemoryCell -> (forall heaps, 0 < calloc heaps) ->
             free_cell (gc w'') <> 0) /\
            (free_cell (gc w'') <> 0 ->
             allocate sizeof_MemoryCell calloc w
               = Some (free_cell (gc w), count_allocation w'')) /\
            (free_cell (gc w'') = 0 ->
             allocate sizeof_MemoryCell calloc w
               = Some (free_cell (gc w),
                       count_allocation
                         (add_effects [ErrStream failed_to_expand] w''))))))).
Proof.
  split.
  - intros H0. unfold allocate. rewrite H0. reflexivity.
  - intros c next Hne Hc Hd w1.
    assert (Ha : allocate sizeof_MemoryCell calloc w
                 = (if (next =? 0)
                       || (remaining_free_cells (gc w)
                           <=? min_free_cells (config (gc w)))
                    then collect_and_grow sizeof_MemoryCell calloc w1
                    else Some w1) ≫=
                   (fun w2 : Machine => Some (free_cell (gc w), count_allocation w2))).
    { unfold allocate.
      destruct (Z.eqb_spec (free_cell (gc w)) 0) as [| _]; [contradiction |].
      rewrite Hc. cbn [mbind option_bind]. rewrite Hd. reflexivity. }
    split.
    + intros Hn Hrem. rewrite Ha.
      destruct (Z.eqb_spec next 0) as [| _]; [contradiction |].
      replace (remaining_free_cells (gc w) <=? min_free_cells (config (gc w)))
        with false by (symmetry; apply Z.leb_gt; lia).
      reflexivity.
    + intros Htrig w' freed Hcol.
      replace ((next =? 0)
               || (remaining_free_cells (gc w) <=? min_free_cells (config (gc w))))
        with true in Ha
        by (symmetry; apply orb_true_iff; rewrite Z.eqb_eq, Z.leb_le; exact Htrig).
      unfold collect_and_grow in Ha. rewrite Hcol in Ha. cbn [mbind option_bind] in Ha.
      split.
      * intros Hf. rewrite Ha.
        destruct (Z.eqb_spec (free_cell (gc w')) 0); [contradiction |].
        reflexivity.
      * intros Hf heap_count heaps_to_add.
        rewrite Hf in Ha. change (0 =? 0) with true in Ha. cbv iota in Ha.
        assert (Hnone : grow_heap sizeof_MemoryCell calloc w' = None ->
                        allocate sizeof_MemoryCell calloc w = None).
        { intros Hg. rewrite Ha, Hg. reflexivity. }
        assert (Hsome : forall w'',
                  grow_heap sizeof_MemoryCell calloc w' = Some w'' ->
                  allocate sizeof_MemoryCell calloc w
                  = Some (free_cell (gc w),
                          count_allocation
                            (if free_cell (gc w'') =? 0
                             then add_effects [ErrStream failed_to_expand] w''
                             else w''))).
        { intros w'' Hg. rewrite Ha, Hg. cbn [mbind option_bind].
          destruct (free_cell (gc w'') =? 0); reflexivity. }
        split; [| split; [| split; [exact Hnone |]]].
        -- intros Hcalloc.
           assert (Hg : is_Some (grow_heap sizeof_MemoryCell calloc w')).
           { unfold grow_heap. fold heap_count. fold heaps_to_add.
             destruct Hcalloc as [H | [H | H]].
             - apply add_heaps_is_Some. left. exact H.
             - apply add_heaps_is_Some. right. exact H.
             - rewrite H. cbn. eauto. }
           split; [exact Hg |]. destruct Hg as [w'' Hw''].
           rewrite (Hsome w'' Hw''). eauto.
        -- intros Hn Hadd H0. unfold grow_heap. fold heap_count. fold heaps_to_add.
           destruct (Z.to_nat heaps_to_add) as [| k] eqn:Hk; [lia |].
           apply add_heaps_null; assumption.
        -- intros w'' Hw''. split.
           ++ unfold grow_heap in Hw''. apply add_heaps_length in Hw'' as [Hl _].
              exact Hl.
           ++ split; [intros; apply (grow_heap_free_cell w' w''); assumption |].
              split; intros Hf'; rewrite (Hsome w'' Hw'').
              ** destruct (Z.eqb_spec (free_cell (gc w'')) 0);
                   [contradiction | reflexivity].
              ** rewrite Hf'. reflexivity.
Qed.

End Allocate.


(** ** The examples *)

Lemma example_cells (g : list VALUE) (free remaining : Z) :
  cell_addresses example_sizeof (mkGC (mkConfig 2 2 0 false) [4096] free remaining g)
  = [4096; 4224].
Proof. reflexivity. Qed.

(** The heap of the two-cell machines is in order, for any root set that
    holds the string or nothing. *)
Lemma two_cell_heap_ok (free remaining : Z) (g queue : list VALUE) :
  Forall (fun value => value = charly_create_pointer 4096) (g ++ queue) ->
  heap_ok example_sizeof
    (mkMachine (<[4096 := example_string]> (<[4224 := dead_cell 0]> ∅))
               (mkGC (mkConfig 2 2 0 false) [4096] free remaining g)
               (example_vm queue) []).
Proof.
  intros Hroots.
  assert (Hlook : forall a c,
            (<[4096 := example_string]> (<[4224 := dead_cell 0]> ∅) : Memory) !! a = Some c ->
            (a = 4096 /\ c = example_string) \/ (a = 4224 /\ c = dead_cell 0)).
  { intros a c H. apply lookup_insert_Some in H as [[<- <-] | [_ H]]; [auto |].
    apply lookup_insert_Some in H as [[<- <-] | [_ H]]; [auto |].
    rewrite lookup_empty in H. discriminate. }
  constructor; cbn [gc memory]; rewrite ?example_cells.
  - repeat constructor; rewrite ?elem_of_cons, ?elem_of_nil; intros H;
      repeat destruct H as [H | H]; try discriminate; exact H.
  - intros a. rewrite !elem_of_cons, elem_of_nil. split.
    + intros [-> | [-> | []]]; eexists; reflexivity.
    + intros [c Hc]. destruct (Hlook a c Hc) as [[-> _] | [-> _]]; auto.
  - intros a. rewrite !elem_of_cons, elem_of_nil. unfold kMaxPointer.
    intros [-> | [-> | []]]; lia.
  - intros a c Hc. destruct (Hlook a c Hc) as [[_ ->] | [_ ->]]; reflexivity.
  - intros a c value Hc Hin.
    destruct (Hlook a c Hc) as [[_ ->] | [_ ->]]; inversion Hin.
  - unfold collect_roots. cbn [vm gc running temporaries example_vm].
    apply Forall_forall. intros value Hin.
    assert (Hv : value = kNull \/ value = charly_create_pointer 4096).
    { apply elem_of_app in Hin as [Hin | Hin].
      - unfold vm_roots in Hin. cbn in Hin.
        rewrite !elem_of_cons in Hin.
        do 15 (destruct Hin as [Hin | Hin]; [auto |]).
        apply elem_of_app in Hin as [Hin | Hin]; [| inversion Hin]. right.
        rewrite Forall_forall in Hroots. apply Hroots, elem_of_app. auto.
      - right. rewrite Forall_forall in Hroots. apply Hroots, elem_of_app. auto. }
    intros a (Hp & <- & Hne). destruct Hv as [-> | ->].
    + vm_compute in Hp. discriminate.
    + eexists. reflexivity.
Qed.

Lemma queue_machine_ok : heap_ok example_sizeof queue_machine.
Proof. apply two_cell_heap_ok. repeat constructor. Qed.

Lemma pinned_machine_ok : heap_ok example_sizeof pinned_machine.
Proof. apply two_cell_heap_ok. repeat constructor. Qed.




(** C2 as stated fails when growing the heap gives no free cell.  The
    machine has one arena of one cell, which is free, and a growth
    factor of 0, so that [grow_heap] has [1 * 0 + 1 - 1 = 0] arenas to
    add.  [allocate] pops the last cell, collects, grows, finds the
    freelist still empty, and then does not stop the machine: it writes
    its line to the error stream and returns the popped cell.  It is the
    allocation after this one that has no result, the freelist head
    being null. *)
Lemma allocate_growth_failure_returns :
  exists w',
    allocate example_sizeof example_calloc last_cell_machine = Some (4096, w') /\
    free_cell (gc w') = 0 /\
    heaps (gc w') = [4096] /\
    effects w' = [ErrStream failed_to_expand] /\
    allocate example_sizeof example_calloc w' = None.
Proof.
  destruct (allocate example_sizeof example_calloc last_cell_machine)
    as [[cell w'] |] eqn:H; [| vm_compute in H; discriminate].
  vm_compute in H. injection H as <- <-.
  eexists. split; [reflexivity |]. repeat split; reflexivity.
Qed.

(** An allocation that collects and then grows the heap: the pinned
    string survives, the freelist is empty after the collection, and two
    arenas are added to the one there is. *)
Lemma allocate_spec_witness :
  exists w' freed w'',
    collect example_sizeof (set_free_cell 0 pinned_machine) = Some (w', freed) /\
    free_cell (gc w') = 0 /\
    grow_heap example_sizeof example_calloc w' = Some w'' /\
    allocate example_sizeof example_calloc pinned_machine
      = Some (4224, count_allocation w'') /\
    length (heaps (gc w'')) = 3%nat.
Proof.
  destruct (collect example_sizeof (set_free_cell 0 pinned_machine))
    as [[w' freed] |] eqn:Hcol; [| vm_compute in Hcol; discriminate].
  assert (Hfacts : free_cell (gc w') = 0 /\ heaps (gc w') = [4096] /\
                   config (gc w') = mkConfig 2 2 0 false).
  { vm_compute in Hcol. injection Hcol as <- _. repeat split. }
  destruct Hfacts as (Hfree & Hheaps & Hconfig).
  destruct (proj2 (allocate_spec example_sizeof example_calloc pinned_machine)
              (dead_cell 0) 0 ltac:(discriminate) eq_refl eq_refl) as [_ Hgrow].
  destruct (Hgrow (or_introl eq_refl) w' freed Hcol) as [_ Hempty].
  destruct (Hempty Hfree) as (Hsome & _ & _ & Hres).
  destruct Hsome as [[w'' Hw''] _].
  { left. intros heaps. unfold example_calloc. lia. }
  destruct (Hres w'' Hw'') as (Hlen & Hcell & Hmore & _).
  exists w', freed, w''.
  split; [reflexivity |]. split; [exact Hfree |]. split; [exact Hw'' |]. split.
  - apply Hmore, Hcell.
    + rewrite Hconfig. reflexivity.
    + rewrite Hheaps, Hconfig. reflexivity.
    + discriminate.
    + intros heaps. unfold example_calloc. lia.
  - rewrite Hlen, Hheaps, Hconfig. reflexivity.
Defined.

(** When [calloc] fails, the same allocation has no result: the collection
    leaves the freelist empty, two arenas of two cells are to be added,
    and the first write goes through the null arena. *)
Lemma allocate_null_arena :
  allocate example_sizeof (fun _ => 0) pinned_machine = None.
Proof. vm_compute. reflexivity. Qed.

(** The generator at 4096 is finished, and so it is falsy. *)
Lemma truthyness_false_iff_witness :
  is_u64 (charly_create_pointer 4096) /\
  exists b,
    charly_truthyness finished_generator_memory (charly_create_pointer 4096) = Some b /\
    (b = false <-> falsy finished_generator_memory (charly_create_pointer 4096)).
Proof.
  split; [vm_compute; split; [discriminate | reflexivity] |].
  apply (truthyness_false_iff finished_generator_memory (charly_create_pointer 4096)).
  - vm_compute. split; [discriminate | reflexivity].
  - intros _. eexists. reflexivity.
Defined.

(** 3 + 4, 3 - 4 and 3 * 4 stay integers. *)
Lemma int_arith_promotion_witness :
  charly_add_number (fun _ _ => 0) (charly_create_integer 3) (charly_create_integer 4)
    = charly_create_number_int64 7 /\
  charly_sub_number (fun _ _ => 0) (charly_create_integer 3) (charly_create_integer 4)
    = charly_create_number_int64 (-1).
Proof.
  destruct (int_arith_promotion (fun _ _ => 0) (fun _ _ => 0) (fun _ _ => 0)
              (charly_create_integer 3) (charly_create_integer 4)
              eq_refl eq_refl) as (Hadd & Hsub & _).
  split; [exact Hadd | exact Hsub].
Defined.

(** C6 as stated fails at the bound: [kMaxInt - 1] plus 1 is [kMaxInt],
    which fits in the 48 bits of an integer value, and yet the sum comes
    back as a double.  It also fails for a product beyond 64 bits:
    2^40 times 2^40 wraps to 0 and comes back as the integer 0, not as a
    double. *)
Lemma int_arith_not_as_stated :
  (let left := charly_create_integer (kMaxInt - 1) in
   let right := charly_create_integer 1 in
   charly_is_int left = true /\ charly_is_int right = true /\
   kMinInt <= charly_int_to_int64 left + charly_int_to_int64 right <= kMaxInt /\
   charly_is_int (charly_add_number (fun _ _ => 0) left right) = false) /\
  (let left := charly_create_integer (2 ^ 40) in
   charly_is_int left = true /\
   charly_int_to_int64 left * charly_int_to_int64 left = 2 ^ 80 /\
   charly_mul_number (fun _ _ => 0) left left = charly_create_integer 0).
Proof. vm_compute. repeat split; discriminate. Qed.

(** 7 mod 0 and -7 mod 3 on integers, and the integer 7 mod the float
    2.0: the 7 enters [fmod] as the double 7.0, and the 1.0 that [fmod]
    gives for 7.0 and 2.0 comes back as the integer 1. *)
Lemma mod_number_spec_witness :
  charly_mod_number example_fmod (charly_create_integer 7) (charly_create_integer 0)
    = Some kNaN /\
  charly_mod_number example_fmod (charly_create_integer (-7)) (charly_create_integer 3)
    = Some (charly_create_number_int64 (-1)) /\
  charly_is_float fp_two = true /\
  charly_mod_number example_fmod (charly_create_integer 7) fp_two
    = Some (charly_create_number_double (example_fmod fp_seven fp_two)) /\
  charly_create_number_double (example_fmod fp_seven fp_two) = charly_create_integer 1.
Proof.
  split; [| split; [| split; [reflexivity | split; [| reflexivity]]]].
  - apply (proj1 (proj2 (mod_number_spec example_fmod
                           (charly_create_integer 7) (charly_create_integer 0)))
             eq_refl eq_refl).
    reflexivity.
  - apply (proj1 (proj2 (mod_number_spec example_fmod
                           (charly_create_integer (-7)) (charly_create_integer 3)))
             eq_refl eq_refl).
    discriminate.
  - destruct (mod_number_spec example_fmod (charly_create_integer 7) fp_two)
      as (_ & _ & _ & _ & _ & Hint_float & _).
    exact (Hint_float eq_refl eq_refl).
Defined.

(** The two bytes of "hi" on a little-endian machine. *)
Lemma istring_roundtrip_witness :
  exists v,
    charly_create_istring false [104; 105] 2 = Some v /\
    charly_is_istring v = true /\
    charly_string_length false ∅ v = Some 2 /\
    exists data, charly_string_data false ∅ v = Some (Some data) /\
                 take 2 data = [104; 105].
Proof.
  apply (istring_roundtrip false ∅ [104; 105]).
  - cbn. lia.
  - repeat constructor; unfold is_byte; lia.
Defined.

Lemma class_memory_chain :
  class_chain class_memory 4096
    [<[1 := charly_create_integer 10]> ∅;
     <[1 := charly_create_integer 20]> (<[2 := charly_create_integer 30]> ∅)].
Proof.
  eapply (chain_parent class_memory 4096 _ (mkObject kNull _)); try reflexivity.
  eapply (chain_last class_memory _ _ (mkObject kNull _)); reflexivity.
Qed.

(** Symbol 1 is found in the class's own prototype, symbol 2 in the
    parent's, and the super lookup of symbol 1 skips the class's own. *)
Lemma prototype_lookup_first_match_witness :
  charly_find_prototype_value 2 class_memory 4096 1
    = Some (Some (charly_create_integer 10)) /\
  charly_find_prototype_value 2 class_memory 4096 2
    = Some (Some (charly_create_integer 30)) /\
  charly_find_super_method 1 class_memory 4096 1 = Some (charly_create_integer 20).
Proof.
  split; [| split].
  - apply (proj1 (prototype_lookup_first_match class_memory 1) 4096 _ 2%nat
             class_memory_chain).
    cbn. lia.
  - apply (proj1 (prototype_lookup_first_match class_memory 2) 4096 _ 2%nat
             class_memory_chain).
    cbn. lia.
  - change (Some (charly_create_integer 20))
      with (Some (default kNull
                    (first_match 1 [<[1 := charly_create_integer 20]>
                                      (<[2 := charly_create_integer 30]> ∅)]))).
    eapply (proj1 (proj2 (proj2 (prototype_lookup_first_match class_memory 1)))
              4096 _ _ 1%nat); try reflexivity.
    eapply (chain_last class_memory _ _ (mkObject kNull _)); reflexivity.
Defined.

(** A class without a prototype object answers nothing, although its
    parent holds the symbol. *)
Lemma prototype_lookup_stops_without_prototype :
  charly_find_prototype_value 5 class_memory_no_prototype 4096 2 = Some None /\
  charly_find_prototype_value 5 class_memory_no_prototype 4352 2
    = Some (Some (charly_create_integer 30)).
Proof. split; reflexivity. Qed.

(** A host function of two arguments, called with one and with three. *)
Lemma call_cfunction_arity_witness :
  charly_call_cfunction example_cfunction 1 [kTrue] = Some (Returned kNull) /\
  charly_call_cfunction example_cfunction 3 [kTrue; kFalse; kNull]
    = Some (NativeCall 4198400 [kTrue; kFalse]).
Proof.
  split.
  - apply (proj1 (call_cfunction_arity example_cfunction 1 [kTrue])).
    cbn. lia.
  - apply (proj2 (proj2 (proj2 (call_cfunction_arity example_cfunction 3
                                  [kTrue; kFalse; kNull])))); cbn; lia.
Defined.

(** * Further properties of the code *)

(** ** Types of values *)

Lemma is_symbol_signature (v : Z) : charly_is_symbol v = (signature v =? 0x7ffd).
Proof.
  unfold charly_is_symbol, signature. rewrite land_signature.
  change kSignatureSymbol with (0x7ffd * 2 ^ 48).
  destruct (Z.eqb_spec ((v / 2 ^ 48) mod 2 ^ 16) 0x7ffd) as [-> | Hne].
  - reflexivity.
  - apply Z.eqb_neq. lia.
Qed.

(** The exponent field lies inside the signature. *)
Lemma fp_is_finite_signature (v : Z) :
  fp_is_finite v = negb ((signature v / 16) mod 2 ^ 11 =? 0x7ff).
Proof.
  unfold fp_is_finite, signature. rewrite fp_exponent_eq. f_equal.
  f_equal. zdm.
Qed.

(** What each type test says about the signature of a word. *)
Lemma type_tests_signature (v : Z) :
  (charly_is_float v = true ->
     (signature v / 16) mod 2 ^ 11 <> 0x7ff \/ signature v = 0x7ff8) /\
  (charly_is_null v = true -> signature v = 0x7ffb) /\
  (charly_is_boolean v = true -> signature v = 0x7ff9 \/ signature v = 0x7ffa).
Proof.
  split; [| split].
  - rewrite is_float_eq, fp_is_finite_signature.
    intros [H%Z.eqb_eq | H%negb_true_iff%Z.eqb_neq]%orb_true_iff.
    + right. subst v. reflexivity.
    + left. exact H.
  - unfold charly_is_null. intros ->%Z.eqb_eq. reflexivity.
  - unfold charly_is_boolean, charly_is_false, charly_is_true.
    intros [->%Z.eqb_eq | ->%Z.eqb_eq]%orb_true_iff; [left | right]; reflexivity.
Qed.

Lemma get_type_tests (m : Memory) (v : VALUE) :
  (charly_is_ptr v = true ->
     charly_get_type m v = cell_type <$> m !! charly_as_pointer v) /\
  (charly_is_float v = true -> charly_get_type m v = Some kTypeNumber) /\
  (charly_is_int v = true -> charly_get_type m v = Some kTypeNumber) /\
  (charly_is_null v = true -> charly_get_type m v = Some kTypeNull) /\
  (charly_is_immediate_string v = true -> charly_get_type m v = Some kTypeString) /\
  (charly_is_boolean v = true -> charly_get_type m v = Some kTypeBoolean) /\
  (charly_is_symbol v = true -> charly_get_type m v = Some kTypeSymbol).
Proof.
  destruct (type_tests_signature v) as (Hfloat & Hnull & Hbool).
  unfold charly_get_type, charly_is_on_heap, charly_is_immediate_string.
  repeat split.
  - intros ->. unfold charly_as_basic. destruct (m !! charly_as_pointer v); reflexivity.
  - intros Hf. specialize (Hfloat Hf).
    replace (charly_is_ptr v) with false; [rewrite Hf; reflexivity |].
    symmetry. rewrite is_ptr_signature. apply Z.eqb_neq. intros Hs.
    rewrite Hs in Hfloat. destruct Hfloat as [H | H]; [apply H; reflexivity | discriminate].
  - intros Hi.
    replace (charly_is_ptr v) with false.
    2:{ destruct (charly_is_ptr v) eqn:Hp; [| reflexivity].
        apply is_ptr_not_int in Hp. congruence. }
    destruct (charly_is_float v); [reflexivity |]. rewrite Hi. reflexivity.
  - intros Hn. pose proof (Hnull Hn) as Hs.
    rewrite is_ptr_signature, is_int_signature, Hs. cbn [Z.eqb Pos.eqb].
    destruct (charly_is_float v) eqn:Hf.
    + destruct (Hfloat eq_refl) as [H | H]; rewrite Hs in H;
        [exfalso; apply H; reflexivity | discriminate].
    + rewrite Hn. reflexivity.
  - intros Hstr.
    assert (Hs : signature v = 0x7fff \/ signature v = 0x7ffe).
    { rewrite is_istring_signature, is_pstring_signature in Hstr.
      apply orb_true_iff in Hstr as [H%Z.eqb_eq | H%Z.eqb_eq]; auto. }
    assert (Hf : charly_is_float v = false).
    { destruct (charly_is_float v); [| reflexivity].
      destruct (Hfloat eq_refl) as [H | H]; destruct Hs as [Hs | Hs]; rewrite Hs in H;
        solve [exfalso; apply H; reflexivity | discriminate]. }
    assert (Hn : charly_is_null v = false).
    { destruct (charly_is_null v); [| reflexivity].
      specialize (Hnull eq_refl). destruct Hs; congruence. }
    rewrite Hf, Hn, is_ptr_signature, is_int_signature.
    rewrite is_istring_signature, is_pstring_signature.
    destruct Hs as [-> | ->]; reflexivity.
  - intros Hb. pose proof (Hbool Hb) as Hs.
    assert (Hf : charly_is_float v = false).
    { destruct (charly_is_float v); [| reflexivity].
      destruct (Hfloat eq_refl) as [H | H]; destruct Hs as [Hs | Hs]; rewrite Hs in H;
        solve [exfalso; apply H; reflexivity | discriminate]. }
    assert (Hn : charly_is_null v = false).
    { destruct (charly_is_null v); [| reflexivity].
      specialize (Hnull eq_refl). destruct Hs; congruence. }
    rewrite Hf, Hn, Hb, is_ptr_signature, is_int_signature.
    rewrite is_istring_signature, is_pstring_signature.
    destruct Hs as [-> | ->]; reflexivity.
  - intros Hsym. pose proof Hsym as Hs. rewrite is_symbol_signature in Hs.
    apply Z.eqb_eq in Hs.
    assert (Hf : charly_is_float v = false).
    { destruct (charly_is_float v); [| reflexivity].
      destruct (Hfloat eq_refl) as [H | H]; rewrite Hs in H;
        solve [exfalso; apply H; reflexivity | discriminate]. }
    assert (Hn : charly_is_null v = false).
    { destruct (charly_is_null v); [| reflexivity].
      specialize (Hnull eq_refl). congruence. }
    assert (Hb : charly_is_boolean v = false).
    { destruct (charly_is_boolean v); [| reflexivity].
      destruct (Hbool eq_refl); congruence. }
    rewrite Hf, Hn, Hb, Hsym, is_ptr_signature, is_int_signature.
    rewrite is_istring_signature, is_pstring_signature, Hs. reflexivity.
Qed.

(** X1. [charly_get_type] agrees with every type test: the tests are
    mutually exclusive, so the order in which [charly_get_type] tries
    them does not matter.  A pointer has the type its cell header
    records, a float or an integer is a number, and null, the immediate
    strings, the booleans and the symbols have their own types. *)
Theorem get_type_agrees (m : Memory) (v : VALUE) :
  (charly_is_ptr v = true ->
     charly_get_type m v = cell_type <$> m !! charly_as_pointer v) /\
  (charly_is_float v = true -> charly_get_type m v = Some kTypeNumber) /\
  (charly_is_int v = true -> charly_get_type m v = Some kTypeNumber) /\
  (charly_is_null v = true -> charly_get_type m v = Some kTypeNull) /\
  (charly_is_immediate_string v = true -> charly_get_type m v = Some kTypeString) /\
  (charly_is_boolean v = true -> charly_get_type m v = Some kTypeBoolean) /\
  (charly_is_symbol v = true -> charly_get_type m v = Some kTypeSymbol).
Proof. apply get_type_tests. Qed.

Lemma get_type_agrees_witness :
  charly_is_int (charly_create_integer 7) = true /\
  charly_get_type ∅ (charly_create_integer 7) = Some kTypeNumber.
Proof.
  split; [reflexivity |].
  apply (proj1 (proj2 (proj2 (get_type_agrees ∅ (charly_create_integer 7))))).
  reflexivity.
Defined.

(** ** Pointers *)

(** X2. [charly_create_pointer] and [charly_as_pointer] are inverse on
    the addresses a value can carry; the null pointer becomes [kNull],
    which is not a pointer value, and an address above [kMaxPointer]
    becomes the pointer value that holds address 0.  The collector's
    [mark] returns at once for both, without reading any cell. *)
Theorem create_pointer_roundtrip (ptr : Z) :
  (0 < ptr <= kMaxPointer ->
     charly_is_ptr (charly_create_pointer ptr) = true /\
     charly_as_pointer (charly_create_pointer ptr) = ptr) /\
  (ptr = 0 ->
     charly_create_pointer ptr = kNull /\
     charly_is_ptr (charly_create_pointer ptr) = false) /\
  (kMaxPointer < ptr ->
     charly_create_pointer ptr = kSignaturePointer /\
     charly_is_ptr (charly_create_pointer ptr) = true /\
     charly_as_pointer (charly_create_pointer ptr) = 0) /\
  (ptr = 0 \/ kMaxPointer < ptr ->
     forall fuel m, GarbageCollector_mark fuel m (charly_create_pointer ptr) = Some m).
Proof.
  assert (Hnull : ptr = 0 -> charly_create_pointer ptr = kNull).
  { intros ->. reflexivity. }
  assert (Hbig : kMaxPointer < ptr -> charly_create_pointer ptr = kSignaturePointer).
  { intros H. unfold charly_create_pointer.
    destruct (Z.eqb_spec ptr 0) as [-> | _]; [vm_compute in H; discriminate |].
    rewrite (proj2 (Z.gtb_gt _ _)) by lia. reflexivity. }
  split; [apply create_pointer_cell |].
  split; [intros H; rewrite (Hnull H); split; reflexivity |].
  split; [intros H; rewrite (Hbig H); repeat split; reflexivity |].
  intros [H | H] fuel m; rewrite ?(Hnull H), ?(Hbig H); destruct fuel; reflexivity.
Qed.

Lemma create_pointer_roundtrip_witness :
  0 < 4096 <= kMaxPointer /\
  charly_as_pointer (charly_create_pointer 4096) = 4096.
Proof.
  split; [vm_compute; split; [reflexivity | discriminate] |].
  apply (proj1 (create_pointer_roundtrip 4096)).
  vm_compute; split; [reflexivity | discriminate].
Defined.

(** ** Number constructors *)

Lemma create_number_int64_is_number (r : Z) :
  charly_is_number (charly_create_number_int64 r) = true.
Proof.
  unfold charly_is_number, charly_create_number_int64.
  destruct ((kMaxInt <=? r) || (r <=? kMinInt)).
  - rewrite (proj1 (create_double_is_float _)). apply orb_true_r.
  - rewrite create_integer_is_int. reflexivity.
Qed.

Lemma create_number_double_is_number (d : Z) :
  charly_is_number (charly_create_number_double d) = true.
Proof.
  unfold charly_is_number, charly_create_number_double.
  destruct (fp_is_finite d && fp_is_integral d && (fp_trunc d <=? kMaxInt)
            && (kMinInt <=? fp_trunc d)).
  - rewrite create_integer_is_int. reflexivity.
  - rewrite (proj1 (create_double_is_float _)). apply orb_true_r.
Qed.


Lemma create_number_double_of_int (i : Z) :
  kMinInt <= i <= kMaxInt ->
  charly_create_number_double (int64_to_double i) = charly_create_integer i.
Proof.
  intros Hi.
  assert (Hr : kMinInt = - 2 ^ 47 /\ kMaxInt = 2 ^ 47 - 1) by (split; reflexivity).
  destruct (Z.eq_dec i 0) as [-> | Hne].
  - reflexivity.
  - destruct (int64_to_double_exact i Hne) as (Hf & Hint & Ht); [lia |].
    unfold charly_create_number_double. rewrite Hf, Hint, Ht. cbn [andb].
    rewrite (proj2 (Z.leb_le _ _)) by lia.
    rewrite (proj2 (Z.leb_le _ _)) by lia. reflexivity.
Qed.

(** X3. [charly_create_number(double)] turns every double that holds an
    integer of the 48-bit range, both bounds included, into the
    integer-tagged value of that integer, stores every other finite
    double that has a fraction as it is, and gives the canonical NaN for
    a NaN or an infinity.  At the two bounds it therefore disagrees with
    [charly_create_number(int64_t)], which returns the double. *)
Theorem create_number_double_demotes :
  (forall i, kMinInt <= i <= kMaxInt ->
     charly_create_number_double (int64_to_double i) = charly_create_integer i /\
     charly_int_to_int64 (charly_create_number_double (int64_to_double i)) = i) /\
  (forall d, fp_is_finite d = true -> fp_is_integral d = false ->
     charly_create_number_double d = d) /\
  (forall d, fp_is_finite d = false -> charly_create_number_double d = kNaN) /\
  (forall i, i = kMinInt \/ i = kMaxInt ->
     charly_create_number_int64 i = int64_to_double i /\
     charly_is_int (charly_create_number_int64 i) = false /\
     charly_is_int (charly_create_number_double (int64_to_double i)) = true).
Proof.
  split; [| split; [| split]].
  - intros i Hi. rewrite create_number_double_of_int by exact Hi.
    split; [reflexivity | apply int_to_int64_create_in_range, Hi].
  - intros d Hf Hn. unfold charly_create_number_double. rewrite Hf, Hn. cbn [andb].
    rewrite create_double_eq, Hf. reflexivity.
  - intros d Hf. unfold charly_create_number_double. rewrite Hf. cbn [andb].
    rewrite create_double_eq, Hf. reflexivity.
  - intros i [-> | ->]; vm_compute; repeat split; reflexivity.
Qed.

Lemma create_number_double_demotes_witness :
  kMinInt <= -3 <= kMaxInt /\
  charly_create_number_double (int64_to_double (-3)) = charly_create_integer (-3).
Proof.
  split; [vm_compute; split; discriminate |].
  apply (proj1 (proj1 create_number_double_demotes (-3)
                  ltac:(vm_compute; split; discriminate))).
Defined.

(** X4. [charly_create_number(uint64_t)] gives an integer-tagged value
    below [kMaxUInt] and a double from there on.  The integer reads back
    as the argument only below [2^47]: from [2^47] up to [kMaxUInt - 1]
    the payload has bit 47 set and [charly_int_to_int64] reads it back as
    the negative number [v - 2^48]. *)
Theorem create_number_uint64_readback (v : Z) :
  0 <= v < 2 ^ 64 ->
  (v < 2 ^ 47 ->
     charly_is_int (charly_create_number_uint64 v) = true /\
     charly_int_to_int64 (charly_create_number_uint64 v) = v) /\
  (2 ^ 47 <= v < kMaxUInt ->
     charly_is_int (charly_create_number_uint64 v) = true /\
     charly_int_to_int64 (charly_create_number_uint64 v) = v - 2 ^ 48) /\
  (kMaxUInt <= v ->
     charly_is_float (charly_create_number_uint64 v) = true /\
     charly_is_int (charly_create_number_uint64 v) = false).
Proof.
  intros Hv. change kMaxUInt with (2 ^ 48 - 1).
  unfold charly_create_number_uint64. change kMaxUInt with (2 ^ 48 - 1).
  split; [| split].
  - intros H. rewrite (proj2 (Z.leb_gt _ _)) by lia.
    split; [apply create_integer_is_int |].
    rewrite int_to_int64_create. cbv zeta.
    rewrite Z.mod_small by lia. rewrite (proj2 (Z.ltb_lt _ _)) by lia. reflexivity.
  - intros H. rewrite (proj2 (Z.leb_gt _ _)) by lia.
    split; [apply create_integer_is_int |].
    rewrite int_to_int64_create. cbv zeta.
    rewrite Z.mod_small by lia. rewrite (proj2 (Z.ltb_ge _ _)) by lia. reflexivity.
  - intros H. rewrite (proj2 (Z.leb_le _ _)) by lia.
    apply create_double_is_float.
Qed.

Lemma create_number_uint64_readback_witness :
  0 <= 2 ^ 47 < 2 ^ 64 /\
  charly_int_to_int64 (charly_create_number_uint64 (2 ^ 47)) = - 2 ^ 47.
Proof.
  split; [lia |].
  apply (proj1 (proj2 (create_number_uint64_readback (2 ^ 47) ltac:(lia)))).
  vm_compute; split; [discriminate | reflexivity].
Defined.

(** ** Operators on numbers *)

Section OperatorFacts.

Context (fp_add fp_sub fp_mul fp_fmod fp_div fp_pow : Z -> Z -> Z).
Context (FP_ARE_EQUAL : Z -> Z -> bool).

(** X5. Every arithmetic operator returns a number, whatever its operands
    are and whatever the floating-point unit computes: the result is
    integer-tagged or it is a float, where a NaN or an infinity has been
    replaced by the canonical NaN.  The remainder in particular always
    has a result. *)
Theorem arithmetic_results_are_numbers (left right : VALUE) :
  charly_is_number (charly_add_number fp_add left right) = true /\
  charly_is_number (charly_sub_number fp_sub left right) = true /\
  charly_is_number (charly_mul_number fp_mul left right) = true /\
  charly_is_number (charly_div_number fp_div left right) = true /\
  charly_is_number (charly_pow_number fp_pow left right) = true /\
  (exists v, charly_mod_number fp_fmod left right = Some v /\
             charly_is_number v = true) /\
  charly_is_number (charly_usub_number left) = true.
Proof.
  repeat split.
  - unfold charly_add_number. destruct (charly_is_int left && charly_is_int right);
      [apply create_number_int64_is_number | apply create_number_double_is_number].
  - unfold charly_sub_number. destruct (charly_is_int left && charly_is_int right);
      [apply create_number_int64_is_number | apply create_number_double_is_number].
  - unfold charly_mul_number. destruct (charly_is_int left && charly_is_int right);
      [apply create_number_int64_is_number | apply create_number_double_is_number].
  - apply create_number_double_is_number.
  - unfold charly_pow_number. destruct (charly_is_int left && charly_is_int right);
      apply create_number_double_is_number.
  - unfold charly_mod_number. destruct (charly_is_int left && charly_is_int right).
    + destruct (Z.eqb_spec (charly_int_to_int64 right) 0) as [| Hne].
      * exists kNaN. split; reflexivity.
      * unfold int64_rem. rewrite (proj2 (Z.eqb_neq _ _) Hne).
        pose proof (int48_bounds left).
        replace (charly_int_to_int64 left =? - 2 ^ 63) with false
          by (symmetry; apply Z.eqb_neq; lia).
        cbn. eexists. split; [reflexivity | apply create_number_int64_is_number].
    + eexists. split; [reflexivity | apply create_number_double_is_number].
  - unfold charly_usub_number. destruct (charly_is_int left).
    + apply create_number_int64_is_number.
    + unfold charly_is_number. rewrite (proj1 (create_double_is_float _)).
      apply orb_true_r.
Qed.

(** X6. On two integers the six comparison operators decide the order of
    the integers the operands stand for, negative ones included, and
    answer with [kTrue] or [kFalse]. *)
Theorem int_comparisons (i j : Z) :
  kMinInt <= i <= kMaxInt -> kMinInt <= j <= kMaxInt ->
  let l := charly_create_integer i in
  let r := charly_create_integer j in
  charly_lt_number l r = (if i <? j then kTrue else kFalse) /\
  charly_gt_number l r = (if j <? i then kTrue else kFalse) /\
  charly_le_number l r = (if i <=? j then kTrue else kFalse) /\
  charly_ge_number l r = (if j <=? i then kTrue else kFalse) /\
  charly_eq_number FP_ARE_EQUAL l r = (if i =? j then kTrue else kFalse) /\
  charly_neq_number FP_ARE_EQUAL l r = (if i =? j then kFalse else kTrue).
Proof.
  intros Hi Hj l r.
  unfold charly_lt_number, charly_gt_number, charly_le_number, charly_ge_number,
    charly_eq_number, charly_neq_number.
  subst l r. rewrite !create_integer_is_int. cbn [andb].
  rewrite !int_to_int64_create_in_range by assumption.
  rewrite Z.gtb_ltb, Z.geb_leb.
  repeat split. destruct (i =? j); reflexivity.
Qed.

End OperatorFacts.

Lemma int_comparisons_witness :
  kMinInt <= -2 <= kMaxInt /\ kMinInt <= 1 <= kMaxInt /\
  charly_lt_number (charly_create_integer (-2)) (charly_create_integer 1) = kTrue.
Proof.
  assert (H1 : kMinInt <= -2 <= kMaxInt) by (vm_compute; split; discriminate).
  assert (H2 : kMinInt <= 1 <= kMaxInt) by (vm_compute; split; discriminate).
  split; [exact H1 |]. split; [exact H2 |].
  apply (proj1 (int_comparisons (fun _ _ => false) (-2) 1 H1 H2)).
Defined.

(** ** Order of the doubles that hold integers *)










Lemma int64_to_double_value (x : Z) :
  Z.abs x < 2 ^ 53 ->
  charly_is_float (int64_to_double x) = true /\
  charly_is_int (int64_to_double x) = false /\
  charly_create_double (int64_to_double x) = int64_to_double x.
Proof.
  intros Hx.
  assert (Hf : fp_is_finite (int64_to_double x) = true).
  { destruct (Z.eq_dec x 0) as [-> | Hne]; [reflexivity |].
    apply (int64_to_double_exact x Hne Hx). }
  assert (Hc : charly_create_double (int64_to_double x) = int64_to_double x).
  { rewrite create_double_eq, Hf. reflexivity. }
  rewrite <- Hc at 1 2. split; [| split]; try apply create_double_is_float. exact Hc.
Qed.



(** ** Unary operators *)

Lemma s8_zero_iff (x : Z) : s8 x = 0 <-> x mod 256 = 0.
Proof.
  unfold s8. change (2 ^ 8) with 256. change (2 ^ 7) with 128.
  pose proof (Z.mod_pos_bound x 256 ltac:(lia)).
  destruct (Z.ltb_spec (x mod 256) 128); lia.
Qed.

Lemma truthyness_int (m : Memory) (i : Z) :
  kMinInt <= i <= kMaxInt ->
  charly_truthyness m (charly_create_integer i) = Some (negb (i =? 0)).
Proof.
  intros Hi. unfold charly_truthyness.
  pose proof (create_integer_is_int i) as Hint.
  destruct (Z.eqb_spec (charly_create_integer i) kNaN) as [E | _];
    [rewrite E in Hint; vm_compute in Hint; discriminate |].
  destruct (Z.eqb_spec (charly_create_integer i) kNull) as [E | _];
    [rewrite E in Hint; vm_compute in Hint; discriminate |].
  destruct (Z.eqb_spec (charly_create_integer i) kFalse) as [E | _];
    [rewrite E in Hint; vm_compute in Hint; discriminate |].
  rewrite Hint, int_to_int64_create_in_range by exact Hi. reflexivity.
Qed.

(** X8. [charly_unot_number].  On an integer it looks at the lowest eight
    bits only, because it converts the integer to [int8_t] before the
    test: it answers [kTrue] exactly for the multiples of 256, so for
    every multiple of 256 other than 0 it answers [kTrue] although
    [charly_truthyness] of the same value is true.  On a float it
    answers [kTrue] exactly for [+0.0] and [-0.0]; for the canonical NaN
    it answers [kFalse], although [charly_truthyness] of NaN is false
    as well. *)
Theorem unot_number_cases (m : Memory) :
  (forall i, kMinInt <= i <= kMaxInt ->
     (charly_unot_number (charly_create_integer i) = kTrue <-> i mod 256 = 0) /\
     (charly_unot_number (charly_create_integer i) = kFalse <-> i mod 256 <> 0) /\
     (i <> 0 -> i mod 256 = 0 ->
        charly_unot_number (charly_create_integer i) = kTrue /\
        charly_truthyness m (charly_create_integer i) = Some true)) /\
  (forall v, is_u64 v -> charly_is_float v = true ->
     (charly_unot_number v = kTrue <-> v = fp_pos_zero \/ v = fp_neg_zero) /\
     (charly_unot_number v = kFalse <-> ~ (v = fp_pos_zero \/ v = fp_neg_zero))) /\
  charly_unot_number kNaN = kFalse /\
  charly_truthyness m kNaN = Some false.
Proof.
  split; [| split; [| split; reflexivity]].
  - intros i Hi.
    assert (Hu : charly_unot_number (charly_create_integer i)
                 = if i mod 256 =? 0 then kTrue else kFalse).
    { unfold charly_unot_number, charly_int_to_int8.
      rewrite create_integer_is_int, int_to_int64_create_in_range by exact Hi.
      destruct (Z.eqb_spec (s8 i) 0) as [H | H]; rewrite s8_zero_iff in H.
      - rewrite (proj2 (Z.eqb_eq _ _) H). reflexivity.
      - rewrite (proj2 (Z.eqb_neq _ _) H). reflexivity. }
    rewrite Hu. split; [| split].
    + destruct (Z.eqb_spec (i mod 256) 0); split; intros; try reflexivity;
        try assumption; try contradiction. discriminate.
    + destruct (Z.eqb_spec (i mod 256) 0); split; intros; try reflexivity;
        try assumption; try contradiction. discriminate.
    + intros Hne Hm. rewrite (proj2 (Z.eqb_eq _ _) Hm). split; [reflexivity |].
      rewrite truthyness_int by exact Hi.
      rewrite (proj2 (Z.eqb_neq _ _) Hne). reflexivity.
  - intros v Hv Hf.
    assert (Hi : charly_is_int v = false).
    { destruct (charly_is_int v) eqn:Hi; [| reflexivity].
      apply is_int_not_float in Hi. congruence. }
    unfold charly_unot_number, charly_double_to_double. rewrite Hi.
    rewrite is_float_eq in Hf. apply orb_true_iff in Hf as [Hnan | Hfin].
    + apply Z.eqb_eq in Hnan. subst v.
      change (fp_eq kNaN fp_pos_zero) with false. cbv iota. split.
      * split; [discriminate | intros [H | H]; discriminate].
      * split; [intros _ [H | H]; discriminate | reflexivity].
    + pose proof (fp_eq_zero v Hv Hfin) as Hz.
      destruct (fp_eq v fp_pos_zero); split.
      * split; [intros _; apply Hz; reflexivity | reflexivity].
      * split; [discriminate | intros H; exfalso; apply H, Hz; reflexivity].
      * split; [discriminate | intros H; apply Hz in H; discriminate].
      * split; [intros _ H; apply Hz in H; discriminate | reflexivity].
Qed.

Lemma unot_number_cases_witness :
  kMinInt <= 256 <= kMaxInt /\
  charly_unot_number (charly_create_integer 256) = kTrue /\
  charly_truthyness ∅ (charly_create_integer 256) = Some true.
Proof.
  assert (H : kMinInt <= 256 <= kMaxInt) by (vm_compute; split; discriminate).
  split; [exact H |].
  apply (proj2 (proj2 (proj1 (unot_number_cases ∅) 256 H)));
    [discriminate | reflexivity].
Defined.

(** Negating a double flips its sign bit. *)
Lemma fp_neg_eq (d : Z) :
  0 <= d < 2 ^ 64 ->
  fp_neg d = if d <? 2 ^ 63 then d + 2 ^ 63 else d - 2 ^ 63.
Proof.
  intros Hd. unfold fp_neg. change kMaskSignBit with (1 * 2 ^ 63).
  assert (Hlow : forall b, 0 <= b < 2 ^ 63 -> Z.lxor (1 * 2 ^ 63) b = 1 * 2 ^ 63 + b).
  { intros b Hb. pose proof (lor_disjoint 1 b 63 ltac:(lia) Hb) as Hl.
    pose proof (Z.add_lor_land (1 * 2 ^ 63) b) as Ha.
    pose proof (Z.land_nonneg (1 * 2 ^ 63) b) as Hn.
    assert (Hz : Z.land (1 * 2 ^ 63) b = 0) by lia.
    symmetry. apply Z.add_nocarry_lxor, Hz. }
  destruct (Z.ltb_spec d (2 ^ 63)).
  - rewrite Z.lxor_comm, Hlow by lia. lia.
  - replace d with (1 * 2 ^ 63 + (d - 2 ^ 63)) at 1 by lia.
    rewrite <- Hlow by lia.
    rewrite (Z.lxor_comm (1 * 2 ^ 63) (d - 2 ^ 63)).
    rewrite Z.lxor_assoc, Z.lxor_nilpotent, Z.lxor_0_r. reflexivity.
Qed.

Lemma fp_neg_finite (d : Z) :
  0 <= d < 2 ^ 64 -> fp_is_finite (fp_neg d) = fp_is_finite d.
Proof.
  intros Hd. rewrite fp_neg_eq by exact Hd. unfold fp_is_finite.
  rewrite !fp_exponent_eq. f_equal. f_equal.
  destruct (Z.ltb_spec d (2 ^ 63)); zdm.
Qed.

Lemma fp_neg_involutive (d : Z) : fp_neg (fp_neg d) = d.
Proof.
  unfold fp_neg. rewrite Z.lxor_assoc, Z.lxor_nilpotent. apply Z.lxor_0_r.
Qed.

Lemma finite_is_float (d : Z) :
  fp_is_finite d = true -> charly_is_float d = true /\ charly_is_int d = false.
Proof.
  intros Hf.
  assert (Hfl : charly_is_float d = true).
  { rewrite is_float_eq, Hf. apply orb_true_r. }
  split; [exact Hfl |].
  destruct (charly_is_int d) eqn:Hi; [| reflexivity].
  apply is_int_not_float in Hi. congruence.
Qed.

(** X9. Unary minus.  An integer strictly between [-kMaxInt] and
    [kMaxInt] is negated as an integer, and negating twice gives the
    value back; negating a float twice gives the float back, bit for
    bit, the canonical NaN included.  The three integers [kMinInt],
    [kMinInt + 1] and [kMaxInt] are not brought back by negating twice.
    The negation of [kMinInt] and of [kMinInt + 1] is returned as a
    float; the negation of [kMaxInt] is the integer [kMinInt + 1], whose
    negation is in turn returned as a float.  For each of the three,
    negating twice gives the float of the integer and not the
    integer-tagged value. *)
Theorem usub_involution :
  (forall i, - kMaxInt < i < kMaxInt ->
     charly_usub_number (charly_create_integer i) = charly_create_integer (- i) /\
     charly_usub_number (charly_usub_number (charly_create_integer i))
       = charly_create_integer i) /\
  (forall v, is_u64 v -> charly_is_float v = true ->
     charly_is_float (charly_usub_number v) = true /\
     charly_usub_number (charly_usub_number v) = v) /\
  (forall i, i = kMinInt \/ i = kMinInt + 1 ->
     charly_usub_number (charly_create_integer i) = int64_to_double (- i) /\
     charly_is_float (charly_usub_number (charly_create_integer i)) = true /\
     charly_is_int (charly_usub_number (charly_create_integer i)) = false) /\
  (charly_usub_number (charly_create_integer kMaxInt)
     = charly_create_integer (kMinInt + 1) /\
   charly_is_int (charly_usub_number (charly_create_integer kMaxInt)) = true) /\
  (forall i, i = kMinInt \/ i = kMinInt + 1 \/ i = kMaxInt ->
     charly_usub_number (charly_usub_number (charly_create_integer i))
       = int64_to_double i /\
     charly_is_float
       (charly_usub_number (charly_usub_number (charly_create_integer i))) = true /\
     charly_is_int
       (charly_usub_number (charly_usub_number (charly_create_integer i))) = false /\
     charly_usub_number (charly_usub_number (charly_create_integer i))
       <> charly_create_integer i).
Proof.
  assert (Hr : kMinInt = - 2 ^ 47 /\ kMaxInt = 2 ^ 47 - 1) by (split; reflexivity).
  assert (Hint : forall i, - kMaxInt < i < kMaxInt ->
            charly_usub_number (charly_create_integer i) = charly_create_integer (- i)).
  { intros i Hi. unfold charly_usub_number.
    rewrite create_integer_is_int, int_to_int64_create_in_range by lia.
    rewrite s64_small by lia.
    apply (create_number_int64_inside (- i)). lia. }
  split; [| split; [| split; [| split]]].
  - intros i Hi. split; [apply Hint, Hi |].
    rewrite (Hint i Hi), (Hint (- i)) by lia. f_equal. lia.
  - intros v Hv Hf. unfold is_u64, two64 in Hv.
    assert (Hi : charly_is_int v = false).
    { destruct (charly_is_int v) eqn:Hi; [| reflexivity].
      apply is_int_not_float in Hi. congruence. }
    rewrite is_float_eq in Hf. apply orb_true_iff in Hf as [Hnan | Hfin].
    + apply Z.eqb_eq in Hnan. subst v. split; reflexivity.
    + assert (Hfn : fp_is_finite (fp_neg v) = true)
        by (rewrite fp_neg_finite; assumption).
      destruct (finite_is_float (fp_neg v) Hfn) as (Hff & Hfi).
      assert (Hu : charly_usub_number v = fp_neg v).
      { unfold charly_usub_number, charly_double_to_double.
        rewrite Hi, create_double_eq, Hfn. reflexivity. }
      rewrite Hu. split; [exact Hff |].
      unfold charly_usub_number, charly_double_to_double. rewrite Hfi.
      rewrite fp_neg_involutive, create_double_eq, Hfin. reflexivity.
  - intros i [-> | ->]; vm_compute; repeat split; reflexivity.
  - vm_compute. split; reflexivity.
  - intros i [-> | [-> | ->]]; vm_compute; repeat split; try reflexivity;
      discriminate.
Qed.

Lemma usub_involution_witness :
  - kMaxInt < 5 < kMaxInt /\
  charly_usub_number (charly_usub_number (charly_create_integer 5))
    = charly_create_integer 5.
Proof.
  assert (H : - kMaxInt < 5 < kMaxInt) by (vm_compute; split; reflexivity).
  split; [exact H |].
  apply (proj2 (proj1 usub_involution 5 H)).
Defined.

(** ** Bitwise operators *)

Lemma int32_range_shiftr (a : Z) :
  - 2 ^ 31 <= a < 2 ^ 31 <-> Z.shiftr a 31 = 0 \/ Z.shiftr a 31 = -1.
Proof. rewrite Z.shiftr_div_pow2 by lia. split; zdm. Qed.

Lemma s32_range (x : Z) : - 2 ^ 31 <= s32 x < 2 ^ 31.
Proof.
  unfold s32. pose proof (Z.mod_pos_bound x (2 ^ 32) ltac:(lia)).
  cbv zeta. destruct (Z.ltb_spec (x mod 2 ^ 32) (2 ^ 31)); lia.
Qed.

Lemma s32_small (x : Z) : - 2 ^ 31 <= x < 2 ^ 31 -> s32 x = x.
Proof.
  intros Hx. unfold s32. cbv zeta.
  destruct (Z.ltb_spec (x mod 2 ^ 32) (2 ^ 31)); zdm.
Qed.

Lemma s32_periodic (x k : Z) : s32 (x + k * 2 ^ 32) = s32 x.
Proof. unfold s32. rewrite Z.mod_add by lia. reflexivity. Qed.

Lemma bitwise_int32_range (a b : Z) :
  - 2 ^ 31 <= a < 2 ^ 31 -> - 2 ^ 31 <= b < 2 ^ 31 ->
  - 2 ^ 31 <= Z.land a b < 2 ^ 31 /\
  - 2 ^ 31 <= Z.lor a b < 2 ^ 31 /\
  - 2 ^ 31 <= Z.lxor a b < 2 ^ 31 /\
  - 2 ^ 31 <= Z.lnot a < 2 ^ 31.
Proof.
  intros Ha Hb. rewrite !int32_range_shiftr in *.
  rewrite Z.shiftr_land, Z.shiftr_lor, Z.shiftr_lxor.
  repeat split.
  - destruct Ha as [-> | ->], Hb as [-> | ->]; cbn; auto.
  - destruct Ha as [-> | ->], Hb as [-> | ->]; cbn; auto.
  - destruct Ha as [-> | ->], Hb as [-> | ->]; cbn; auto.
  - rewrite Z.shiftr_div_pow2 in * by lia. unfold Z.lnot. zdm.
Qed.

Lemma create_integer_returns_int (x : Z) :
  - 2 ^ 31 <= x < 2 ^ 31 ->
  returns_int (Some (charly_create_number_int32 x)) x.
Proof.
  intros Hx. exists (charly_create_integer x).
  split; [reflexivity |]. split; [apply create_integer_is_int |].
  apply int_to_int64_create_in_range.
  change kMinInt with (- 2 ^ 47). change kMaxInt with (2 ^ 47 - 1). lia.
Qed.

Section ConversionFacts.

Context (FP_STRIP_NAN FP_STRIP_INF : Z -> Z).
Context (CHECK_number : VALUE -> option VALUE).

(** X10. The bitwise operators work on the low 32 bits of an integer
    operand, read as a signed 32-bit number: bits 32 to 47 of the
    operand do not matter.  The result is an integer-tagged value, and
    it reads back as the bitwise and, or, exclusive or and complement
    of those signed 32-bit numbers. *)
Theorem bitwise_on_integers (i j : Z) :
  kMinInt <= i <= kMaxInt -> kMinInt <= j <= kMaxInt ->
  let l := charly_create_integer i in
  let r := charly_create_integer j in
  returns_int (charly_and_number FP_STRIP_NAN FP_STRIP_INF l r)
              (Z.land (s32 i) (s32 j)) /\
  returns_int (charly_or_number FP_STRIP_NAN FP_STRIP_INF l r)
              (Z.lor (s32 i) (s32 j)) /\
  returns_int (charly_xor_number FP_STRIP_NAN FP_STRIP_INF l r)
              (Z.lxor (s32 i) (s32 j)) /\
  returns_int (charly_ubnot_number FP_STRIP_NAN FP_STRIP_INF l) (- s32 i - 1) /\
  (- 2 ^ 31 <= i < 2 ^ 31 -> s32 i = i) /\
  (forall k, s32 (i + k * 2 ^ 32) = s32 i).
Proof.
  intros Hi Hj l r.
  assert (Hl : charly_number_to_int32 FP_STRIP_NAN FP_STRIP_INF l = Some (s32 i)).
  { unfold charly_number_to_int32, l, charly_int_to_int32.
    rewrite (is_int_not_float _ (create_integer_is_int i)).
    rewrite int_to_int64_create_in_range by exact Hi. reflexivity. }
  assert (Hr : charly_number_to_int32 FP_STRIP_NAN FP_STRIP_INF r = Some (s32 j)).
  { unfold charly_number_to_int32, r, charly_int_to_int32.
    rewrite (is_int_not_float _ (create_integer_is_int j)).
    rewrite int_to_int64_create_in_range by exact Hj. reflexivity. }
  destruct (bitwise_int32_range (s32 i) (s32 j) (s32_range i) (s32_range j))
    as (Hand & Hor & Hxor & Hnot).
  unfold charly_and_number, charly_or_number, charly_xor_number, charly_ubnot_number.
  rewrite Hl, Hr. cbn [mbind option_bind].
  split; [apply create_integer_returns_int, Hand |].
  split; [apply create_integer_returns_int, Hor |].
  split; [apply create_integer_returns_int, Hxor |].
  split.
  - unfold l. rewrite create_integer_is_int. unfold charly_int_to_int32.
    rewrite int_to_int64_create_in_range by exact Hi.
    replace (- s32 i - 1) with (Z.lnot (s32 i)) by (unfold Z.lnot; lia).
    apply create_integer_returns_int, Hnot.
  - split; [apply s32_small | apply s32_periodic].
Qed.

Lemma wrap48_create (x : Z) :
  charly_int_to_int64 (charly_create_integer x) = wrap48 x.
Proof.
  rewrite int_to_int64_create. unfold wrap48. cbv zeta.
  destruct (Z.ltb_spec (x mod 2 ^ 48) (2 ^ 47)); zdm.
Qed.

Hypothesis strip_nan : forall d, FP_STRIP_NAN d = if fp_is_nan d then fp_pos_zero else d.
Hypothesis strip_inf : forall d, FP_STRIP_INF d = if fp_is_inf d then fp_pos_zero else d.

Lemma safe_double_finite (d : Z) :
  fp_is_finite d = true ->
  charly_double_to_safe_double FP_STRIP_NAN FP_STRIP_INF d = d.
Proof.
  intros Hf. unfold charly_double_to_safe_double.
  assert (Hn : fp_is_nan d = false).
  { unfold fp_is_nan. unfold fp_is_finite in Hf. apply negb_true_iff in Hf.
    rewrite Hf. reflexivity. }
  assert (Hi : fp_is_inf d = false).
  { unfold fp_is_inf. unfold fp_is_finite in Hf. apply negb_true_iff in Hf.
    rewrite Hf. reflexivity. }
  rewrite strip_nan, Hn, strip_inf, Hi. reflexivity.
Qed.

Hypothesis check_number : forall v, charly_is_number v = true -> CHECK_number v = None.

(** X11. The number primitives, for the macros as [defines.h] documents
    them and a check that lets numbers pass.  [to_float] of an integer
    is the float of the same value and [to_int] brings it back;
    [to_float] leaves a float as it is.  [to_int] of a finite float
    truncates toward zero and then keeps the low 48 bits without a range
    check, so a float beyond the 48-bit range comes back wrapped;
    [to_int] of the canonical NaN is the integer 0. *)
Theorem number_primitives :
  (forall i, kMinInt <= i <= kMaxInt ->
     PrimitiveNumber_to_float CHECK_number (charly_create_integer i)
       = Some (int64_to_double i) /\
     PrimitiveNumber_to_int FP_STRIP_NAN FP_STRIP_INF CHECK_number (int64_to_double i)
       = Some (charly_create_integer i)) /\
  (forall v, charly_is_float v = true ->
     PrimitiveNumber_to_float CHECK_number v = Some v) /\
  (forall d, fp_is_finite d = true -> - 2 ^ 63 <= fp_trunc d < 2 ^ 63 ->
     returns_int (PrimitiveNumber_to_int FP_STRIP_NAN FP_STRIP_INF CHECK_number d)
                 (wrap48 (fp_trunc d))) /\
  PrimitiveNumber_to_int FP_STRIP_NAN FP_STRIP_INF CHECK_number kNaN
    = Some (charly_create_integer 0).
Proof.
  assert (Hr : kMinInt = - 2 ^ 47 /\ kMaxInt = 2 ^ 47 - 1) by (split; reflexivity).
  assert (Hto_int : forall d, fp_is_finite d = true -> - 2 ^ 63 <= fp_trunc d < 2 ^ 63 ->
            PrimitiveNumber_to_int FP_STRIP_NAN FP_STRIP_INF CHECK_number d
            = Some (charly_create_integer (fp_trunc d))).
  { intros d Hf Ht. destruct (finite_is_float d Hf) as (Hfl & _).
    unfold PrimitiveNumber_to_int.
    rewrite check_number by (unfold charly_is_number; rewrite Hfl; apply orb_true_r).
    unfold charly_number_to_int64, charly_double_to_int64. rewrite Hfl.
    rewrite safe_double_finite by exact Hf.
    unfold fp_to_int. rewrite Hf.
    rewrite (proj2 (Z.leb_le _ _)) by (change (64 - 1) with 63; lia).
    rewrite (proj2 (Z.ltb_lt _ _)) by (change (64 - 1) with 63; lia).
    reflexivity. }
  split; [| split; [| split]].
  - intros i Hi. split.
    + unfold PrimitiveNumber_to_float.
      rewrite check_number
        by (unfold charly_is_number; rewrite create_integer_is_int; reflexivity).
      rewrite number_to_double_int by apply create_integer_is_int.
      rewrite int_to_int64_create_in_range by exact Hi.
      f_equal. apply int64_to_double_value. lia.
    + destruct (Z.eq_dec i 0) as [-> | Hne].
      * rewrite Hto_int;
          [reflexivity | reflexivity | vm_compute; split; [discriminate | reflexivity]].
      * destruct (int64_to_double_exact i Hne) as (Hf & _ & Ht); [lia |].
        rewrite Hto_int by (rewrite ?Ht; auto; lia). rewrite Ht. reflexivity.
  - intros v Hf. unfold PrimitiveNumber_to_float.
    rewrite check_number by (unfold charly_is_number; rewrite Hf; apply orb_true_r).
    unfold charly_number_to_double, charly_double_to_double. rewrite Hf.
    rewrite create_double_eq.
    rewrite is_float_eq in Hf. apply orb_true_iff in Hf as [Hn | Hfin].
    + apply Z.eqb_eq in Hn. subst v. reflexivity.
    + rewrite Hfin. reflexivity.
  - intros d Hf Ht. rewrite (Hto_int d Hf Ht).
    eexists. split; [reflexivity |]. split; [apply create_integer_is_int |].
    apply wrap48_create.
  - unfold PrimitiveNumber_to_int.
    rewrite check_number by reflexivity.
    unfold charly_number_to_int64, charly_double_to_int64, charly_double_to_safe_double.
    change (charly_is_float kNaN) with true. cbv iota.
    rewrite strip_nan. change (fp_is_nan kNaN) with true. cbv iota.
    rewrite strip_inf. reflexivity.
Qed.

End ConversionFacts.

Lemma bitwise_on_integers_witness :
  kMinInt <= 2 ^ 32 + 5 <= kMaxInt /\ kMinInt <= -1 <= kMaxInt /\
  returns_int (charly_and_number (fun d => d) (fun d => d)
                 (charly_create_integer (2 ^ 32 + 5)) (charly_create_integer (-1)))
              5.
Proof.
  assert (H1 : kMinInt <= 2 ^ 32 + 5 <= kMaxInt) by (vm_compute; split; discriminate).
  assert (H2 : kMinInt <= -1 <= kMaxInt) by (vm_compute; split; discriminate).
  split; [exact H1 |]. split; [exact H2 |].
  apply (proj1 (bitwise_on_integers (fun d => d) (fun d => d) (2 ^ 32 + 5) (-1) H1 H2)).
Defined.

Lemma number_primitives_witness :
  PrimitiveNumber_to_int
    (fun d => if fp_is_nan d then fp_pos_zero else d)
    (fun d => if fp_is_inf d then fp_pos_zero else d)
    (fun v => if charly_is_number v then None else Some kNull)
    kNaN
  = Some (charly_create_integer 0).
Proof.
  apply (number_primitives
           (fun d => if fp_is_nan d then fp_pos_zero else d)
           (fun d => if fp_is_inf d then fp_pos_zero else d)
           (fun v => if charly_is_number v then None else Some kNull)).
  - intros d. reflexivity.
  - intros d. reflexivity.
  - intros v ->. reflexivity.
Defined.

(** ** Operations on immediate strings *)

Lemma string_data_ptr_istring (big_endian : bool) (m : Memory) :
  charly_string_data_ptr big_endian m kSignatureIString
  = Some (InValue (if big_endian then 3 else 0)%nat).
Proof. destruct big_endian; reflexivity. Qed.

Lemma string_data_ptr_pstring (big_endian : bool) (m : Memory) :
  charly_string_data_ptr big_endian m kSignaturePString
  = Some (InValue (if big_endian then 2 else 0)%nat).
Proof. destruct big_endian; reflexivity. Qed.

(** A buffer that starts with the bytes [s]. *)
Lemma take_prefix (n : nat) (d s : list Z) :
  take n d = s -> d = s ++ drop n d.
Proof. intros <-. symmetry. apply take_drop. Qed.

Lemma word_bytes_istring (big_endian : bool) :
  word_bytes big_endian kSignatureIString
  = if big_endian then [127; 255; 0; 0; 0; 0; 0; 0] else [0; 0; 0; 0; 0; 0; 255; 127].
Proof. destruct big_endian; reflexivity. Qed.

Lemma word_bytes_pstring (big_endian : bool) :
  word_bytes big_endian kSignaturePString
  = if big_endian then [127; 254; 0; 0; 0; 0; 0; 0] else [0; 0; 0; 0; 0; 0; 254; 127].
Proof. destruct big_endian; reflexivity. Qed.

Ltac split_string s :=
  destruct s as [| ? [| ? [| ? [| ? [| ? [| ? [| ? s]]]]]]].

(** X12. Concatenation into an immediate string.  For two strings, heap
    or immediate, whose bytes are [s1] and [s2] and whose lengths add up
    to at most 5, [charly_string_concat_into_immediate] returns the very
    value [charly_create_istring] builds from the bytes [s1 ++ s2]: the
    inline form with the length byte [|s1| + |s2|].  When the lengths add
    up to exactly 6, [charly_string_concat_into_packed] returns the
    packed value of [s1 ++ s2]. *)
Theorem concat_immediate_strings (big_endian : bool) (m : Memory)
    (left right : VALUE) (s1 s2 d1 d2 : list Z) :
  charly_string_length big_endian m left = Some (Z.of_nat (length s1)) ->
  charly_string_data big_endian m left = Some (Some d1) ->
  take (length s1) d1 = s1 ->
  charly_string_length big_endian m right = Some (Z.of_nat (length s2)) ->
  charly_string_data big_endian m right = Some (Some d2) ->
  take (length s2) d2 = s2 ->
  ((length s1 + length s2 <= 5)%nat ->
     is_Some (charly_string_concat_into_immediate big_endian m left right) /\
     charly_string_concat_into_immediate big_endian m left right
     = charly_create_istring big_endian (s1 ++ s2) (Z.of_nat (length (s1 ++ s2)))) /\
  ((length s1 + length s2 = 6)%nat ->
     is_Some (charly_string_concat_into_packed big_endian m left right) /\
     charly_string_concat_into_packed big_endian m left right
     = charly_create_istring big_endian (s1 ++ s2) 6).
Proof.
  intros Hl1 Hd1 Ht1 Hl2 Hd2 Ht2.
  apply take_prefix in Ht1. apply take_prefix in Ht2.
  split; intros Hlen.
  - unfold charly_string_concat_into_immediate, string_source.
    rewrite string_data_ptr_istring, Hl1, Hl2, Hd1, Hd2, word_bytes_istring.
    rewrite Ht1, Ht2. clear Hl1 Hl2 Hd1 Hd2 Ht1 Ht2.
    generalize (drop (length s1) d1) (drop (length s2) d2). intros r1 r2.
    split_string s1; cbn in Hlen; try lia;
      split_string s2; cbn in Hlen; try lia;
      destruct big_endian; (split; [eexists |]; reflexivity).
  - unfold charly_string_concat_into_packed, string_source.
    rewrite string_data_ptr_pstring, Hl1, Hd1, Hd2, word_bytes_pstring.
    rewrite Ht1, Ht2. clear Hl1 Hl2 Hd1 Hd2 Ht1 Ht2.
    generalize (drop (length s1) d1) (drop (length s2) d2). intros r1 r2.
    split_string s1; cbn in Hlen; try lia;
      split_string s2; cbn in Hlen; try lia;
      destruct big_endian; (split; [eexists |]; reflexivity).
Qed.

Lemma concat_immediate_strings_witness :
  charly_string_concat_into_immediate false ∅ example_istring_ab example_istring_c
  = charly_create_istring false [97; 98; 99] 3.
Proof.
  apply (proj2 (proj1 (concat_immediate_strings false ∅
                  example_istring_ab example_istring_c [97; 98] [99]
                  (word_bytes false example_istring_ab)
                  (word_bytes false example_istring_c)
                  eq_refl eq_refl eq_refl eq_refl eq_refl eq_refl)
                (le_S _ _ (le_S _ _ (le_n 3))))).
Defined.

Lemma memcpy_nothing (b src : list Z) (offset : nat) :
  (offset <= length b)%nat -> memcpy b offset src 0 = Some b.
Proof.
  intros H. unfold memcpy. cbn [Nat.leb andb].
  rewrite Nat.add_0_r. rewrite (proj2 (Nat.leb_le _ _) H).
  rewrite take_0. cbn [app]. rewrite take_drop. reflexivity.
Qed.

Lemma string_mul_loop_empty (amount : nat) (b src : list Z) (buf : nat) :
  (buf <= length b)%nat ->
  string_mul_loop amount b buf src 0 0 = Some (b, 0).
Proof.
  intros H. induction amount as [| amount IH]; [reflexivity |].
  cbn [string_mul_loop]. change (Z.to_nat 0) with 0%nat.
  rewrite Nat.add_0_r, memcpy_nothing by exact H. cbn. exact IH.
Qed.

Lemma concat_replicate_nil {A} (n : nat) : concat (replicate n (@nil A)) = [].
Proof. induction n; [reflexivity | exact IHn]. Qed.

(** X13. Repetition into an immediate string.  For a string, heap or
    immediate, with the bytes [s] and a count [amount >= 0],
    [charly_string_mul_into_immediate] returns the value
    [charly_create_istring] builds from [amount] copies of [s] when they
    take at most 5 bytes, and [charly_string_mul_into_packed] returns
    the packed value when they take exactly 6.  For a negative count
    neither has a result: the loop counts down from it and never
    reaches zero. *)
Theorem mul_immediate_strings (big_endian : bool) (m : Memory)
    (left : VALUE) (s d : list Z) (amount : Z) :
  charly_string_length big_endian m left = Some (Z.of_nat (length s)) ->
  charly_string_data big_endian m left = Some (Some d) ->
  take (length s) d = s ->
  let copies := concat (replicate (Z.to_nat amount) s) in
  (0 <= amount -> Z.of_nat (length s) * amount <= 5 ->
     is_Some (charly_string_mul_into_immediate big_endian m left amount) /\
     charly_string_mul_into_immediate big_endian m left amount
     = charly_create_istring big_endian copies (Z.of_nat (length copies))) /\
  (0 <= amount -> Z.of_nat (length s) * amount = 6 ->
     is_Some (charly_string_mul_into_packed big_endian m left amount) /\
     charly_string_mul_into_packed big_endian m left amount
     = charly_create_istring big_endian copies 6) /\
  (amount < 0 ->
     charly_string_mul_into_immediate big_endian m left amount = None /\
     charly_string_mul_into_packed big_endian m left amount = None).
Proof.
  intros Hl Hd Ht copies. subst copies.
  apply take_prefix in Ht.
  split; [| split].
  - intros Ha Hlen.
    unfold charly_string_mul_into_immediate, string_source.
    rewrite string_data_ptr_istring, Hl, Hd, word_bytes_istring.
    cbn [mbind option_bind]. rewrite (proj2 (Z.ltb_ge _ _) Ha).
    rewrite Ht. clear Hl Hd Ht.
    generalize (drop (length s) d). intros r.
    destruct s as [| a0 s].
    + cbn [app length Z.of_nat]. rewrite concat_replicate_nil.
      rewrite string_mul_loop_empty by (destruct big_endian; cbn; lia).
      destruct big_endian; (split; [eexists |]; reflexivity).
    + destruct (Z.to_nat amount) as [| [| [| [| [| [| k]]]]]] eqn:E;
        try (exfalso; cbn [length] in Hlen; lia);
        split_string s; cbn in Hlen; try lia;
        destruct big_endian; (split; [eexists |]; reflexivity).
  - intros Ha Hlen.
    unfold charly_string_mul_into_packed, string_source.
    rewrite string_data_ptr_pstring, Hl, Hd, word_bytes_pstring.
    cbn [mbind option_bind]. rewrite (proj2 (Z.ltb_ge _ _) Ha).
    rewrite Ht. clear Hl Hd Ht.
    generalize (drop (length s) d). intros r.
    destruct s as [| a0 s]; [cbn in Hlen; lia |].
    destruct (Z.to_nat amount) as [| [| [| [| [| [| [| k]]]]]]] eqn:E;
      try (exfalso; cbn [length] in Hlen; lia);
      split_string s; cbn in Hlen; try lia;
      destruct big_endian; (split; [eexists |]; reflexivity).
  - intros Ha.
    unfold charly_string_mul_into_immediate, charly_string_mul_into_packed,
      string_source.
    rewrite string_data_ptr_istring, string_data_ptr_pstring, Hl, Hd.
    cbn [mbind option_bind]. rewrite (proj2 (Z.ltb_lt _ _) Ha). split; reflexivity.
Qed.

Lemma mul_immediate_strings_witness :
  charly_string_mul_into_immediate false ∅ example_istring_ab 2
  = charly_create_istring false [97; 98; 97; 98] 4.
Proof.
  apply (proj2 (proj1 (mul_immediate_strings false ∅ example_istring_ab [97; 98]
                         (word_bytes false example_istring_ab) 2
                         eq_refl eq_refl eq_refl)
                 ltac:(discriminate) ltac:(discriminate))).
Defined.

Lemma not_ptr_not_hstring (m : Memory) (v : VALUE) :
  charly_is_ptr v = false -> charly_is_hstring m v = Some false.
Proof.
  intros H. unfold charly_is_hstring, charly_is_heap_type, charly_is_on_heap.
  rewrite H. reflexivity.
Qed.

Lemma length_word_bytes (big_endian : bool) (v : Z) :
  length (word_bytes big_endian v) = 8%nat.
Proof.
  unfold word_bytes, le_bytes. destruct big_endian;
    rewrite ?length_rev, length_map, length_seq; reflexivity.
Qed.

(** X14. [charly_string_std] gives the bytes of a string.  For a value
    that is neither a pointer nor an immediate string it gives the text
    not a string on a big-endian machine only: on a little-endian machine
    [charly_string_data] returns the address of the value for every
    value that is not a heap string, never the null pointer, while
    [charly_string_length] is [0xFFFFFFFF], so building the string reads
    past the eight bytes of the value and has no defined result. *)
Theorem string_std_cases (big_endian : bool) (m : Memory) (v : VALUE) :
  (forall s d,
     charly_string_length big_endian m v = Some (Z.of_nat (length s)) ->
     charly_string_data big_endian m v = Some (Some d) ->
     take (length s) d = s ->
     charly_string_std big_endian m v = Some s) /\
  (charly_is_ptr v = false -> charly_is_immediate_string v = false ->
     charly_string_data big_endian m v
       = Some (if big_endian then None else Some (word_bytes false v)) /\
     charly_string_length big_endian m v = Some 0xFFFFFFFF /\
     charly_string_std big_endian m v
       = if big_endian then Some not_a_string else None).
Proof.
  split.
  - intros s d Hl Hd Ht. unfold charly_string_std. rewrite Hd, Hl.
    cbn [mbind option_bind]. rewrite Nat2Z.id.
    assert (Hle : (length s <= length d)%nat).
    { rewrite <- Ht at 1. rewrite length_take. lia. }
    rewrite (proj2 (Nat.leb_le _ _) Hle), Ht. reflexivity.
  - intros Hp Hs. unfold charly_is_immediate_string in Hs.
    apply orb_false_iff in Hs as [Hi Hps].
    assert (Hd : charly_string_data big_endian m v
                 = Some (if big_endian then None else Some (word_bytes false v))).
    { unfold charly_string_data. rewrite (not_ptr_not_hstring m v Hp).
      cbn [mbind option_bind]. rewrite Hps, Hi. destruct big_endian; reflexivity. }
    assert (Hl : charly_string_length big_endian m v = Some 0xFFFFFFFF).
    { unfold charly_string_length. rewrite Hps, Hi, (not_ptr_not_hstring m v Hp).
      reflexivity. }
    split; [exact Hd |]. split; [exact Hl |].
    unfold charly_string_std. rewrite Hd, Hl. cbn [mbind option_bind].
    destruct big_endian; [reflexivity |].
    rewrite length_word_bytes. reflexivity.
Qed.

Lemma string_std_cases_witness :
  charly_string_std false ∅ kTrue = None /\
  charly_string_std true ∅ kTrue = Some not_a_string.
Proof.
  split.
  - apply (proj2 (proj2 (proj2 (string_std_cases false ∅ kTrue) eq_refl eq_refl))).
  - apply (proj2 (proj2 (proj2 (string_std_cases true ∅ kTrue) eq_refl eq_refl))).
Defined.

(** ** Symbols *)

Lemma crc_table_length : length crc_table = 256%nat.
Proof. reflexivity. Qed.

Lemma crc_table_range (index e : Z) :
  crc_table_entry index = Some e -> 0 <= e < 2 ^ 32.
Proof.
  unfold crc_table_entry. destruct ((0 <=? index) && (index <? 256)); [| discriminate].
  intros H.
  assert (Hall : forallb (fun e => (0 <=? e) && (e <? 2 ^ 32)) crc_table = true)
    by (vm_compute; reflexivity).
  rewrite forallb_forall in Hall.
  specialize (Hall e). rewrite <- list_elem_of_In in Hall.
  specialize (Hall (list_elem_of_lookup_2 _ _ _ H)). lia.
Qed.

Lemma crc_table_defined (index : Z) :
  0 <= index < 256 -> is_Some (crc_table_entry index).
Proof.
  intros H. unfold crc_table_entry.
  rewrite (proj2 (Z.leb_le _ _)), (proj2 (Z.ltb_lt _ _)) by lia. cbn [andb].
  apply lookup_lt_is_Some. rewrite crc_table_length. lia.
Qed.

Lemma crc_table_outside (index : Z) : 256 <= index -> crc_table_entry index = None.
Proof.
  intros H. unfold crc_table_entry.
  rewrite (proj2 (Z.ltb_ge _ _)) by lia. rewrite andb_false_r. reflexivity.
Qed.

Lemma lxor_bound (a b n : Z) :
  0 <= n -> 0 <= a < 2 ^ n -> 0 <= b < 2 ^ n -> 0 <= Z.lxor a b < 2 ^ n.
Proof.
  intros Hn Ha Hb.
  assert (H0 : 0 <= Z.lxor a b) by (apply Z.lxor_nonneg; lia).
  split; [exact H0 |].
  destruct (Z.eq_dec (Z.lxor a b) 0) as [-> | Hne]; [apply Z.pow_pos_nonneg; lia |].
  assert (Hpos : 0 < n).
  { destruct (Z.eq_dec n 0) as [-> | ?]; [| lia].
    exfalso. apply Hne. replace a with 0 by lia. replace b with 0 by lia. reflexivity. }
  apply Z.log2_lt_pow2; [lia |].
  pose proof (Z.log2_lxor a b ltac:(lia) ltac:(lia)) as Hl.
  assert (Z.log2 a < n).
  { destruct (Z.eq_dec a 0) as [-> | ?]; [exact Hpos | apply Z.log2_lt_pow2; lia]. }
  assert (Z.log2 b < n).
  { destruct (Z.eq_dec b 0) as [-> | ?]; [exact Hpos | apply Z.log2_lt_pow2; lia]. }
  lia.
Qed.

Lemma land_low_byte (crc : Z) : 0 <= Z.land crc 0xFF < 256.
Proof.
  change 0xFF with (Z.ones 8). rewrite Z.land_ones by lia.
  apply Z.mod_pos_bound. lia.
Qed.

Section SymbolFacts.

Context (char_is_signed : bool).

Lemma crc_index_plain (crc b : Z) :
  is_byte b -> char_is_signed = false \/ b < 128 ->
  0 <= Z.lxor (Z.land crc 0xFF) (u32 (char_value char_is_signed b)) < 256.
Proof.
  unfold is_byte. intros Hb Hc.
  assert (Hv : u32 (char_value char_is_signed b) = b).
  { unfold char_value, u32.
    destruct Hc as [-> | Hc].
    - cbn [andb]. apply Z.mod_small. lia.
    - rewrite (proj2 (Z.leb_gt _ _)) by lia. rewrite andb_false_r.
      apply Z.mod_small. lia. }
  rewrite Hv. apply (lxor_bound _ _ 8); [lia | apply land_low_byte | exact Hb].
Qed.

Lemma crc_index_signed (crc b : Z) :
  is_byte b -> char_is_signed = true -> 128 <= b ->
  256 <= Z.lxor (Z.land crc 0xFF) (u32 (char_value char_is_signed b)).
Proof.
  unfold is_byte. intros Hb -> Hhi.
  assert (Hv : u32 (char_value true b) = 2 ^ 32 - 256 + b).
  { unfold char_value, u32. rewrite (proj2 (Z.leb_le _ _)) by lia. cbn [andb].
    zdm. }
  rewrite Hv.
  pose proof (land_low_byte crc) as Hl.
  assert (Hs : Z.shiftr (Z.lxor (Z.land crc 0xFF) (2 ^ 32 - 256 + b)) 8 = 2 ^ 24 - 1).
  { rewrite Z.shiftr_lxor, !Z.shiftr_div_pow2 by lia.
    replace (Z.land crc 0xFF / 2 ^ 8) with 0 by zdm.
    replace ((2 ^ 32 - 256 + b) / 2 ^ 8) with (2 ^ 24 - 1) by zdm.
    reflexivity. }
  rewrite Z.shiftr_div_pow2 in Hs by lia. zdm.
Qed.

Lemma crc32_impl_range (p : list Z) (len : nat) (crc c : Z) :
  0 <= crc < 2 ^ 32 ->
  crc32_impl char_is_signed p len crc = Some c -> 0 <= c < 2 ^ 32.
Proof.
  revert p crc. induction len as [| len IH]; intros p crc Hcrc.
  - cbn [crc32_impl]. intros H. injection H as <-. exact Hcrc.
  - destruct p as [| b p]; [discriminate |]. cbn [crc32_impl].
    destruct (crc_table_entry _) as [e |] eqn:He; [| discriminate]. cbn.
    apply IH. apply crc_table_range in He.
    apply (lxor_bound _ _ 32); [lia | | exact He].
    rewrite Z.shiftr_div_pow2 by lia. zdm.
Qed.

Lemma crc32_impl_plain (p : list Z) (len : nat) (crc : Z) :
  (len <= length p)%nat ->
  Forall is_byte (take len p) ->
  Forall (fun b => char_is_signed = false \/ b < 128) (take len p) ->
  is_Some (crc32_impl char_is_signed p len crc).
Proof.
  revert p crc. induction len as [| len IH]; intros p crc Hlen Hb Hc.
  - cbn. eauto.
  - destruct p as [| b p]; [cbn in Hlen; lia |]. cbn [crc32_impl].
    rewrite firstn_cons in Hb, Hc.
    apply Forall_cons_1 in Hb as [Hb Hbs]. apply Forall_cons_1 in Hc as [Hc Hcs].
    destruct (crc_table_defined _ (crc_index_plain crc b Hb Hc)) as [e ->]. cbn.
    apply IH; [cbn in Hlen; lia | assumption | assumption].
Qed.

Lemma crc32_impl_signed (p : list Z) (len : nat) (crc : Z) :
  char_is_signed = true ->
  Forall is_byte (take len p) ->
  Exists (fun b => 128 <= b) (take len p) ->
  crc32_impl char_is_signed p len crc = None.
Proof.
  intros Hs. revert p crc. induction len as [| len IH]; intros p crc Hb Hex.
  - rewrite take_0 in Hex. inversion Hex.
  - destruct p as [| b p]; [reflexivity |]. cbn [crc32_impl].
    rewrite firstn_cons in Hb, Hex.
    apply Forall_cons_1 in Hb as [Hb Hbs].
    destruct (Z_lt_le_dec b 128) as [Hlo | Hhi].
    + destruct (crc_table_entry _) as [e |]; [| reflexivity]. cbn.
      apply IH; [assumption |].
      inversion Hex as [? ? Hh | ? ? Ht]; subst; [lia | exact Ht].
    + rewrite crc_table_outside by (apply crc_index_signed; assumption).
      reflexivity.
Qed.

Lemma crc32_impl_short (p : list Z) (len : nat) (crc : Z) :
  (length p < len)%nat -> crc32_impl char_is_signed p len crc = None.
Proof.
  revert p crc. induction len as [| len IH]; intros p crc Hlen; [lia |].
  destruct p as [| b p]; [reflexivity |]. cbn [crc32_impl].
  destruct (crc_table_entry _); [| reflexivity]. cbn.
  apply IH. cbn in Hlen. lia.
Qed.

Lemma crc32_impl_take (p : list Z) (len : nat) (crc : Z) :
  crc32_impl char_is_signed (take len p) len crc = crc32_impl char_is_signed p len crc.
Proof.
  revert p crc. induction len as [| len IH]; intros p crc; [reflexivity |].
  destruct p as [| b p]; [reflexivity |]. rewrite firstn_cons. cbn [crc32_impl].
  destruct (crc_table_entry _); [| reflexivity]. cbn. apply IH.
Qed.

Lemma crc32_to_symbol_is_symbol (c : Z) :
  charly_is_symbol (crc32_to_symbol c) = true.
Proof.
  rewrite is_symbol_signature. unfold crc32_to_symbol, kMaskSymbol.
  rewrite land_low48. change kSignatureSymbol with (0x7ffd * 2 ^ 48).
  rewrite lor_signature_payload by (apply Z.mod_pos_bound; lia).
  apply Z.eqb_eq. unfold signature.
  pose proof (Z.mod_pos_bound c (2 ^ 48) ltac:(lia)). zdm.
Qed.

(** X15. The CRC-32 that hashes the text of a symbol.  For [length]
    bytes that are there to read and that are plain ASCII, or any bytes
    on a machine whose [char] is unsigned, [crc32] has a result, the
    result fits 32 bits, and the symbol made of it is a symbol value
    that holds the hash.  On a machine whose [char] is signed, a byte of
    128 or more makes the index into [crc_table] leave the 256 entries,
    so [crc32] of such data has no defined result; nor has it when
    fewer than [length] bytes are there. *)
Theorem crc32_defined (data : list Z) (length : nat) :
  Forall is_byte data ->
  ((length <= List.length data)%nat ->
   Forall (fun b => char_is_signed = false \/ b < 128) (take length data) ->
   exists crc,
     crc32 char_is_signed data length = Some crc /\ 0 <= crc < 2 ^ 32 /\
     charly_create_symbol_data char_is_signed data length = Some (crc32_to_symbol crc) /\
     charly_is_symbol (crc32_to_symbol crc) = true /\
     Z.land (crc32_to_symbol crc) kMaskSymbol = crc) /\
  (char_is_signed = true -> Exists (fun b => 128 <= b) (take length data) ->
   crc32 char_is_signed data length = None) /\
  ((List.length data < length)%nat -> crc32 char_is_signed data length = None).
Proof.
  intros Hb. split; [| split].
  - intros Hlen Hc.
    destruct (crc32_impl_plain data length (u32 (Z.lnot 0)) Hlen
                (Forall_take _ _ _ Hb) Hc) as [c Hcrc].
    assert (Hinit : 0 <= u32 (Z.lnot 0) < 2 ^ 32)
      by (vm_compute; split; [discriminate | reflexivity]).
    pose proof (crc32_impl_range data length _ c Hinit Hcrc) as Hr.
    exists (u32 (Z.lnot c)).
    assert (Hu : 0 <= u32 (Z.lnot c) < 2 ^ 32) by (apply Z.mod_pos_bound; lia).
    unfold charly_create_symbol_data, crc32. rewrite Hcrc. cbn.
    repeat split; try lia.
    + apply crc32_to_symbol_is_symbol.
    + unfold crc32_to_symbol, kMaskSymbol. rewrite !land_low48.
      change kSignatureSymbol with (0x7ffd * 2 ^ 48).
      rewrite lor_signature_payload by (apply Z.mod_pos_bound; lia).
      zdm.
  - intros Hs Hex. unfold crc32.
    rewrite crc32_impl_signed by (try apply Forall_take; assumption). reflexivity.
  - intros Hlen. unfold crc32. rewrite crc32_impl_short by exact Hlen. reflexivity.
Qed.

End SymbolFacts.

(** The hash is the usual CRC-32: the check value of the digits 1 to 9. *)
Lemma crc32_check_value (char_is_signed : bool) :
  crc32 char_is_signed [49; 50; 51; 52; 53; 54; 55; 56; 57] 9 = Some 0xCBF43926.
Proof. destruct char_is_signed; vm_compute; reflexivity. Qed.

Lemma crc32_defined_witness :
  Forall is_byte [49; 50; 51] /\
  exists crc, crc32 true [49; 50; 51] 3 = Some crc /\ 0 <= crc < 2 ^ 32.
Proof.
  assert (Hb : Forall is_byte [49; 50; 51]).
  { repeat (apply Forall_cons; split; [unfold is_byte; lia |]). apply Forall_nil_2. }
  split; [exact Hb |].
  destruct (proj1 (crc32_defined true [49; 50; 51] 3 Hb))
    as (crc & Hcrc & Hr & _).
  - cbn; lia.
  - repeat (apply Forall_cons; split; [right; lia |]). apply Forall_nil_2.
  - exists crc. split; assumption.
Defined.

Lemma get_type_symbol_inv (m : Memory) (v : VALUE) :
  charly_get_type m v = Some kTypeSymbol -> charly_is_symbol v = true.
Proof.
  unfold charly_get_type, charly_as_basic.
  destruct (charly_is_on_heap v).
  - destruct (m !! charly_as_pointer v) as [[b d] |]; [| discriminate].
    destruct d; discriminate.
  - destruct (charly_is_float v); [discriminate |].
    destruct (charly_is_int v); [discriminate |].
    destruct (charly_is_null v); [discriminate |].
    destruct (charly_is_pstring v || charly_is_istring v); [discriminate |].
    destruct (charly_is_boolean v); [discriminate |].
    destruct (charly_is_symbol v); [reflexivity | discriminate].
Qed.

Section CreateSymbol.

Context (char_is_signed : bool).
Context (to_string_int64 to_string_double : Z -> list Z).
Context (big_endian : bool) (m : Memory).

Lemma create_symbol_data_is_symbol (data : list Z) (n : nat) (s : VALUE) :
  charly_create_symbol_data char_is_signed data n = Some s ->
  charly_is_symbol s = true.
Proof.
  unfold charly_create_symbol_data.
  destruct (crc32 char_is_signed data n) as [crc |]; [| discriminate].
  cbn. intros H. injection H as <-. apply crc32_to_symbol_is_symbol.
Qed.

Lemma create_symbol_of_symbol (v : VALUE) :
  charly_is_symbol v = true ->
  charly_create_symbol char_is_signed to_string_int64 to_string_double
    big_endian m v = Some v.
Proof.
  intros Hs. unfold charly_create_symbol.
  rewrite (proj2 (proj2 (proj2 (proj2 (proj2 (proj2 (get_type_tests m v)))))) Hs).
  reflexivity.
Qed.

(** X16. [charly_create_symbol] of a value.  Whatever it returns is a
    symbol value, and making a symbol of that again changes nothing: a
    symbol is returned as it is.  The symbol of an immediate string is
    the symbol of its bytes, and the symbols of null, true and false are
    the symbols of their names. *)
Theorem create_symbol_cases (v : VALUE) :
  let create_symbol :=
    charly_create_symbol char_is_signed to_string_int64 to_string_double
      big_endian m in
  (forall s, create_symbol v = Some s ->
     charly_is_symbol s = true /\ create_symbol s = Some s) /\
  (charly_is_symbol v = true -> create_symbol v = Some v) /\
  (forall s d,
     charly_is_immediate_string v = true ->
     charly_string_length big_endian m v = Some (Z.of_nat (length s)) ->
     charly_string_data big_endian m v = Some (Some d) ->
     take (length s) d = s ->
     create_symbol v = charly_create_symbol_string char_is_signed s) /\
  create_symbol kNull = charly_create_symbol_string char_is_signed text_null /\
  create_symbol kTrue = charly_create_symbol_string char_is_signed text_true /\
  create_symbol kFalse = charly_create_symbol_string char_is_signed text_false.
Proof.
  intros create_symbol. subst create_symbol.
  split; [| split; [apply create_symbol_of_symbol | split]].
  - intros s Hs.
    assert (Hsym : charly_is_symbol s = true).
    { revert Hs. unfold charly_create_symbol, charly_create_symbol_string.
      destruct (charly_get_type m v) as [type |] eqn:Ht; [| discriminate].
      cbn [mbind option_bind].
      destruct (type =? kTypeString).
      { destruct (string_source big_endian m v); [| discriminate].
        destruct (charly_string_length big_endian m v); [| discriminate].
        cbn. apply create_symbol_data_is_symbol. }
      destruct (type =? kTypeNumber).
      { destruct (charly_is_float v); apply create_symbol_data_is_symbol. }
      destruct (type =? kTypeBoolean); [apply create_symbol_data_is_symbol |].
      destruct (type =? kTypeNull); [apply create_symbol_data_is_symbol |].
      destruct (Z.eqb_spec type kTypeSymbol) as [-> | _].
      { intros H. injection H as <-. apply (get_type_symbol_inv m v Ht). }
      destruct (symbol_type_symbol_table !! Z.to_nat type); [| discriminate].
      cbn. apply create_symbol_data_is_symbol. }
    split; [exact Hsym | apply create_symbol_of_symbol, Hsym].
  - intros s d Hstr Hl Hd Ht. unfold charly_create_symbol.
    rewrite (proj1 (proj2 (proj2 (proj2 (proj2 (get_type_tests m v))))) Hstr).
    cbn [mbind option_bind]. change (kTypeString =? kTypeString) with true. cbv iota.
    unfold string_source. rewrite Hd, Hl. cbn [mbind option_bind].
    rewrite Nat2Z.id.
    unfold charly_create_symbol_string, charly_create_symbol_data, crc32.
    rewrite <- (crc32_impl_take char_is_signed d), Ht. reflexivity.
  - repeat split.
Qed.

End CreateSymbol.

Lemma create_symbol_cases_witness :
  charly_create_symbol false (fun _ => []) (fun _ => []) false ∅ example_istring_ab
  = charly_create_symbol_string false [97; 98].
Proof.
  apply (proj1 (proj2 (proj2 (create_symbol_cases false (fun _ => []) (fun _ => [])
                                false ∅ example_istring_ab)))
           [97; 98] (word_bytes false example_istring_ab)
           eq_refl eq_refl eq_refl eq_refl).
Defined.

(** ** Constructor lookup *)

Lemma find_constructor_loop_chain (m : Memory) (v : VALUE) (constructors : list VALUE) :
  constructor_chain m v constructors ->
  forall fuel, (length constructors < fuel)%nat ->
  is_Some (first_function m constructors) ->
  find_constructor_loop fuel m v = first_function m constructors.
Proof.
  induction 1 as [v Hc | v k rest Hc Hk _ IH]; intros fuel Hfuel Hsome.
  - destruct fuel as [| fuel]; [cbn in Hfuel; lia |].
    cbn. rewrite Hc. reflexivity.
  - destruct fuel as [| fuel]; [cbn in Hfuel; lia |].
    cbn [find_constructor_loop first_function]. rewrite Hc. cbn [mbind option_bind].
    rewrite Hk. cbn [mbind option_bind].
    cbn [first_function] in Hsome.
    destruct (charly_is_function m (cls_constructor k)) as [[] |];
      cbn [mbind option_bind] in *.
    + reflexivity.
    + apply IH; [cbn in Hfuel; lia | exact Hsome].
    + destruct Hsome as [? Hsome]. discriminate.
Qed.

(** X17. Constructor lookup.  [charly_find_constructor] returns the
    constructor of the first class, from the class itself along
    [parent_class], whose constructor is a function, and [kNull] when no
    class of the chain has one; [charly_find_super_constructor] does the
    same from the parent class on, and returns [kNull] at once for a
    class without a parent class.  A null class pointer is not read:
    [charly_find_constructor] returns [kNull] for it. *)
Theorem constructor_lookup (m : Memory) :
  (forall base constructors fuel,
     constructor_chain m (charly_create_pointer base) constructors ->
     (length constructors < fuel)%nat ->
     is_Some (first_function m constructors) ->
     charly_find_constructor fuel m base = first_function m constructors) /\
  (forall base b constructors fuel,
     class_at m base = Some b ->
     constructor_chain m (cls_parent_class b) constructors ->
     (length constructors < fuel)%nat ->
     is_Some (first_function m constructors) ->
     charly_find_super_constructor fuel m base = first_function m constructors) /\
  (forall base b fuel,
     class_at m base = Some b ->
     charly_is_class m (cls_parent_class b) = Some false ->
     charly_find_super_constructor fuel m base = Some kNull) /\
  (forall fuel, charly_find_constructor (S fuel) m 0 = Some kNull).
Proof.
  split; [| split; [| split]].
  - intros base constructors fuel Hchain Hfuel Hsome.
    apply find_constructor_loop_chain; assumption.
  - intros base b constructors fuel Hb Hchain Hfuel Hsome.
    unfold charly_find_super_constructor. rewrite Hb. cbn [mbind option_bind].
    inversion Hchain as [v Hc | v k rest Hc Hk Hrest]; subst.
    + rewrite Hc. reflexivity.
    + rewrite Hc. cbn [mbind option_bind negb].
      apply find_constructor_loop_chain; assumption.
  - intros base b fuel Hb Hc. unfold charly_find_super_constructor.
    rewrite Hb. cbn [mbind option_bind]. rewrite Hc. reflexivity.
  - intros fuel. reflexivity.
Qed.

Lemma constructor_memory_chain :
  constructor_chain constructor_memory (charly_create_pointer 4096)
    [kNull; charly_create_pointer 4608].
Proof.
  apply (constructors_class constructor_memory _
           (mkClass kNull kNull [] (charly_create_pointer 4224)
                    (charly_create_pointer 4352) ∅)
           [charly_create_pointer 4608]); [reflexivity | reflexivity |].
  apply (constructors_class constructor_memory _
           (mkClass kNull (charly_create_pointer 4608) []
                    (charly_create_pointer 4480) kNull ∅)
           []); [reflexivity | reflexivity |].
  apply constructors_end. reflexivity.
Qed.

Lemma constructor_lookup_witness :
  charly_find_constructor 3 constructor_memory 4096
  = Some (charly_create_pointer 4608).
Proof.
  apply (proj1 (constructor_lookup constructor_memory) 4096
           [kNull; charly_create_pointer 4608] 3%nat
           constructor_memory_chain (le_n 3)).
  exists (charly_create_pointer 4608). reflexivity.
Defined.

(** ** Local variables of a frame *)

Lemma take_insert_any {A} (n i : nat) (x : A) (l : list A) :
  take n (<[i := x]> l) = <[i := x]> (take n l).
Proof.
  destruct (Nat.lt_ge_cases i n) as [Hlt | Hge].
  - apply take_insert_lt, Hlt.
  - rewrite take_insert_ge by exact Hge.
    symmetry. apply list_insert_ge. rewrite length_take. lia.
Qed.

(** X18. Writing and reading the local variables of a frame.  A write
    succeeds exactly at the indices a read succeeds at; after it the
    written index reads as the new value and every other index reads as
    before, and [lvarcount] is unchanged.  The locals the collector
    traces are updated at the same index, so in a small frame a value
    written at an index from [lvarcount] on, although stored, is not
    among the values the collector marks. *)
Theorem frame_local_roundtrip (b : Basic) (f : Frame) (index : Z) (value : VALUE) :
  0 <= index ->
  (is_Some (Frame_write_local b f index value)
   <-> is_Some (Frame_read_local b f index)) /\
  (forall f', Frame_write_local b f index value = Some f' ->
     Frame_read_local b f' index = Some value /\
     (forall j, 0 <= j -> j <> index ->
        Frame_read_local b f' j = Frame_read_local b f j) /\
     Frame_lvarcount b f' = Frame_lvarcount b f /\
     frame_locals b f' = <[Z.to_nat index := value]> (frame_locals b f) /\
     (f1 b = true -> fr_senv_lvarcount f <= index ->
        frame_locals b f' = frame_locals b f)).
Proof.
  intros Hi. unfold Frame_write_local, Frame_read_local, Frame_lvarcount, frame_locals.
  destruct (f1 b).
  - split.
    + destruct (Nat.ltb_spec (Z.to_nat index) (length (fr_senv_data f))) as [Hlt | Hge].
      * split; intros _; [apply lookup_lt_is_Some, Hlt | eauto].
      * split; intros [x Hx]; [discriminate |].
        apply lookup_lt_Some in Hx. lia.
    + intros f'.
      destruct (Nat.ltb_spec (Z.to_nat index) (length (fr_senv_data f))) as [Hlt | Hge];
        [| discriminate].
      intros H. injection H as <-. cbn.
      split; [apply list_lookup_insert_eq, Hlt |].
      split; [intros j Hj Hne; apply list_lookup_insert_ne; lia |].
      split; [reflexivity |].
      split; [apply take_insert_any |].
      intros _ Hc. apply take_insert_ge. lia.
  - destruct (fr_lenv f) as [lenv |] eqn:Hlenv; cbn [mbind option_bind].
    + split.
      * destruct (Nat.ltb_spec (Z.to_nat index) (length lenv)) as [Hlt | Hge].
        -- split; intros _; [apply lookup_lt_is_Some, Hlt | eauto].
        -- split; intros [x Hx]; [discriminate |].
           apply lookup_lt_Some in Hx. lia.
      * intros f'.
        destruct (Nat.ltb_spec (Z.to_nat index) (length lenv)) as [Hlt | Hge];
          [| discriminate].
        intros H. injection H as <-. cbn.
        split; [apply list_lookup_insert_eq, Hlt |].
        split; [intros j Hj Hne; apply list_lookup_insert_ne; lia |].
        split; [rewrite length_insert; reflexivity |].
        split; [reflexivity | discriminate].
    + split; [split; intros [x Hx]; discriminate | discriminate].
Qed.

Lemma frame_local_roundtrip_witness :
  let b := mkBasic true false false in
  let f := mkFrame 0 0 0 kNull 0 None [kNull; kNull; kNull; kNull; kNull] 2
                   kNull 0 0 in
  exists f', Frame_write_local b f 3 kTrue = Some f' /\
             Frame_read_local b f' 3 = Some kTrue /\
             frame_locals b f' = frame_locals b f.
Proof.
  intros b f.
  exists (set_senv_data [kNull; kNull; kNull; kTrue; kNull] f).
  pose proof (proj2 (frame_local_roundtrip b f 3 kTrue ltac:(lia))
                (set_senv_data [kNull; kNull; kNull; kTrue; kNull] f) eq_refl) as H.
  split; [reflexivity |]. split; [apply H |].
  apply H; [reflexivity | cbn; lia].
Defined.

(** ** The mark phase on its own *)

(** X19. [GarbageCollector::mark] on a heap where every stored pointer
    refers to a cell and no mark bit is set: the recursion ends, cyclic
    references included, within as many nested calls as there are
    cells; it sets the mark bit of exactly the cells that can be reached
    from the value, leaves every other bit of the heap as it was, and
    marking the same value again changes nothing. *)
Theorem mark_marks_reachable (m : Memory) (value : VALUE) :
  closed m -> ptr_ok m value ->
  (forall a c, m !! a = Some c -> mark (basic c) = false) ->
  exists m',
    GarbageCollector_mark (size m) m value = Some m' /\
    marks_extend m m' /\
    (forall a, marked m' a <-> reachable m [value] a) /\
    (forall fuel, GarbageCollector_mark fuel m' value = Some m').
Proof.
  intros Hclosed Hptr Hunmarked.
  destruct (mark_all_correct m [value] Hclosed) as (m' & Hmark & Hext & Hiff);
    [repeat constructor; exact Hptr | exact Hunmarked |].
  exists m'. split; [exact Hmark |]. split; [exact Hext |]. split; [exact Hiff |].
  intros fuel. rewrite mark_unfold.
  destruct (charly_is_ptr value) eqn:Hp; [| reflexivity]. cbn [negb].
  destruct (Z.eqb_spec (charly_as_pointer value) 0) as [| Hne]; [reflexivity |].
  assert (Hm : marked m' (charly_as_pointer value)).
  { apply Hiff. apply (reach_root _ _ value); [apply list_elem_of_here |].
    repeat split; assumption. }
  destruct Hm as (c & Hc & Hmc). unfold charly_as_basic. rewrite Hc.
  cbn [mbind option_bind]. rewrite Hmc. reflexivity.
Qed.

Lemma pinned_machine_root_ok :
  ptr_ok (memory pinned_machine) (charly_create_pointer 4096).
Proof.
  pose proof (ok_roots _ _ pinned_machine_ok) as Hroots.
  rewrite Forall_forall in Hroots. apply Hroots.
  unfold collect_roots. apply elem_of_app. right.
  change (temporaries (gc pinned_machine)) with [charly_create_pointer 4096].
  apply list_elem_of_here.
Qed.

Lemma mark_marks_reachable_witness :
  exists m',
    GarbageCollector_mark (size (memory pinned_machine)) (memory pinned_machine)
      (charly_create_pointer 4096) = Some m' /\
    (forall a, marked m' a
               <-> reachable (memory pinned_machine) [charly_create_pointer 4096] a).
Proof.
  destruct (mark_marks_reachable (memory pinned_machine) (charly_create_pointer 4096)
              (ok_closed _ _ pinned_machine_ok) pinned_machine_root_ok
              (ok_unmarked _ _ pinned_machine_ok))
    as (m' & Hmark & _ & Hiff & _).
  exists m'. split; [exact Hmark | exact Hiff].
Defined.

(** ** Pinned values and collections outside the run loop *)


Section PinFacts.

Context (sizeof_MemoryCell : Z).

Lemma mark_persistent_temporaries (value : VALUE) (w : Machine) :
  value ∈ temporaries (gc (mark_persistent value w)) /\
  (forall t, t ∈ temporaries (gc w) -> t ∈ temporaries (gc (mark_persistent value w))) /\
  (forall t, t ∈ temporaries (gc (mark_persistent value w)) ->
             t = value \/ t ∈ temporaries (gc w)) /\
  memory (mark_persistent value w) = memory w /\
  vm (mark_persistent value w) = vm w /\
  cell_addresses sizeof_MemoryCell (gc (mark_persistent value w))
    = cell_addresses sizeof_MemoryCell (gc w).
Proof.
  unfold mark_persistent.
  destruct (decide (value ∈ temporaries (gc w))) as [Hin | Hnin].
  - repeat split; auto.
  - cbn. repeat split.
    + apply elem_of_app. right. apply list_elem_of_here.
    + intros t Ht. apply elem_of_app. auto.
    + intros t [Ht | Ht%list_elem_of_singleton]%elem_of_app; auto.
Qed.

Lemma mark_persistent_heap_ok (value : VALUE) (w : Machine) :
  heap_ok sizeof_MemoryCell w -> ptr_ok (memory w) value ->
  heap_ok sizeof_MemoryCell (mark_persistent value w).
Proof.
  intros Hok Hptr.
  destruct (mark_persistent_temporaries value w) as (_ & _ & Hsub & Hm & Hv & Hc).
  constructor; rewrite ?Hm, ?Hc; try apply Hok.
  apply Forall_forall. intros r Hr.
  pose proof (ok_roots _ _ Hok) as Hroots. rewrite Forall_forall in Hroots.
  unfold collect_roots in Hr. rewrite Hv in Hr.
  apply elem_of_app in Hr as [Hr | Hr].
  - apply Hroots. unfold collect_roots. apply elem_of_app. auto.
  - destruct (Hsub r Hr) as [-> | Ht]; [exact Hptr |].
    apply Hroots. unfold collect_roots. apply elem_of_app. auto.
Qed.

(** X20. Pinning.  After [mark_persistent] the value is among the
    temporaries, and the next collection keeps the cell it points to,
    with its contents, whether or not the machine is running; the value
    stays pinned across the collection.  [unmark_persistent] of a value
    that is not pinned changes nothing, and after [unmark_persistent] the
    value is not pinned. *)
Theorem pinned_value_survives (w : Machine) (value : VALUE) (a : Z) (c : MemoryCell) :
  heap_ok sizeof_MemoryCell w ->
  points_to value a -> memory w !! a = Some c ->
  (exists w' freed_cells_count,
     collect sizeof_MemoryCell (mark_persistent value w) = Some (w', freed_cells_count) /\
     memory w' !! a = Some c /\
     value ∈ temporaries (gc w')) /\
  (value ∉ temporaries (gc w) -> unmark_persistent value w = w) /\
  value ∉ temporaries (gc (unmark_persistent value (mark_persistent value w))).
Proof.
  intros Hok Hpt Hc.
  assert (Hptr : ptr_ok (memory w) value).
  { intros a' (_ & Ha' & _). destruct Hpt as (_ & Ha & _). subst. eauto. }
  pose proof (mark_persistent_heap_ok value w Hok Hptr) as Hok'.
  destruct (mark_persistent_temporaries value w) as (Hin & _ & _ & Hm & _ & _).
  split; [| split].
  - destruct (collect_facts sizeof_MemoryCell _ Hok')
      as (m' & w' & Hcollect & _ & Hgc & _ & _ & _ & _ & _ & Hkeep & _).
    exists w'. eexists. split; [exact Hcollect |]. split.
    + rewrite Hm in Hkeep. apply (proj1 (Hkeep a c Hc)).
      apply (reach_root _ _ value); [| exact Hpt].
      unfold collect_roots. apply elem_of_app. right. exact Hin.
    + rewrite Hgc.
      rewrite (proj2 (proj2 (gc_after_free_fixed _ _))). exact Hin.
  - intros Hnin. unfold unmark_persistent.
    destruct (decide (value ∈ temporaries (gc w))); [contradiction | reflexivity].
  - unfold unmark_persistent.
    destruct (decide (value ∈ temporaries (gc (mark_persistent value w))));
      [| contradiction].
    cbn. intros Hf. apply list_elem_of_In, filter_In in Hf as [_ Hf].
    rewrite Z.eqb_refl in Hf. discriminate.
Qed.


End PinFacts.

Lemma points_to_4096 : points_to (charly_create_pointer 4096) 4096.
Proof. repeat split. discriminate. Qed.

Lemma pinned_value_survives_witness :
  exists w' freed_cells_count,
    collect example_sizeof (mark_persistent (charly_create_pointer 4096) queue_machine)
      = Some (w', freed_cells_count) /\
    memory w' !! 4096 = Some example_string.
Proof.
  destruct (proj1 (pinned_value_survives example_sizeof queue_machine
                     (charly_create_pointer 4096) 4096 example_string
                     queue_machine_ok points_to_4096 eq_refl))
    as (w' & n & Hcollect & Hkeep & _).
  exists w', n. split; assumption.
Defined.



(** ** A new arena *)

Lemma link_cells_freelist (cells : list Z) :
  forall (m : Memory) (last_cell : Z) (l : list Z),
    NoDup cells ->
    (forall a, a ∈ cells -> a <> 0 /\ a ∉ l) ->
    freelist m last_cell l ->
    let linked :=
      foldl (fun '(m, last_cell) cell =>
               (<[cell := mkCell zero_basic (DFree last_cell)]> m, cell))
            (m, last_cell) cells in
    freelist linked.1 linked.2 (rev cells ++ l) /\
    (forall a, a ∉ cells -> linked.1 !! a = m !! a) /\
    (forall a, a ∈ cells ->
       exists next, linked.1 !! a = Some (mkCell zero_basic (DFree next))).
Proof.
  induction cells as [| cell cells IH]; intros m last_cell l Hnd Hfresh Hfl.
  - cbn. split; [exact Hfl |]. split; [reflexivity |]. intros a Ha. inversion Ha.
  - apply NoDup_cons in Hnd as [Hcell Hnd].
    destruct (Hfresh cell (list_elem_of_here _ _)) as [Hne Hnl].
    cbn [foldl].
    set (m1 := <[cell := mkCell zero_basic (DFree last_cell)]> m).
    assert (Hfl1 : freelist m1 cell (cell :: l)).
    { apply (freelist_cell m1 cell (mkCell zero_basic (DFree last_cell)) last_cell l);
        [exact Hne | apply lookup_insert_eq | reflexivity |].
      apply freelist_insert_other; assumption. }
    destruct (IH m1 cell (cell :: l) Hnd) as (Hf & Hout & Hin); [| exact Hfl1 |].
    { intros a Ha. destruct (Hfresh a (list_elem_of_further _ _ _ Ha)) as [H0 Hl].
      split; [exact H0 |]. intros [-> | H]%elem_of_cons; contradiction. }
    cbv zeta. split; [| split].
    + cbn [rev]. rewrite <- app_assoc. exact Hf.
    + intros a Ha. rewrite Hout.
      * unfold m1. apply lookup_insert_ne. intros ->. apply Ha, list_elem_of_here.
      * intros H. apply Ha, list_elem_of_further, H.
    + intros a Ha. destruct (decide (a ∈ cells)) as [Hc | Hc]; [apply Hin, Hc |].
      apply elem_of_cons in Ha as [-> | Ha]; [| contradiction].
      exists last_cell. rewrite Hout by exact Hc. apply lookup_insert_eq.
Qed.

(** When no cell of an arena is at address 0, the arena is not null or
    it has no cells. *)
Lemma heap_cells_not_null (sizeof_MemoryCell count heap : Z) :
  (forall a, a ∈ heap_cells sizeof_MemoryCell count heap -> a <> 0) ->
  heap <> 0 \/ count <= 0.
Proof.
  intros H. destruct (Z.leb_spec count 0) as [Hc | Hc]; [right; exact Hc | left].
  apply H. unfold heap_cells.
  destruct (Z.to_nat count) as [| k] eqn:Hk; [lia |].
  cbn [seq map]. replace (heap + Z.of_nat 0 * sizeof_MemoryCell) with heap by lia.
  apply list_elem_of_here.
Qed.

Section AddHeap.

Context (sizeof_MemoryCell : Z) (calloc : list Z -> Z).

(** X22. [add_heap] on a heap whose freelist holds the cells [l0], for
    an arena that has no cell at address 0 and lies apart from what is
    free already: it has a result, the new arena is recorded, the
    counter of free cells grows by [heap_cell_count], and every cell of
    the arena is linked into the freelist in front of [l0], the last
    cell of the arena first.  The new cells are dead cells and no other
    cell changes. *)
Theorem add_heap_links_cells (w : Machine) (l0 : list Z) :
  let heap := calloc (heaps (gc w)) in
  let cells := heap_cells sizeof_MemoryCell (heap_cell_count (config (gc w))) heap in
  NoDup cells ->
  (forall a, a ∈ cells -> a <> 0 /\ a ∉ l0) ->
  freelist (memory w) (free_cell (gc w)) l0 ->
  exists w',
  add_heap sizeof_MemoryCell calloc w = Some w' /\
  freelist (memory w') (free_cell (gc w')) (rev cells ++ l0) /\
  heaps (gc w') = heaps (gc w) ++ [heap] /\
  remaining_free_cells (gc w')
    = u64 (remaining_free_cells (gc w) + heap_cell_count (config (gc w))) /\
  (forall a, a ∉ cells -> memory w' !! a = memory w !! a) /\
  (forall a, a ∈ cells ->
     exists c, memory w' !! a = Some c /\ cell_type c = kTypeDead /\
               mark (basic c) = false) /\
  length (rev cells ++ l0)
    = (Z.to_nat (heap_cell_count (config (gc w))) + length l0)%nat.
Proof.
  intros heap cells Hnd Hfresh Hfl.
  destruct (link_cells_freelist cells (memory w) (free_cell (gc w)) l0 Hnd Hfresh Hfl)
    as (Hf & Hout & Hin).
  assert (Hguard : (heap =? 0) && (0 <? heap_cell_count (config (gc w))) = false).
  { apply andb_false_iff.
    destruct (heap_cells_not_null sizeof_MemoryCell
                (heap_cell_count (config (gc w))) heap) as [Hnull | Hnull];
      [intros a Ha; apply (Hfresh a Ha)
      | left; apply Z.eqb_neq, Hnull | right; apply Z.ltb_ge, Hnull]. }
  eexists. split.
  { unfold add_heap. fold heap. rewrite Hguard. reflexivity. }
  split; [exact Hf |]. split; [reflexivity |]. split; [reflexivity |].
  split; [exact Hout |]. split.
  - intros a Ha. destruct (Hin a Ha) as [next Hn].
    eexists. split; [exact Hn |]. split; reflexivity.
  - rewrite length_app, length_rev. unfold cells, heap_cells.
    rewrite length_map, length_seq. reflexivity.
Qed.

End AddHeap.

Lemma add_heap_links_cells_witness :
  exists w',
    add_heap example_sizeof example_calloc last_cell_machine = Some w' /\
    freelist (memory w') (free_cell (gc w')) [8192; 4096].
Proof.
  pose proof (add_heap_links_cells example_sizeof example_calloc last_cell_machine
                [4096]) as H.
  cbv zeta in H. destruct H as (w' & Hadd & Hfl & _);
    [| | | exists w'; split; [exact Hadd | exact Hfl]].
  - apply NoDup_singleton.
  - intros a Ha. apply list_elem_of_singleton in Ha. subst a.
    split; [discriminate |]. intros Hin. apply list_elem_of_singleton in Hin.
    discriminate.
  - apply (freelist_cell _ 4096 (dead_cell 0) 0 []);
      [discriminate | reflexivity | reflexivity | apply freelist_end].
Defined.

(** ** Instruction profile *)

(** X23. [VMInstructionProfile::add_entry] keeps a running mean in
    integers.  As long as the sum [average * encountered + length] fits
    64 bits, the entry of the opcode counts one more instruction and its
    new average is the sum divided by the new count, rounded down, which
    lies between the old average and the new length; the other entries
    are unchanged.  When the counter stands at [2^64 - 1] the division
    is by zero and has no result. *)
Theorem add_entry_average (entries : list VMInstructionProfileEntry)
    (opcode length : Z) (entry : VMInstructionProfileEntry) :
  0 <= opcode -> entries !! Z.to_nat opcode = Some entry ->
  0 <= encountered entry < 2 ^ 64 -> 0 <= average_length entry -> 0 <= length ->
  (encountered entry = 2 ^ 64 - 1 -> add_entry entries opcode length = None) /\
  (average_length entry * encountered entry + length < 2 ^ 64 ->
   encountered entry < 2 ^ 64 - 1 ->
   exists entries' entry',
     add_entry entries opcode length = Some entries' /\
     entries' !! Z.to_nat opcode = Some entry' /\
     encountered entry' = encountered entry + 1 /\
     average_length entry' * encountered entry'
       <= average_length entry * encountered entry + length
       < (average_length entry' + 1) * encountered entry' /\
     Z.min (average_length entry) length <= average_length entry'
       <= Z.max (average_length entry) length /\
     (forall other, other <> Z.to_nat opcode -> entries' !! other = entries !! other)).
Proof.
  intros Hop He Hn Ha Hl. unfold add_entry.
  rewrite (proj2 (Z.ltb_ge _ _) Hop), He. cbn [mbind option_bind].
  split.
  - intros Hmax. rewrite Hmax. reflexivity.
  - intros Hsum Hcount. unfold u64, two64.
    rewrite (Z.mod_small (encountered entry + 1)) by lia.
    rewrite (Z.mod_small (average_length entry * encountered entry)) by nia.
    rewrite (Z.mod_small (average_length entry * encountered entry + length)) by nia.
    destruct (Z.eqb_spec (encountered entry + 1) 0) as [Hz | _]; [lia |].
    set (n := encountered entry) in *. set (avg := average_length entry) in *.
    set (q := (avg * n + length) / (n + 1)).
    assert (Hq : q * (n + 1) <= avg * n + length < (q + 1) * (n + 1)).
    { unfold q. pose proof (Z.mul_div_le (avg * n + length) (n + 1) ltac:(lia)).
      pose proof (Z.mul_succ_div_gt (avg * n + length) (n + 1) ltac:(lia)). lia. }
    assert (Hq0 : 0 <= q) by (apply Z.div_pos; nia).
    eexists. eexists. split; [reflexivity |].
    split; [apply list_lookup_insert_eq; apply lookup_lt_Some in He; exact He |].
    cbn [encountered average_length]. split; [reflexivity |].
    split; [exact Hq |]. split.
    + split.
      * apply Z.div_le_lower_bound; [lia |].
        destruct (Z.min_spec avg length) as [[? ->] | [? ->]]; nia.
      * apply Z.div_le_upper_bound; [lia |].
        destruct (Z.max_spec avg length) as [[? ->] | [? ->]]; nia.
    + intros other Hne. apply list_lookup_insert_ne. congruence.
Qed.

Lemma add_entry_average_witness :
  exists entries' entry',
    add_entry [mkProfileEntry 3 10] 0 2 = Some entries' /\
    entries' !! 0%nat = Some entry' /\
    encountered entry' = 4.
Proof.
  destruct (proj2 (add_entry_average [mkProfileEntry 3 10] 0 2 (mkProfileEntry 3 10)
                     ltac:(lia) eq_refl ltac:(cbn; lia) ltac:(cbn; lia) ltac:(lia))
              ltac:(cbn; lia) ltac:(cbn; lia))
    as (entries' & entry' & H1 & H2 & H3 & _).
  exists entries', entry'. repeat split; assumption.
Defined.

(** ** Immediate strings as values *)

(** What [charly_create_istring] returns for at most six bytes, and what
    reading it back gives. *)
Lemma create_istring_readback (big_endian : bool) (m : Memory) (s : list Z) :
  (length s <= 6)%nat -> Forall is_byte s ->
  exists v,
    charly_create_istring big_endian s (Z.of_nat (length s)) = Some v /\
    (if (length s =? 6)%nat then charly_is_pstring v = true
     else charly_is_istring v = true) /\
    charly_string_length big_endian m v = Some (Z.of_nat (length s)) /\
    exists data, charly_string_data big_endian m v = Some (Some data) /\
                 take (length s) data = s.
Proof.
  intros Hlen Hb.
  destruct s as [| b0 [| b1 [| b2 [| b3 [| b4 [| b5 [| b6 s]]]]]]];
    cbn in Hlen; try lia;
    repeat (apply Forall_cons_1 in Hb as [? Hb]);
    unfold charly_create_istring, word_bytes;
    rewrite ?le_bytes_pstring, ?le_bytes_istring;
    destruct big_endian; cbn -[bytes_word Z.of_nat];
    (eexists; split; [reflexivity |]);
    unfold insert, list_insert; cbn -[bytes_word Z.of_nat];
    match goal with
    | |- (charly_is_pstring _ = true) /\ _ =>
        apply (istring_readback _ m _ _ _ true)
    | |- (charly_is_istring _ = true) /\ _ =>
        apply (istring_readback _ m _ _ _ false)
    end;
    try reflexivity; try discriminate; try bytes_in_range;
    try (cbn [rev app]; rewrite signature_le_word by bytes_in_range;
         unfold is_byte in *; lia).
Qed.

Lemma create_istring_value (big_endian : bool) (m : Memory) (s : list Z) :
  (length s <= 6)%nat -> Forall is_byte s ->
  exists v,
    charly_create_istring big_endian s (Z.of_nat (length s)) = Some v /\
    charly_is_string m v = Some true /\
    charly_get_type m v = Some kTypeString /\
    charly_is_ptr v = false /\ v <> kNull.
Proof.
  intros Hlen Hb.
  destruct (create_istring_readback big_endian m s Hlen Hb) as (v & Hv & Hsig & _).
  exists v. split; [exact Hv |].
  assert (Himm : charly_is_immediate_string v = true).
  { unfold charly_is_immediate_string.
    destruct (length s =? 6)%nat; rewrite Hsig; [apply orb_true_r | reflexivity]. }
  assert (Hs : charly_is_istring v || charly_is_pstring v = true) by exact Himm.
  split; [unfold charly_is_string; rewrite Hs; reflexivity |].
  split; [apply get_type_tests, Himm |].
  assert (Hp : charly_is_ptr v = false).
  { rewrite is_ptr_signature. apply Z.eqb_neq.
    rewrite is_istring_signature, is_pstring_signature in Hs.
    apply orb_true_iff in Hs as [H%Z.eqb_eq | H%Z.eqb_eq]; rewrite H; discriminate. }
  split; [exact Hp |]. intros ->.
  vm_compute in Hs. discriminate.
Qed.

(** X24. Immediate strings are values of their own.  The value
    [charly_create_istring] returns for at most six bytes is a string
    for [charly_is_string] and [charly_get_type], without a look at the
    heap, and it is neither a pointer nor [kNull]; two byte sequences
    that give the same value are the same sequence, so two immediate
    strings are equal exactly when their words are equal.  For a length
    above six the function returns [kNull]. *)
Theorem istring_values (big_endian : bool) (m : Memory) :
  (forall s, (length s <= 6)%nat -> Forall is_byte s ->
     exists v,
       charly_create_istring big_endian s (Z.of_nat (length s)) = Some v /\
       charly_is_string m v = Some true /\
       charly_get_type m v = Some kTypeString /\
       charly_is_ptr v = false /\ v <> kNull) /\
  (forall s1 s2 v,
     (length s1 <= 6)%nat -> Forall is_byte s1 ->
     (length s2 <= 6)%nat -> Forall is_byte s2 ->
     charly_create_istring big_endian s1 (Z.of_nat (length s1)) = Some v ->
     charly_create_istring big_endian s2 (Z.of_nat (length s2)) = Some v ->
     s1 = s2) /\
  (forall ptr length, 6 < length ->
     charly_create_istring big_endian ptr length = Some kNull).
Proof.
  split; [| split].
  - apply create_istring_value.
  - intros s1 s2 v Hl1 Hb1 Hl2 Hb2 H1 H2.
    destruct (create_istring_readback big_endian m s1 Hl1 Hb1)
      as (v1 & Hv1 & _ & Hlen1 & d1 & Hd1 & Ht1).
    destruct (create_istring_readback big_endian m s2 Hl2 Hb2)
      as (v2 & Hv2 & _ & Hlen2 & d2 & Hd2 & Ht2).
    rewrite H1 in Hv1. injection Hv1 as <-.
    rewrite H2 in Hv2. injection Hv2 as <-.
    rewrite Hlen1 in Hlen2. injection Hlen2 as Hn. apply Nat2Z.inj in Hn.
    rewrite Hd1 in Hd2. injection Hd2 as <-.
    rewrite <- Ht1, <- Ht2, Hn. reflexivity.
  - intros ptr length Hlen. unfold charly_create_istring.
    rewrite (proj2 (Z.eqb_neq _ _)) by lia.
    rewrite (proj2 (Z.leb_gt _ _)) by lia. reflexivity.
Qed.

Lemma istring_values_witness :
  exists v,
    charly_create_istring false [97; 98] 2 = Some v /\
    charly_get_type ∅ v = Some kTypeString.
Proof.
  destruct (proj1 (istring_values false ∅) [97; 98]) as (v & Hv & _ & Ht & _).
  - cbn; lia.
  - repeat (apply Forall_cons; split; [unfold is_byte; lia |]). apply Forall_nil_2.
  - exists v. split; [exact Hv | exact Ht].
Defined.

Lemma create_istring_prefix (big_endian : bool) (ptr : list Z) (n : nat) :
  (n <= 6)%nat -> (n <= length ptr)%nat ->
  charly_create_istring big_endian ptr (Z.of_nat n)
  = charly_create_istring big_endian (take n ptr) (Z.of_nat n).
Proof.
  intros Hn Hlen.
  destruct n as [| [| [| [| [| [| [| n]]]]]]]; try lia;
    destruct ptr as [| ? [| ? [| ? [| ? [| ? [| ? ptr]]]]]]; cbn in Hlen; try lia;
    destruct big_endian; reflexivity.
Qed.

(** X25. Immediate strings from a [std::string].  The overload hands
    [input.size()] to a parameter of type [uint8_t], so only the size
    modulo 256 arrives.  For a text of at most six bytes the result is
    the immediate string of the text.  For a longer text the function
    returns [kNull] only when the size modulo 256 is above six; a text
    of 256 bytes comes back as the empty string, and in general a text
    whose size is at most six modulo 256 comes back as the immediate
    string of its first bytes. *)
Theorem create_istring_of_std_string (big_endian : bool) (input : list Z) :
  Forall is_byte input ->
  let size := Z.of_nat (length input) in
  (size <= 6 ->
     charly_create_istring_string big_endian input
     = charly_create_istring big_endian input size) /\
  (6 < size mod 256 -> charly_create_istring_string big_endian input = Some kNull) /\
  (256 <= size -> size mod 256 <= 6 ->
     charly_create_istring_string big_endian input
     = charly_create_istring big_endian
         (take (Z.to_nat (size mod 256)) input) (size mod 256) /\
     charly_create_istring_string big_endian input <> Some kNull) /\
  (size = 256 ->
     charly_create_istring_string big_endian input = Some charly_create_empty_string).
Proof.
  intros Hb size. unfold charly_create_istring_string. fold size.
  assert (Hsz : size = Z.of_nat (length input)) by reflexivity. clearbody size.
  pose proof (Z.mod_pos_bound size 256 ltac:(lia)) as Hmod.
  assert (Hle : size mod 256 <= size) by (apply Z.mod_le; lia).
  remember (Z.to_nat (size mod 256)) as k eqn:Ek.
  assert (Hk : size mod 256 = Z.of_nat k) by lia.
  assert (Hkl : (k <= length input)%nat) by lia.
  assert (Hprefix : size mod 256 <= 6 ->
            charly_create_istring big_endian (input ++ [0]) (size mod 256)
            = charly_create_istring big_endian (take k input) (size mod 256)).
  { intros H6. rewrite Hk.
    assert (H6' : (k <= 6)%nat) by lia.
    assert (Hkl' : (k <= length (input ++ [0%Z]))%nat).
    { rewrite length_app. lia. }
    rewrite (create_istring_prefix big_endian (input ++ [0]) k H6' Hkl').
    rewrite take_app_le by exact Hkl. reflexivity. }
  split; [| split; [| split]].
  - intros Hs. rewrite Hprefix by lia.
    assert (Hsmall : size mod 256 = size) by (apply Z.mod_small; lia).
    rewrite Hsmall in *. rewrite take_ge by lia. reflexivity.
  - intros H6. unfold charly_create_istring.
    rewrite (proj2 (Z.eqb_neq _ _)) by lia.
    rewrite (proj2 (Z.leb_gt _ _)) by lia. reflexivity.
  - intros Hs H6. split; [apply Hprefix, H6 |].
    rewrite Hprefix by exact H6.
    destruct (create_istring_value big_endian ∅ (take k input))
      as (v & Hv & _ & _ & _ & Hne).
    + rewrite length_take. lia.
    + apply Forall_take, Hb.
    + rewrite length_take, Nat.min_l in Hv by exact Hkl.
      rewrite Hk, Hv. congruence.
  - intros Hs. rewrite Hs. change (256 mod 256) with (Z.of_nat 0).
    rewrite create_istring_prefix by lia.
    rewrite take_0. destruct big_endian; reflexivity.
Qed.

Lemma create_istring_of_std_string_witness :
  Forall is_byte (replicate 256 97) /\
  charly_create_istring_string false (replicate 256 97)
    = Some charly_create_empty_string.
Proof.
  assert (Hb : Forall is_byte (replicate 256 97)).
  { apply Forall_replicate. unfold is_byte. lia. }
  split; [exact Hb |].
  apply (proj2 (proj2 (proj2 (create_istring_of_std_string false (replicate 256 97) Hb)))).
  rewrite length_replicate. reflexivity.
Defined.

(** ** The counter of free cells *)

Lemma u64_idem (x : Z) : u64 (u64 x) = u64 x.
Proof. unfold u64, two64. apply Z.mod_mod. lia. Qed.

Lemma u64_add_l (x y : Z) : u64 (u64 x + y) = u64 (x + y).
Proof. unfold u64, two64. apply Zplus_mod_idemp_l. Qed.

Lemma gc_after_free_remaining (cells : list Z) (g : GarbageCollector) :
  remaining_free_cells (foldl gc_after_free g cells)
  = if decide (cells = []) then remaining_free_cells g
    else u64 (remaining_free_cells g + Z.of_nat (length cells)).
Proof.
  revert g. induction cells as [| cell cells IH]; intros g; [reflexivity |].
  cbn [foldl]. rewrite IH. destruct (decide (cells = [])) as [-> | Hne].
  - cbn. f_equal.
  - destruct (decide (cell :: cells = [])); [discriminate |].
    cbn [gc_after_free remaining_free_cells]. rewrite u64_add_l. f_equal.
    cbn [length]. lia.
Qed.

Lemma freelist_head (m : Memory) (p : Z) (l : list Z) (c : MemoryCell) (next : Z) :
  freelist m p l -> p <> 0 -> m !! p = Some c -> data c = DFree next ->
  exists rest, l = p :: rest /\ freelist m next rest.
Proof.
  intros Hfl Hp Hc Hd. inversion Hfl as [| p' c' next' rest Hp' Hc' Hd' Hrest]; subst.
  - contradiction.
  - rewrite Hc in Hc'. injection Hc' as <-. rewrite Hd in Hd'. injection Hd' as <-.
    eauto.
Qed.

Section CounterFacts.

Context (sizeof_MemoryCell : Z) (calloc : list Z -> Z).

Lemma heap_ok_set_free_cell (next : Z) (w : Machine) :
  heap_ok sizeof_MemoryCell w -> heap_ok sizeof_MemoryCell (set_free_cell next w).
Proof. intros Hok. constructor; apply Hok. Qed.

Lemma collect_counter (w w' : Machine) (n : Z) (l : list Z) :
  heap_ok sizeof_MemoryCell w ->
  freelist (memory w) (free_cell (gc w)) l ->
  collect sizeof_MemoryCell w = Some (w', n) ->
  exists freed,
    freelist (memory w') (free_cell (gc w')) (rev freed ++ l) /\
    remaining_free_cells (gc w')
    = (if decide (freed = []) then remaining_free_cells (gc w)
       else u64 (remaining_free_cells (gc w) + Z.of_nat (length freed))) /\
    heaps (gc w') = heaps (gc w) /\ config (gc w') = config (gc w).
Proof.
  intros Hok Hfl Hcollect.
  destruct (collect_facts sizeof_MemoryCell w Hok)
    as (m1 & w1 & Hc1 & _ & Hgc & _ & _ & _ & _ & _ & _ & Hfree).
  cbv zeta in *. rewrite Hcollect in Hc1. injection Hc1 as <- _.
  eexists. split; [apply Hfree, Hfl |].
  rewrite Hgc. split; [apply gc_after_free_remaining |].
  split; apply gc_after_free_fixed.
Qed.

(** X26. The collector keeps its counter in step with the freelist: if
    [remaining_free_cells] is the number of cells on the freelist, it
    still is after a collection, after [deallocate] of a cell that is
    not on the freelist, after [add_heap] of an arena that lies apart
    from the free cells and has no cell at address 0, for which
    [add_heap] has a result, and after an allocation that adds no
    arena. *)
Theorem free_counter_invariant (w : Machine) :
  free_counter_ok w ->
  (forall w' n,
     heap_ok sizeof_MemoryCell w ->
     collect sizeof_MemoryCell w = Some (w', n) -> free_counter_ok w') /\
  (forall cell w',
     cell <> 0 ->
     (forall l, freelist (memory w) (free_cell (gc w)) l -> cell ∉ l) ->
     deallocate w cell = Some w' -> free_counter_ok w') /\
  (let cells := heap_cells sizeof_MemoryCell (heap_cell_count (config (gc w)))
                           (calloc (heaps (gc w))) in
   NoDup cells ->
   (forall a l, a ∈ cells -> freelist (memory w) (free_cell (gc w)) l ->
                a <> 0 /\ a ∉ l) ->
   0 <= heap_cell_count (config (gc w)) ->
   exists w',
     add_heap sizeof_MemoryCell calloc w = Some w' /\ free_counter_ok w') /\
  (forall cell w',
     heap_ok sizeof_MemoryCell w ->
     allocate sizeof_MemoryCell calloc w = Some (cell, w') ->
     heaps (gc w') = heaps (gc w) ->
     free_counter_ok w').
Proof.
  intros (l & Hfl & Hcount).
  split; [| split; [| split]].
  - intros w' n Hok Hcollect.
    destruct (collect_counter w w' n l Hok Hfl Hcollect) as (freed & Hf & Hr & _).
    exists (rev freed ++ l). split; [exact Hf |].
    rewrite Hr, Hcount, length_app, length_rev.
    destruct (decide (freed = [])) as [-> | _]; [reflexivity |].
    rewrite u64_add_l. f_equal. lia.
  - intros cell w' Hne Hnot Hd. unfold deallocate in Hd.
    destruct (charly_as_basic (memory w) (charly_create_pointer cell)) as [c |];
      [| discriminate].
    cbn in Hd. injection Hd as <-.
    exists (cell :: l). cbn [memory gc free_cell remaining_free_cells]. split.
    + apply (freelist_cell _ cell (mkCell zero_basic (DFree (free_cell (gc w))))
               (free_cell (gc w)) l);
        [exact Hne | apply lookup_insert_eq | reflexivity |].
      apply freelist_insert_other; [apply Hnot, Hfl | exact Hfl].
    + rewrite Hcount, u64_add_l. f_equal. cbn [length]. lia.
  - intros cells Hnd Hfresh Hn.
    destruct (link_cells_freelist cells (memory w) (free_cell (gc w)) l Hnd)
      as (Hf & _ & _); [intros a Ha; apply (Hfresh a l Ha Hfl) | exact Hfl |].
    destruct (add_heap_is_Some sizeof_MemoryCell calloc w) as [w' Hw'].
    { apply (heap_cells_not_null sizeof_MemoryCell).
      intros a Ha. apply (Hfresh a l Ha Hfl). }
    exists w'. split; [exact Hw' |].
    unfold add_heap in Hw'.
    destruct ((calloc (heaps (gc w)) =? 0) && (0 <? heap_cell_count (config (gc w))));
      [discriminate |].
    injection Hw' as <-.
    exists (rev cells ++ l). split; [exact Hf |].
    cbn [gc remaining_free_cells].
    rewrite Hcount, u64_add_l. f_equal.
    rewrite length_app, length_rev. unfold cells, heap_cells.
    rewrite length_map, length_seq. lia.
  - intros cell w' Hok Halloc Hheaps. unfold allocate in Halloc.
    destruct (Z.eqb_spec (free_cell (gc w)) 0) as [| Hne]; [discriminate |].
    destruct (memory w !! free_cell (gc w)) as [c |] eqn:Hc; [| discriminate].
    cbn [mbind option_bind] in Halloc.
    destruct (data c) as [next | | | | | | | | | |] eqn:Hd; try discriminate.
    cbn [mbind option_bind] in Halloc.
    destruct (freelist_head _ _ _ c next Hfl Hne Hc Hd) as (rest & -> & Hrest).
    set (w1 := set_free_cell next w) in *.
    assert (Hfl1 : freelist (memory w1) (free_cell (gc w1)) rest) by exact Hrest.
    assert (Hr1 : remaining_free_cells (gc w1) = u64 (Z.of_nat (length rest) + 1)).
    { cbn [w1 set_free_cell set_gc gc remaining_free_cells]. rewrite Hcount.
      f_equal. cbn [length]. lia. }
    assert (Hdone : forall w2 l2,
              freelist (memory w2) (free_cell (gc w2)) l2 ->
              remaining_free_cells (gc w2) = u64 (Z.of_nat (length l2) + 1) ->
              free_counter_ok (count_allocation w2)).
    { intros w2 l2 Hf2 Hr2. exists l2. split; [exact Hf2 |].
      cbn [count_allocation set_gc gc remaining_free_cells]. rewrite Hr2.
      replace (u64 (Z.of_nat (length l2) + 1) - 1)
        with (u64 (Z.of_nat (length l2) + 1) + -1) by lia.
      rewrite u64_add_l. f_equal. lia. }
    destruct ((next =? 0)
              || (remaining_free_cells (gc w1) <=? min_free_cells (config (gc w1)))).
    + unfold collect_and_grow in Halloc.
      destruct (collect sizeof_MemoryCell w1) as [[w2 n] |] eqn:Hcollect;
        [| discriminate].
      cbn [mbind option_bind] in Halloc.
      destruct (collect_counter w1 w2 n rest (heap_ok_set_free_cell next w Hok)
                  Hfl1 Hcollect) as (freed & Hf2 & Hr2 & Hh2 & _).
      assert (Hr2' : remaining_free_cells (gc w2)
                     = u64 (Z.of_nat (length (rev freed ++ rest)) + 1)).
      { rewrite Hr2, Hr1, length_app, length_rev.
        destruct (decide (freed = [])) as [-> | _]; [reflexivity |].
        rewrite u64_add_l. f_equal. lia. }
      destruct (Z.eqb_spec (free_cell (gc w2)) 0) as [Hz | Hnz].
      * destruct (grow_heap sizeof_MemoryCell calloc w2) as [w3 |] eqn:Hgrow;
          [| discriminate].
        cbn [mbind option_bind] in Halloc.
        assert (Hsame : w3 = w2).
        { unfold grow_heap in Hgrow.
          destruct (add_heaps_length sizeof_MemoryCell calloc _ w2 w3 Hgrow)
            as (Hlen & _).
          assert (Hh3 : heaps (gc w3) = heaps (gc w2)).
          { rewrite Hh2. change (heaps (gc w1)) with (heaps (gc w)).
            rewrite <- Hheaps.
            destruct (free_cell (gc w3) =? 0);
              cbn [mbind option_bind] in Halloc; injection Halloc as _ <-;
              reflexivity. }
          rewrite Hh3 in Hlen.
          destruct (Z.to_nat
                      (u64 (Z.of_nat (length (heaps (gc w2)))
                            * heap_growth_factor (config (gc w2)) + 1
                            - Z.of_nat (length (heaps (gc w2)))))) as [| k];
            [| lia].
          cbn [add_heaps] in Hgrow. congruence. }
        subst w3.
        destruct (Z.eqb_spec (free_cell (gc w2)) 0); [| contradiction].
        cbn [mbind option_bind] in Halloc. injection Halloc as _ <-.
        destruct (Hdone w2 _ Hf2 Hr2') as (l3 & Hf3 & Hr3).
        exists l3. split; assumption.
      * cbn [mbind option_bind] in Halloc. injection Halloc as _ <-.
        apply (Hdone w2 _ Hf2 Hr2').
    + cbn [mbind option_bind] in Halloc. injection Halloc as _ <-.
      apply (Hdone w1 rest Hfl1 Hr1).
Qed.

End CounterFacts.

Lemma queue_machine_counter : free_counter_ok queue_machine.
Proof.
  exists [4224]. split; [| reflexivity].
  apply (freelist_cell _ 4224 (dead_cell 0) 0 []);
    [discriminate | reflexivity | reflexivity | apply freelist_end].
Qed.

Lemma free_counter_invariant_witness :
  free_counter_ok queue_machine /\
  exists w' n,
    collect example_sizeof queue_machine = Some (w', n) /\ free_counter_ok w'.
Proof.
  split; [exact queue_machine_counter |].
  destruct (collect_facts example_sizeof queue_machine queue_machine_ok)
    as (m' & w' & Hcollect & _).
  exists w'. eexists. split; [exact Hcollect |].
  apply (proj1 (free_counter_invariant example_sizeof example_calloc queue_machine
                  queue_machine_counter) w' _ queue_machine_ok Hcollect).
Defined.

(** ** Giving a cell back and taking it again *)

Section Recycle.

Context (sizeof_MemoryCell : Z) (calloc : list Z -> Z).

(** X27. The freelist is a stack.  After [deallocate] of a cell the next
    [allocate], when it needs no collection, hands out that very cell
    and leaves the head of the freelist and the counter of free cells
    as they were before the two calls.  The cell comes back zeroed and
    tagged dead, with the link to the old head still in it, and the
    destructor of what it held has run; [allocate] itself writes
    nothing into the cell. *)
Theorem deallocate_then_allocate (w : Machine) (cell : Z) (c : MemoryCell) :
  0 < cell <= kMaxPointer -> memory w !! cell = Some c ->
  free_cell (gc w) <> 0 ->
  0 <= remaining_free_cells (gc w) < 2 ^ 64 - 1 ->
  min_free_cells (config (gc w)) <= remaining_free_cells (gc w) ->
  exists w1 w2,
    deallocate w cell = Some w1 /\
    allocate sizeof_MemoryCell calloc w1 = Some (cell, w2) /\
    free_cell (gc w2) = free_cell (gc w) /\
    remaining_free_cells (gc w2) = remaining_free_cells (gc w) /\
    memory w2 !! cell = Some (mkCell zero_basic (DFree (free_cell (gc w)))) /\
    (forall a, a <> cell -> memory w2 !! a = memory w !! a) /\
    effects w2 = effects w ++ clean c.
Proof.
  intros Hcell Hc Hfree Hr Hmin.
  destruct (create_pointer_cell cell Hcell) as (_ & Hptr).
  unfold deallocate, charly_as_basic. rewrite Hptr, Hc. cbn [mbind option_bind].
  eexists. eexists. split; [reflexivity |].
  unfold allocate. cbn [gc free_cell memory].
  destruct (Z.eqb_spec cell 0) as [| _]; [lia |].
  rewrite lookup_insert_eq. cbn [mbind option_bind data].
  cbn [set_free_cell set_gc gc remaining_free_cells config min_free_cells].
  rewrite (proj2 (Z.eqb_neq _ _) Hfree).
  assert (Hu : u64 (remaining_free_cells (gc w) + 1) = remaining_free_cells (gc w) + 1).
  { unfold u64, two64. apply Z.mod_small. lia. }
  rewrite !Hu.
  rewrite (proj2 (Z.leb_gt _ _)) by lia. cbn [orb mbind option_bind].
  split; [reflexivity |].
  cbn [count_allocation set_free_cell set_gc gc free_cell remaining_free_cells
       memory effects].
  split; [reflexivity |]. split.
  - rewrite ?Hu.
    replace (remaining_free_cells (gc w) + 1 - 1) with (remaining_free_cells (gc w)) by lia.
    unfold u64, two64. apply Z.mod_small. lia.
  - split; [apply lookup_insert_eq |]. split; [| reflexivity].
    intros a Ha. apply lookup_insert_ne. congruence.
Qed.

End Recycle.

Lemma deallocate_then_allocate_witness :
  exists w1 w2,
    deallocate queue_machine 4096 = Some w1 /\
    allocate example_sizeof example_calloc w1 = Some (4096, w2) /\
    free_cell (gc w2) = 4224.
Proof.
  destruct (deallocate_then_allocate example_sizeof example_calloc queue_machine
              4096 example_string)
    as (w1 & w2 & H1 & H2 & H3 & _).
  - vm_compute. split; [reflexivity | discriminate].
  - reflexivity.
  - discriminate.
  - vm_compute. split; [discriminate | reflexivity].
  - vm_compute. discriminate.
  - exists w1, w2. split; [exact H1 |]. split; [exact H2 | exact H3].
Defined.
